(** * DesignTech graph: the graph-relationship engine

    A shallow embedding of the pure parts of [src/utils.js],
    [src/initialElements.js] and of the neighbourhood highlighting, the type
    filter and the rebuild of the edges of [src/App.jsx], with the
    properties the specification states about them and, after these,
    properties of the rest of the code.

    Conventions of the embedding.
    - A JavaScript string is a [string]; its characters stand for UTF-16 code
      units (below 256), so [String.compare] is the order of the default
      [Array.prototype.sort] and of [<] on strings.
    - [Set]s of strings are [gset string] and [Map]s are [gmap string _].
      A plain object used as a dictionary is the [gmap] of the properties
      of its own, read and written through [Obj.get] and [Obj.set], which
      give the members of [Object.prototype] their part: a key such as
      [constructor] reads as an inherited function where the object has no
      such property of its own, and [__proto__] is never stored.
    - Numbers that only count are [nat].  [getNodeIntersection] is given
      twice: on the IEEE doubles of the source ([Double], on the primitive
      floats), and as a formula on exact rationals [Q], on which its
      geometry is proved.  The coordinates that [getEdgePosition],
      [getEdgeParams] and the two layouts handle are rationals: rounding is
      not modelled there, and the properties stated of them are on sides
      and on order, not on exact places.  Opacities are rationals.
    - [console.log] calls are dropped. *)

From Stdlib Require Import PrimFloat FloatOps SpecFloat.
From Stdlib Require Import QArith Qabs Qround Lqa.
From stdpp Require Import gmap strings list fin_maps pretty sorting.

Import Stdlib.Strings.Ascii.AsciiSyntax.
Delimit Scope char_scope with char.
Local Open Scope string_scope.
Local Open Scope list_scope.
Local Open Scope stdpp_scope.

(** ** Strings *)

Module Js.

(** [String.prototype.toLowerCase] on one code unit below 256: the letters
    A-Z and the capital letters of Latin-1, which are the code units 192 to
    222 but for the multiplication sign 215, move up by 32. *)
Definition lowerChar (c : Ascii.ascii) : Ascii.ascii :=
  let n := Ascii.nat_of_ascii c in
  if ((65 <=? n)%nat && (n <=? 90)%nat)
     || ((192 <=? n)%nat && (n <=? 222)%nat && negb (n =? 215)%nat)
  then Ascii.ascii_of_nat (n + 32) else c.

Fixpoint toLowerCase (s : string) : string :=
  match s with
  | EmptyString => EmptyString
  | String c s' => String (lowerChar c) (toLowerCase s')
  end.

(** White space removed by [String.prototype.trim]: TAB, LF, VT, FF, CR,
    SPACE and NBSP. *)
Definition isSpace (c : Ascii.ascii) : bool :=
  let n := Ascii.nat_of_ascii c in
  ((9 <=? n)%nat && (n <=? 13)%nat) || (n =? 32)%nat || (n =? 160)%nat.

Fixpoint trimStart (s : string) : string :=
  match s with
  | String c s' => if isSpace c then trimStart s' else s
  | EmptyString => EmptyString
  end.

(** [trimEnd s] drops the trailing white space: a character is kept when
    something that is not white space follows it or it is none itself. *)
Fixpoint trimEnd (s : string) : string :=
  match s with
  | EmptyString => EmptyString
  | String c s' =>
      match trimEnd s' with
      | EmptyString => if isSpace c then EmptyString else String c EmptyString
      | r => String c r
      end
  end.

Definition trim (s : string) : string := trimEnd (trimStart s).

(** [s.split(sep)] for a one-character separator: the pieces between the
    separators, empty pieces included; never the empty list. *)
Fixpoint split (sep : Ascii.ascii) (s : string) : list string :=
  match s with
  | EmptyString => [EmptyString]
  | String c s' =>
      if Ascii.eqb c sep then EmptyString :: split sep s'
      else match split sep s' with
           | piece :: rest => String c piece :: rest
           | [] => [String c EmptyString]
           end
  end.

(** A string is truthy when it is not empty. *)
Definition truthy (s : string) : bool :=
  match s with EmptyString => false | _ => true end.

(** [[a, b].sort()]: the default sort compares code units and is stable, so
    the pair is swapped only when [b] is strictly below [a]. *)
Definition sortPair (a b : string) : string * string :=
  if String.ltb b a then (b, a) else (a, b).

(** [Array.from(new Set(l))]: the first occurrence of every element, in
    order. *)
Fixpoint uniqueGo (seen : gset string) (l : list string) : list string :=
  match l with
  | [] => []
  | x :: l' =>
      if decide (x ∈ seen) then uniqueGo seen l'
      else x :: uniqueGo ({[x]} ∪ seen) l'
  end.

Definition unique (l : list string) : list string := uniqueGo ∅ l.

(** [Array.prototype.sort(compareFn)] is stable: it is modelled as the
    stable insertion sort, [x] staying before [y] when [compareFn(x, y)]
    is not positive.  [sortM] is for a [compareFn] that can throw. *)
Fixpoint insertM {A} (cmp : A → A → option Z) (x : A) (l : list A)
  : option (list A) :=
  match l with
  | [] => Some [x]
  | y :: l' =>
      c ← cmp x y;
      if (c <=? 0)%Z then Some (x :: y :: l')
      else (y ::.) <$> insertM cmp x l'
  end.

Fixpoint sortM {A} (cmp : A → A → option Z) (l : list A) : option (list A) :=
  match l with
  | [] => Some []
  | x :: l' => sortM cmp l' ≫= insertM cmp x
  end.

Fixpoint insert {A} (cmp : A → A → Z) (x : A) (l : list A) : list A :=
  match l with
  | [] => [x]
  | y :: l' => if (cmp x y <=? 0)%Z then x :: y :: l' else y :: insert cmp x l'
  end.

Fixpoint sort {A} (cmp : A → A → Z) (l : list A) : list A :=
  match l with
  | [] => []
  | x :: l' => insert cmp x (sort cmp l')
  end.

(** The comparison of the default sort, on strings. *)
Definition defaultCompare (a b : string) : Z :=
  match String.compare a b with
  | Lt => (-1)%Z
  | Eq => 0%Z
  | Gt => 1%Z
  end.

(** The names of the properties of [Object.prototype].  Every plain object
    inherits them: read on an object that has no property of that name of
    its own, each gives a function, and [__proto__] gives [Object.prototype]
    itself. *)
Definition objectPrototype : list string :=
  ["constructor"; "__defineGetter__"; "__defineSetter__"; "hasOwnProperty";
   "__lookupGetter__"; "__lookupSetter__"; "isPrototypeOf";
   "propertyIsEnumerable"; "toString"; "valueOf"; "__proto__";
   "toLocaleString"].

Definition inherited (key : string) : bool :=
  bool_decide (key ∈ objectPrototype).

(** [String(Object.prototype[key])]: the text of a native function, as V8
    prints it (engines differ in its white space), and of
    [Object.prototype]. *)
Definition memberText (key : string) : string :=
  if bool_decide (key = "__proto__") then "[object Object]"
  else if bool_decide (key = "constructor")
       then "function Object() { [native code] }"
  else "function " +:+ key +:+ "() { [native code] }".

(** What a property read can give; [VInherited key] is
    [Object.prototype[key]]. *)
Inductive Value :=
| VUndefined
| VString (s : string)
| VNumber (q : Q)
| VBoolean (b : bool)
| VArray (l : list string)
| VInherited (key : string).

End Js.

(** ** Plain objects used as dictionaries *)

Module Obj.

(** What [o[key]] finds: a property of the object's own, a member of
    [Object.prototype], or nothing. *)
Inductive Read (A : Type) :=
| Own (a : A)
| Inherited (key : string)
| Missing.

Arguments Own {A} a.
Arguments Inherited {A} key.
Arguments Missing {A}.

(** [o[key]], for an object [o = {}] whose own properties were all set by
    [set]: [__proto__] is an accessor of [Object.prototype] and is never a
    property of the object's own. *)
Definition get {A} (o : gmap string A) (key : string) : Read A :=
  if bool_decide (key = "__proto__") then Inherited key
  else match o !! key with
       | Some a => Own a
       | None => if Js.inherited key then Inherited key else Missing
       end.

(** [o[key] = a] for a value [a] that is not an object: the setter of
    [__proto__] ignores it, and every other key becomes or stays a property
    of the object's own. *)
Definition set {A} (key : string) (a : A) (o : gmap string A)
  : gmap string A :=
  if bool_decide (key = "__proto__") then o else <[key := a]> o.

End Obj.

(** ** Data model *)

(** A record of [data.json]. *)
Record DataRecord := mkRecord {
  Name : string;
  Type_ : string;
  Designtechs : option (list string);
  Interoperability : option string;
  Description : option string;
  Website : option string
}.

Record Position := mkPosition { pos_x : Q; pos_y : Q }.

(** What the [connectionCount] object holds at a key, and the [data.size]
    read from it: a number; or, at a key that names a member of
    [Object.prototype], a text (the member's text with [1] appended) or the
    member itself. *)
Inductive Count :=
| Num (n : nat)
| Text (s : string)
| Member (key : string).

(** A [data.color]: a CSS colour, or the member of [Object.prototype] a
    read of [colorMap] has found. *)
Inductive Color :=
| Css (s : string)
| ColorMember (key : string).

(** The [data] object of a node. *)
Module NodeData.
Record t := mk {
  label : string;
  type : option string;
  description : option string;
  website : option string;
  designtechs : option (list string);
  color : option Color;
  size : option Count;
  editable : option bool;
  isDimmed : option bool;
  opacity : option Q
}.
End NodeData.

Module Node.
Record t := mk {
  id : string;
  type : option string;
  data : NodeData.t;
  position : option Position;
  hidden : option bool
}.
End Node.

Module EdgeData.
Record t := mk { isDimmed : bool; opacity : Q }.
End EdgeData.

Module Edge.
Record t := mk {
  id : string;
  source : string;
  target : string;
  type : string;
  data : option EdgeData.t
}.
End Edge.

(** [{ id, source, target, type: 'floating' }] *)
Definition floatingEdge (i s t : string) : Edge.t :=
  Edge.mk i s t "floating" None.

(** [`e-${id1}-${id2}`] *)
Definition edgeIdOf (id1 id2 : string) : string :=
  "e-" +:+ id1 +:+ "-" +:+ id2.

(** The id the edge builders give the pair: the template applied to the
    sorted pair. *)
Definition undirectedId (a b : string) : string :=
  let '(id1, id2) := Js.sortPair a b in edgeIdOf id1 id2.

(** [node.data.type && node.data.type.toLowerCase() === 'company'] *)
Definition isCompany (n : Node.t) : bool :=
  match NodeData.type (Node.data n) with
  | Some ty => Js.truthy ty && bool_decide (Js.toLowerCase ty = "company")
  | None => false
  end.

(** [new Set(positionedNodes.map(n => n.id))] *)
Definition nodeIdSet (nodes : list Node.t) : gset string :=
  list_to_set (Node.id <$> nodes).

(** ** Degree counter *)

(** [connectionCount[k] || d]: zero and the empty text are falsy, a member
    of [Object.prototype] is an object and truthy. *)
Definition orElse (r : Obj.Read Count) (d : Count) : Count :=
  match r with
  | Obj.Own (Num 0) => d
  | Obj.Own (Text EmptyString) => d
  | Obj.Own c => c
  | Obj.Inherited key => Member key
  | Obj.Missing => d
  end.

(** [c + 1]: on a number the sum; on a text, and on an object through its
    text, the concatenation. *)
Definition plusOne (c : Count) : Count :=
  match c with
  | Num n => Num (n + 1)
  | Text s => Text (s +:+ "1")
  | Member key => Text (Js.memberText key +:+ "1")
  end.

(** [connectionCount[k] = (connectionCount[k] || 0) + 1] on the plain object
    [connectionCount = {}]. *)
Definition bump (k : string) (m : gmap string Count) : gmap string Count :=
  Obj.set k (plusOne (orElse (Obj.get m k) (Num 0))) m.

(** The [edges.forEach] loop that fills [connectionCount]; it is the same in
    [buildCompanyEdges], [buildInteroperabilityEdges] and [initialElements]. *)
Definition countConnections (edges : list Edge.t) : gmap string Count :=
  foldl (λ m e, bump (Edge.target e) (bump (Edge.source e) m)) ∅ edges.

Record BuildResult := mkResult {
  edges : list Edge.t;
  connectionCount : gmap string Count
}.

(** ** Edge builders *)

(** The state the [forEach] loops thread: the [edges] array and [edgeSet]. *)
Definition BuildState : Type := list Edge.t * gset string.

(** Body of the guarded emission shared by the two builders: the id of the
    sorted pair, the duplicate guard, [edgeSet.add] and [edges.push]. *)
Definition emit (src tgt : string) (st : BuildState) : BuildState :=
  let edgeId := undirectedId src tgt in
  if decide (edgeId ∈ st.2) then st
  else (st.1 ++ [floatingEdge edgeId src tgt], {[edgeId]} ∪ st.2).

(** The [designMap] of [buildCompanyEdges]: a later record of the same name
    replaces an earlier one; records without a non-empty list are skipped. *)
Definition designMapOf (rawData : list DataRecord) : gmap string (list string) :=
  foldl (λ m item,
           match Designtechs item with
           | Some ((_ :: _) as l) => <[Name item := Js.unique l]> m
           | _ => m
           end) ∅ rawData.

(** The tool list of a company node: its own non-empty [designtechs], or
    else the entry of [designMap], or else nothing. *)
Definition techsOf (designMap : gmap string (list string)) (n : Node.t)
  : list string :=
  match NodeData.designtechs (Node.data n) with
  | Some ((_ :: _) as l) => l
  | _ => default [] (designMap !! Node.id n)
  end.

Definition companyTech (nodeIds : gset string) (n : Node.t)
    (st : BuildState) (tech : string) : BuildState :=
  if bool_decide (tech ∈ nodeIds) && negb (bool_decide (tech = Node.id n))
  then emit (Node.id n) tech st
  else st.

Definition companyNode (nodeIds : gset string)
    (designMap : gmap string (list string))
    (st : BuildState) (n : Node.t) : BuildState :=
  if negb (isCompany n) then st
  else foldl (companyTech nodeIds n) st (techsOf designMap n).

Definition buildCompanyEdges (positionedNodes : list Node.t)
    (rawData : list DataRecord) : BuildResult :=
  let nodeIds := nodeIdSet positionedNodes in
  let designMap := designMapOf rawData in
  let st := foldl (companyNode nodeIds designMap) ([], ∅) positionedNodes in
  mkResult st.1 (countConnections st.1).

(** [item.Interoperability.split(',').map(s => s.trim()).filter(Boolean)] *)
Definition parseInterop (s : string) : list string :=
  filter (λ t, Is_true (Js.truthy t)) (Js.trim <$> Js.split ","%char s).

Definition interopMapOf (rawData : list DataRecord) : gmap string (list string) :=
  foldl (λ m item,
           match Interoperability item with
           | Some s =>
               if Js.truthy s then
                 match parseInterop s with
                 | [] => m
                 | l => <[Name item := l]> m
                 end
               else m
           | None => m
           end) ∅ rawData.

Definition interopTarget (nodeIds : gset string) (n : Node.t)
    (st : BuildState) (target : string) : BuildState :=
  if bool_decide (target = Node.id n) then st
  else if negb (bool_decide (target ∈ nodeIds)) then st
  else emit (Node.id n) target st.

Definition interopNode (nodeIds : gset string)
    (interopMap : gmap string (list string))
    (st : BuildState) (n : Node.t) : BuildState :=
  if isCompany n then st
  else foldl (interopTarget nodeIds n) st
             (default [] (interopMap !! Node.id n)).

Definition buildInteroperabilityEdges (positionedNodes : list Node.t)
    (rawData : list DataRecord) : BuildResult :=
  let nodeIds := nodeIdSet positionedNodes in
  let interopMap := interopMapOf rawData in
  let st := foldl (interopNode nodeIds interopMap) ([], ∅) positionedNodes in
  mkResult st.1 (countConnections st.1).

(** ** Neighbourhood expander ([LayoutFlow] in [App.jsx]) *)

Record Neighborhood := mkNeighborhood {
  firstOrderNodes : gset string;
  firstOrderEdges : gset string;
  secondOrderNodes : gset string;
  secondOrderEdges : gset string
}.

Definition emptyNeighborhood : Neighborhood := mkNeighborhood ∅ ∅ ∅ ∅.

(** [if (selectedNodeId)]: neither [null] nor the empty string. *)
Definition isSelected (selectedNodeId : option string) : bool :=
  match selectedNodeId with
  | Some s => Js.truthy s
  | None => false
  end.

(** [edge.source === selectedNodeId || edge.target === selectedNodeId] *)
Definition isDirect (s : string) (e : Edge.t) : bool :=
  bool_decide (Edge.source e = s) || bool_decide (Edge.target e = s).

(** Body of the first [edges.forEach]; the pair is
    [(firstOrderNodes, firstOrderEdges)]. *)
Definition firstStep (s : string) (acc : gset string * gset string)
    (e : Edge.t) : gset string * gset string :=
  if isDirect s e
  then ({[Edge.target e]} ∪ ({[Edge.source e]} ∪ acc.1), {[Edge.id e]} ∪ acc.2)
  else acc.

(** Body of the second [edges.forEach]; [first] is the finished
    [firstOrderNodes], the pair is [(secondOrderNodes, secondOrderEdges)]. *)
Definition secondStep (s : string) (first : gset string)
    (acc : gset string * gset string) (e : Edge.t)
  : gset string * gset string :=
  let isConnectedToFirst :=
    bool_decide (Edge.source e ∈ first) || bool_decide (Edge.target e ∈ first) in
  if isConnectedToFirst && negb (isDirect s e) then
    let nodes1 :=
      if bool_decide (Edge.source e ∈ first) then acc.1
      else {[Edge.source e]} ∪ acc.1 in
    let nodes2 :=
      if bool_decide (Edge.target e ∈ first) then nodes1
      else {[Edge.target e]} ∪ nodes1 in
    (nodes2, {[Edge.id e]} ∪ acc.2)
  else acc.

Definition neighborhood (selectedNodeId : option string)
    (edges : list Edge.t) (interoperabilityOrder : nat) : Neighborhood :=
  match selectedNodeId with
  | Some s =>
      if Js.truthy s then
        let first := foldl (firstStep s) (∅, ∅) edges in
        let second :=
          if (interoperabilityOrder =? 2)%nat
          then foldl (secondStep s first.1) (∅, ∅) edges
          else (∅, ∅) in
        mkNeighborhood first.1 first.2 second.1 second.2
      else emptyNeighborhood
  | None => emptyNeighborhood
  end.

(** [opacity < 1] *)
Definition dimmed (opacity : Q) : bool := negb (Qle_bool 1 opacity).

(** The opacity [styledNodes] computes for one node. *)
Definition nodeOpacity (selectedNodeId : option string)
    (interoperabilityOrder : nat) (nb : Neighborhood) (n : Node.t) : Q :=
  if isSelected selectedNodeId then
    if bool_decide (Node.id n ∈ firstOrderNodes nb) then 1
    else if (interoperabilityOrder =? 2)%nat
            && bool_decide (Node.id n ∈ secondOrderNodes nb) then 1 # 2
    else 1 # 10
  else 1.

(** [{ ...node, data: { ...node.data, isDimmed: opacity < 1, opacity } }] *)
Definition styleNode (opacity : Q) (n : Node.t) : Node.t :=
  let d := Node.data n in
  Node.mk (Node.id n) (Node.type n)
    (NodeData.mk (NodeData.label d) (NodeData.type d) (NodeData.description d)
       (NodeData.website d) (NodeData.designtechs d) (NodeData.color d)
       (NodeData.size d) (NodeData.editable d)
       (Some (dimmed opacity)) (Some opacity))
    (Node.position n) (Node.hidden n).

Definition styledNodes (nodes : list Node.t) (edges : list Edge.t)
    (selectedNodeId : option string) (interoperabilityOrder : nat)
  : list Node.t :=
  let nb := neighborhood selectedNodeId edges interoperabilityOrder in
  (λ n, styleNode (nodeOpacity selectedNodeId interoperabilityOrder nb n) n)
    <$> nodes.

(** The opacity [styledEdges] computes for one edge. *)
Definition edgeOpacity (selectedNodeId : option string)
    (interoperabilityOrder : nat) (nb : Neighborhood) (e : Edge.t) : Q :=
  if isSelected selectedNodeId then
    if bool_decide (Edge.id e ∈ firstOrderEdges nb) then 1
    else if (interoperabilityOrder =? 2)%nat
            && bool_decide (Edge.id e ∈ secondOrderEdges nb) then 7 # 20
    else 1 # 20
  else 1.

(** [{ ...edge, data: { ...edge.data, isDimmed: opacity < 1, opacity } }] *)
Definition styleEdge (opacity : Q) (e : Edge.t) : Edge.t :=
  Edge.mk (Edge.id e) (Edge.source e) (Edge.target e) (Edge.type e)
    (Some (EdgeData.mk (dimmed opacity) opacity)).

Definition styledEdges (edges : list Edge.t)
    (selectedNodeId : option string) (interoperabilityOrder : nat)
  : list Edge.t :=
  let nb := neighborhood selectedNodeId edges interoperabilityOrder in
  (λ e, styleEdge (edgeOpacity selectedNodeId interoperabilityOrder nb e) e)
    <$> edges.

(** The opacity the renderer reads back: [data.opacity ?? 1]. *)
Definition renderedNodeOpacity (n : Node.t) : Q :=
  default 1%Q (NodeData.opacity (Node.data n)).

Definition renderedEdgeOpacity (e : Edge.t) : Q :=
  match Edge.data e with
  | Some d => EdgeData.opacity d
  | None => 1
  end.

(** ** Geometry resolver *)

(** *** The geometry resolver in exact arithmetic *)

(** What [getNodeIntersection] reads of a ReactFlow internal node:
    [measured.width], [measured.height] and [internals.positionAbsolute],
    as rationals. *)
Record InternalNode := mkInternal {
  measured_width : Q;
  measured_height : Q;
  positionAbsolute : Position
}.

(** The formula of [getNodeIntersection] on rationals, no operation
    rounding; [Double.getNodeIntersection] below is the function on the
    doubles of the source. *)
Definition getNodeIntersection (intersectionNode targetNode : InternalNode)
  : Position :=
  let intersectionNodeWidth := measured_width intersectionNode in
  let intersectionNodeHeight := measured_height intersectionNode in
  let intersectionNodePosition := positionAbsolute intersectionNode in
  let targetPosition := positionAbsolute targetNode in
  let w := (intersectionNodeWidth / 2)%Q in
  let h := (intersectionNodeHeight / 2)%Q in
  let x2 := (pos_x intersectionNodePosition + w)%Q in
  let y2 := (pos_y intersectionNodePosition + h)%Q in
  let x1 := (pos_x targetPosition + measured_width targetNode / 2)%Q in
  let y1 := (pos_y targetPosition + measured_height targetNode / 2)%Q in
  let xx1 := ((x1 - x2) / (2 * w) - (y1 - y2) / (2 * h))%Q in
  let yy1 := ((x1 - x2) / (2 * w) + (y1 - y2) / (2 * h))%Q in
  let a := (1 / (Qabs xx1 + Qabs yy1))%Q in
  let xx3 := (a * xx1)%Q in
  let yy3 := (a * yy1)%Q in
  let x := (w * (xx3 + yy3) + x2)%Q in
  let y := (h * (- xx3 + yy3) + y2)%Q in
  mkPosition x y.

(** Centre of a measured node. *)
Definition centerX (n : InternalNode) : Q :=
  (pos_x (positionAbsolute n) + measured_width n / 2)%Q.

Definition centerY (n : InternalNode) : Q :=
  (pos_y (positionAbsolute n) + measured_height n / 2)%Q.

(** *** The geometry resolver on doubles *)

(** The numbers of the source are IEEE 754 doubles, and every operation
    rounds to the nearest double, ties to even: these are the primitive
    floats and their operations. *)
Module Double.

Record Position := mkPosition { pos_x : float; pos_y : float }.

(** What [getNodeIntersection] reads of a ReactFlow internal node. *)
Record InternalNode := mkInternal {
  measured_width : float;
  measured_height : float;
  positionAbsolute : Position
}.

(** [getNodeIntersection], as the source computes it. *)
Definition getNodeIntersection (intersectionNode targetNode : InternalNode)
  : Position :=
  let intersectionNodeWidth := measured_width intersectionNode in
  let intersectionNodeHeight := measured_height intersectionNode in
  let intersectionNodePosition := positionAbsolute intersectionNode in
  let targetPosition := positionAbsolute targetNode in
  let w := (intersectionNodeWidth / 2)%float in
  let h := (intersectionNodeHeight / 2)%float in
  let x2 := (pos_x intersectionNodePosition + w)%float in
  let y2 := (pos_y intersectionNodePosition + h)%float in
  let x1 := (pos_x targetPosition + measured_width targetNode / 2)%float in
  let y1 := (pos_y targetPosition + measured_height targetNode / 2)%float in
  let xx1 := ((x1 - x2) / (2 * w) - (y1 - y2) / (2 * h))%float in
  let yy1 := ((x1 - x2) / (2 * w) + (y1 - y2) / (2 * h))%float in
  let a := (1 / (PrimFloat.abs xx1 + PrimFloat.abs yy1))%float in
  let xx3 := (a * xx1)%float in
  let yy3 := (a * yy1)%float in
  let x := (w * (xx3 + yy3) + x2)%float in
  let y := (h * (- xx3 + yy3) + y2)%float in
  mkPosition x y.

(** The rational number a finite double is: its mantissa times the power
    of two of its exponent. *)
Definition value (f : float) : option Q :=
  match Prim2SF f with
  | S754_zero _ => Some 0%Q
  | S754_finite s m e =>
      Some (inject_Z (if s then Z.neg m else Z.pos m) * Qpower 2 e)%Q
  | _ => None
  end.

(** An operation on doubles that is not rounded: the operands and the
    result are finite and the result is the result of the operation [opQ]
    on the rationals; [None] when it is not so. *)
Definition exactly1 (opF : float → float) (opQ : Q → Q) (a : float)
  : option float :=
  let r := opF a in
  qa ← value a; qr ← value r;
  if Qeq_bool qr (opQ qa) then Some r else None.

Definition exactly2 (opF : float → float → float) (opQ : Q → Q → Q)
    (a b : float) : option float :=
  let r := opF a b in
  qa ← value a; qb ← value b; qr ← value r;
  if Qeq_bool qr (opQ qa qb) then Some r else None.

Definition xadd := exactly2 PrimFloat.add Qplus.
Definition xsub := exactly2 PrimFloat.sub Qminus.
Definition xmul := exactly2 PrimFloat.mul Qmult.
Definition xdiv := exactly2 PrimFloat.div Qdiv.
Definition xabs := exactly1 PrimFloat.abs Qabs.
Definition xopp := exactly1 PrimFloat.opp Qopp.

(** The run of [getNodeIntersection] in which no operation is rounded:
    the same operations in the same order, each one checked; [None] as soon
    as one is rounded, overflows or divides by zero. *)
Definition getNodeIntersectionExactly
    (intersectionNode targetNode : InternalNode) : option Position :=
  let intersectionNodeWidth := measured_width intersectionNode in
  let intersectionNodeHeight := measured_height intersectionNode in
  let intersectionNodePosition := positionAbsolute intersectionNode in
  let targetPosition := positionAbsolute targetNode in
  w ← xdiv intersectionNodeWidth 2;
  h ← xdiv intersectionNodeHeight 2;
  x2 ← xadd (pos_x intersectionNodePosition) w;
  y2 ← xadd (pos_y intersectionNodePosition) h;
  x1 ← xdiv (measured_width targetNode) 2 ≫= xadd (pos_x targetPosition);
  y1 ← xdiv (measured_height targetNode) 2 ≫= xadd (pos_y targetPosition);
  xx1 ← (l ← (n ← xsub x1 x2; d ← xmul 2 w; xdiv n d);
         r ← (n ← xsub y1 y2; d ← xmul 2 h; xdiv n d);
         xsub l r);
  yy1 ← (l ← (n ← xsub x1 x2; d ← xmul 2 w; xdiv n d);
         r ← (n ← xsub y1 y2; d ← xmul 2 h; xdiv n d);
         xadd l r);
  a ← (l ← xabs xx1; r ← xabs yy1; s ← xadd l r; xdiv 1 s);
  xx3 ← xmul a xx1;
  yy3 ← xmul a yy1;
  x ← (s ← xadd xx3 yy3; m ← xmul w s; xadd m x2);
  y ← (n ← xopp xx3; s ← xadd n yy3; m ← xmul h s; xadd m y2);
  Some (mkPosition x y).

End Double.

(** The rational position and node that a position and a node in finite
    doubles are. *)
Definition positionValue (p : Double.Position) : option Position :=
  x ← Double.value (Double.pos_x p);
  y ← Double.value (Double.pos_y p);
  Some (mkPosition x y).

Definition internalValue (n : Double.InternalNode) : option InternalNode :=
  width ← Double.value (Double.measured_width n);
  height ← Double.value (Double.measured_height n);
  position ← positionValue (Double.positionAbsolute n);
  Some (mkInternal width height position).

(** ** Layout helpers *)

(** A [forEach] whose body can throw. *)
Fixpoint foldlM {A S : Type} (f : S → A → option S) (s : S) (l : list A)
  : option S :=
  match l with
  | [] => Some s
  | x :: l' => f s x ≫= λ s', foldlM f s' l'
  end.

(** A colour and a size as values. *)
Definition colorValue (c : Color) : Js.Value :=
  match c with
  | Css s => Js.VString s
  | ColorMember key => Js.VInherited key
  end.

Definition countValue (c : Count) : Js.Value :=
  match c with
  | Num n => Js.VNumber (inject_Z (Z.of_nat n))
  | Text s => Js.VString s
  | Member key => Js.VInherited key
  end.

(** [data[key]] for a dynamic key: a property of the data object, or else
    what the object inherits under that name. *)
Definition dataProp (key : string) (d : NodeData.t) : Js.Value :=
  let str := from_option Js.VString Js.VUndefined in
  if bool_decide (key = "label") then Js.VString (NodeData.label d)
  else if bool_decide (key = "type") then str (NodeData.type d)
  else if bool_decide (key = "description") then str (NodeData.description d)
  else if bool_decide (key = "website") then str (NodeData.website d)
  else if bool_decide (key = "color")
       then from_option colorValue Js.VUndefined (NodeData.color d)
  else if bool_decide (key = "designtechs")
       then from_option Js.VArray Js.VUndefined (NodeData.designtechs d)
  else if bool_decide (key = "size")
       then from_option countValue Js.VUndefined (NodeData.size d)
  else if bool_decide (key = "editable")
       then from_option Js.VBoolean Js.VUndefined (NodeData.editable d)
  else if bool_decide (key = "isDimmed")
       then from_option Js.VBoolean Js.VUndefined (NodeData.isDimmed d)
  else if bool_decide (key = "opacity")
       then from_option Js.VNumber Js.VUndefined (NodeData.opacity d)
  else if Js.inherited key then Js.VInherited key
  else Js.VUndefined.

(** [a.data[arrangeBy]?.toLowerCase() || '']: [None] is the [TypeError] of
    calling [toLowerCase] on a value that has none, such as a number or a
    member of [Object.prototype]. *)
Definition arrangeKey (arrangeBy : string) (n : Node.t) : option string :=
  match dataProp arrangeBy (Node.data n) with
  | Js.VUndefined => Some ""
  | Js.VString s => Some (Js.toLowerCase s)
  | _ => None
  end.

(** [{ ...node, position }] *)
Definition withPosition (n : Node.t) (p : Position) : Node.t :=
  Node.mk (Node.id n) (Node.type n) (Node.data n) (Some p) (Node.hidden n).

(** [node.data.type] used as a property key. *)
Definition typeKey (n : Node.t) : string :=
  default "undefined" (NodeData.type (Node.data n)).

Definition ofNat (n : nat) : Q := inject_Z (Z.of_nat n).

Section Layout.

(** The host's [Math.cos], [Math.sin] and [Math.PI], and
    [String.prototype.localeCompare] of the host's locale. *)
Variables (Math_cos Math_sin : Q → Q) (Math_PI : Q).
Variable localeCompare : string → string → Z.

Definition arrangeCompare (arrangeBy : string) (a b : Node.t) : option Z :=
  aVal ← arrangeKey arrangeBy a;
  bVal ← arrangeKey arrangeBy b;
  Some (localeCompare aVal bVal).

Definition circlePosition (centerX centerY radius angleStep : Q) (i : nat)
  : Position :=
  let angle := (ofNat i * angleStep)%Q in
  mkPosition (centerX + radius * Math_cos angle)%Q
             (centerY + radius * Math_sin angle)%Q.

Definition arrangeNodes (nodes : list Node.t) (width height : Q)
    (arrangeBy : string) (radius : Q) : option (list Node.t) :=
  let centerX := (width / 2)%Q in
  let centerY := (height / 2)%Q in
  sortedNodes ← Js.sortM (arrangeCompare arrangeBy) nodes;
  let angleStep := ((2 * Math_PI) / ofNat (length sortedNodes))%Q in
  Some (imap (λ i node,
                withPosition node
                  (circlePosition centerX centerY radius angleStep i))
             sortedNodes).

(** The grouping loop of [arrangeNodesVertically] on the plain object
    [nodesByType = {}]: a type that names a member of [Object.prototype]
    reads as that member, which is truthy and has no [push], and [None] is
    the [TypeError] of calling it; a type not met before gets the array
    [[]], and the node is pushed on the array of its type. *)
Definition groupByType (nodes : list Node.t)
  : option (gmap string (list Node.t)) :=
  foldlM (λ nodesByType node,
            let type := typeKey node in
            match Obj.get nodesByType type with
            | Obj.Own typeNodes =>
                Some (<[type := typeNodes ++ [node]]> nodesByType)
            | Obj.Inherited _ => None
            | Obj.Missing => Some (<[type := [] ++ [node]]> nodesByType)
            end) ∅ nodes.

Definition labelCompare (a b : Node.t) : Z :=
  localeCompare (Js.toLowerCase (NodeData.label (Node.data a)))
                (Js.toLowerCase (NodeData.label (Node.data b))).

Definition VERTICAL_SPACING : Q := 50.
Definition COLUMN_SPACING : Q := 250.

(** One column: the body of [types.forEach]. *)
Definition arrangeColumn (nodesByType : gmap string (list Node.t))
    (height : Q) (columnIndex : nat) (type : string) : list Node.t :=
  let typeNodes := Js.sort labelCompare (default [] (nodesByType !! type)) in
  let columnStartY :=
    (height / 2 - (ofNat (length typeNodes) * VERTICAL_SPACING) / 2)%Q in
  imap (λ rowIndex node,
          withPosition node
            (mkPosition (ofNat columnIndex * COLUMN_SPACING + 100)%Q
                        (columnStartY + ofNat rowIndex * VERTICAL_SPACING)%Q))
       typeNodes.

(** [Object.keys(nodesByType)] is the list of the keys of the map, which
    the sort then orders;
    [columnHeights] and [maxHeight] are computed and not used, and are left
    out. *)
Definition arrangeNodesVertically (nodes : list Node.t) (width height : Q)
  : option (list Node.t) :=
  nodesByType ← groupByType nodes;
  let types := Js.sort Js.defaultCompare (elements (dom nodesByType)) in
  Some (concat (imap (arrangeColumn nodesByType height) types)).

(** *** Initial load ([src/initialElements.js]) *)

Definition colorPalette : list string :=
  ["#7AC8A4"; "#FFA07A"; "#87CEFA"; "#FFD700"; "#DDA0DD"; "#D3D3D3";
   "#ADD8E6"; "#90EE90"; "#F08080"; "#B0C4DE"; "#FFB6C1"].

Definition COMPANY_COLOR : string := "#1E40AF".

(** [colorMap] is the plain object [{}]. *)
Definition generateColorMap (data : list DataRecord) : gmap string string :=
  let types := Js.unique (Type_ <$> data) in
  (foldl (λ (acc : gmap string string * nat) type,
            let '(colorMap, colorIndex) := acc in
            if bool_decide (Js.toLowerCase type = "company")
            then (Obj.set type COMPANY_COLOR colorMap, colorIndex)
            else
              let c :=
                match colorPalette !! colorIndex with
                | Some c => c
                | None =>
                    let hue := ((10 + colorIndex * 50) mod 360)%nat in
                    "hsl(" +:+ pretty hue +:+ ", 55%, 70%)"
                end in
              (Obj.set type c colorMap, S colorIndex))
         (∅, 0%nat) types).1.

(** [colorMap[type] || '#ccc'] *)
Definition colorOf (colorMap : gmap string string) (type : string) : Color :=
  match Obj.get colorMap type with
  | Obj.Own c => if Js.truthy c then Css c else Css "#ccc"
  | Obj.Inherited key => ColorMember key
  | Obj.Missing => Css "#ccc"
  end.

(** The node made of one record. *)
Definition recordNode (colorMap : gmap string string) (item : DataRecord)
  : Node.t :=
  Node.mk (Name item) (Some "custom")
    (NodeData.mk (Name item) (Some (Type_ item)) (Description item)
       (Website item) (Some (default [] (Designtechs item)))
       (Some (colorOf colorMap (Type_ item)))
       None None None None)
    None None.

(** The edges one node originates in the initial load; [None] is the
    [TypeError] of [node.data.type.toLowerCase()] on a missing type. *)
Definition initialEdgesOfNode (nodeIds : gset string) (node : Node.t)
  : option (list Edge.t) :=
  ty ← NodeData.type (Node.data node);
  Some
    (if bool_decide (Js.toLowerCase ty = "company") then
       match NodeData.designtechs (Node.data node) with
       | Some techs =>
           omap (λ tech,
                   if bool_decide (tech ∈ nodeIds)
                   then Some (floatingEdge (edgeIdOf (Node.id node) tech)
                                           (Node.id node) tech)
                   else None) techs
       | None => []
       end
     else []).

(** [node.data.size = connectionCount[node.id] || 1] *)
Definition withSize (connectionCount : gmap string Count) (n : Node.t)
  : Node.t :=
  let d := Node.data n in
  let size := orElse (Obj.get connectionCount (Node.id n)) (Num 1) in
  Node.mk (Node.id n) (Node.type n)
    (NodeData.mk (NodeData.label d) (NodeData.type d)
       (NodeData.description d) (NodeData.website d)
       (NodeData.designtechs d) (NodeData.color d) (Some size)
       (NodeData.editable d) (NodeData.isDimmed d) (NodeData.opacity d))
    (Node.position n) (Node.hidden n).

(** [rawData] is the imported [data.json]; [width] and [height] are
    [window.innerWidth] and [window.innerHeight]. *)
Definition initialElements (rawData : list DataRecord) (width height : Q)
  : option (list Node.t * list Edge.t) :=
  let filteredData :=
    filter (λ item, Js.toLowerCase (Type_ item) ≠ "filformat") rawData in
  let colorMap := generateColorMap filteredData in
  let nodes := recordNode colorMap <$> filteredData in
  positionedNodes ← arrangeNodes nodes width height "label" 600;
  let nodeIds := nodeIdSet positionedNodes in
  perNode ← mapM (initialEdgesOfNode nodeIds) positionedNodes;
  let edges := concat perNode in
  let connectionCount := countConnections edges in
  Some (withSize connectionCount <$> positionedNodes, edges).

End Layout.

(** ** The store: arrays and node objects by reference *)

Module Store.

Record t := mk {
  objects : gmap nat Node.t;
  arrays : gmap nat (list nat)
}.

(** A new object literal. *)
Definition newObject (n : Node.t) (h : t) : nat * t :=
  let l := fresh (dom (objects h)) in
  (l, mk (<[l := n]> (objects h)) (arrays h)).

(** A new array. *)
Definition newArray (ls : list nat) (h : t) : nat * t :=
  let a := fresh (dom (arrays h)) in
  (a, mk (objects h) (<[a := ls]> (arrays h))).

(** Writing the contents of an existing array ([push], in-place [sort]). *)
Definition setArray (a : nat) (ls : list nat) (h : t) : t :=
  mk (objects h) (<[a := ls]> (arrays h)).

(** The node objects a list of references points to. *)
Definition nodesAt (objs : gmap nat Node.t) (ls : list nat)
  : option (list Node.t) :=
  mapM (λ l, objs !! l) ls.

(** [h] has everything [h0] has, unchanged. *)
Definition extends (h0 h : t) : Prop :=
  objects h0 ⊆ objects h ∧ arrays h0 ⊆ arrays h.

End Store.

(** A comparator on references reads the two objects. *)
Definition compareAt (objs : gmap nat Node.t)
    (cmp : Node.t → Node.t → option Z) (la lb : nat) : option Z :=
  a ← objs !! la; b ← objs !! lb; cmp a b.

(** [ls.map((node, i) => ({ ...node, position: g(i) }))], from index [i]:
    one new object per element; the references of the new objects. *)
Fixpoint copyWithPositions (g : nat → Position) (i : nat) (ls : list nat)
    (h : Store.t) : option (list nat * Store.t) :=
  match ls with
  | [] => Some ([], h)
  | l :: ls' =>
      node ← Store.objects h !! l;
      let '(o, h1) := Store.newObject (withPosition node (g i)) h in
      r ← copyWithPositions g (S i) ls' h1;
      Some (o :: r.1, r.2)
  end.

(** [ls.forEach((node, i) => out.push({ ...node, position: g(i) }))] *)
Fixpoint pushCopies (out : nat) (g : nat → Position) (i : nat)
    (ls : list nat) (h : Store.t) : option Store.t :=
  match ls with
  | [] => Some h
  | l :: ls' =>
      node ← Store.objects h !! l;
      let '(o, h1) := Store.newObject (withPosition node (g i)) h in
      cur ← Store.arrays h1 !! out;
      pushCopies out g (S i) ls' (Store.setArray out (cur ++ [o]) h1)
  end.

Section LayoutByReference.

Variables (Math_cos Math_sin : Q → Q) (Math_PI : Q).
Variable localeCompare : string → string → Z.

(** [arrangeNodes] on the store: [nodes] is the reference of the input
    array; the result is the reference of the returned array. *)
Definition arrangeNodesRef (h : Store.t) (nodes : nat) (width height : Q)
    (arrangeBy : string) (radius : Q) : option (nat * Store.t) :=
  let centerX := (width / 2)%Q in
  let centerY := (height / 2)%Q in
  elems ← Store.arrays h !! nodes;
  let '(sortedNodes, h1) := Store.newArray elems h in
  cur ← Store.arrays h1 !! sortedNodes;
  sorted ← Js.sortM (compareAt (Store.objects h1)
                       (arrangeCompare localeCompare arrangeBy)) cur;
  let h2 := Store.setArray sortedNodes sorted h1 in
  cur2 ← Store.arrays h2 !! sortedNodes;
  let angleStep := ((2 * Math_PI) / ofNat (length cur2))%Q in
  r ← copyWithPositions
         (circlePosition Math_cos Math_sin centerX centerY radius angleStep)
         0 cur2 h2;
  Some (Store.newArray r.1 r.2).

(** The body of [nodes.forEach] in [arrangeNodesVertically]: [nodesByType]
    maps a type to the reference of its array. *)
Definition groupPush (st : gmap string nat * Store.t) (l : nat)
  : option (gmap string nat * Store.t) :=
  node ← Store.objects st.2 !! l;
  let type := typeKey node in
  st1 ← match Obj.get st.1 type with
        | Obj.Own _ => Some st
        | Obj.Inherited _ => None
        | Obj.Missing =>
            let '(a, h') := Store.newArray [] st.2 in
            Some (<[type := a]> st.1, h')
        end;
  a ← st1.1 !! type;
  cur ← Store.arrays st1.2 !! a;
  Some (st1.1, Store.setArray a (cur ++ [l]) st1.2).

Definition columnPosition (height : Q) (columnIndex len rowIndex : nat)
  : Position :=
  let columnStartY := (height / 2 - (ofNat len * VERTICAL_SPACING) / 2)%Q in
  mkPosition (ofNat columnIndex * COLUMN_SPACING + 100)%Q
             (columnStartY + ofNat rowIndex * VERTICAL_SPACING)%Q.

(** The body of [types.forEach]: the array of the type is sorted in place,
    and a copy of each of its nodes is pushed on [arrangedNodes]. *)
Definition columnPush (nodesByType : gmap string nat) (height : Q)
    (arrangedNodes : nat) (st : nat * Store.t) (type : string)
  : option (nat * Store.t) :=
  let columnIndex := st.1 in
  a ← nodesByType !! type;
  cur ← Store.arrays st.2 !! a;
  sorted ← Js.sortM (compareAt (Store.objects st.2)
                       (λ x y, Some (labelCompare localeCompare x y))) cur;
  let h1 := Store.setArray a sorted st.2 in
  typeNodes ← Store.arrays h1 !! a;
  h2 ← pushCopies arrangedNodes
         (columnPosition height columnIndex (length typeNodes)) 0 typeNodes h1;
  Some (S columnIndex, h2).

Definition arrangeNodesVerticallyRef (h : Store.t) (nodes : nat)
    (width height : Q) : option (nat * Store.t) :=
  elems ← Store.arrays h !! nodes;
  grouped ← foldlM groupPush (∅, h) elems;
  let nodesByType := grouped.1 in
  let types := Js.sort Js.defaultCompare (elements (dom nodesByType)) in
  let '(arrangedNodes, h2) := Store.newArray [] grouped.2 in
  r ← foldlM (columnPush nodesByType height arrangedNodes) (0%nat, h2) types;
  Some (arrangedNodes, r.2).

End LayoutByReference.

(** ** Rebuilding the edges ([LayoutFlow] in [App.jsx]) *)

(** [rebuildEdges(mode, currentNodes)]: the node list and the edge list it
    sets.  The edges are built from [currentNodes]; [setNodes] maps over the
    state [prev] at the time of the update. *)
Definition rebuildEdges (mode : string) (currentNodes : list Node.t)
    (rawData : list DataRecord) (prev : list Node.t)
  : list Node.t * list Edge.t :=
  let result :=
    if bool_decide (mode = "company")
    then buildCompanyEdges currentNodes rawData
    else buildInteroperabilityEdges currentNodes rawData in
  let newEdges := edges result in
  let connectionCount := connectionCount result in
  (withSize connectionCount <$> prev, newEdges).

(** [toggleEdgeMode]: the mode it sets, and what [rebuildEdges(next)]
    sets; [nodes] is the node state. *)
Definition toggleEdgeMode (edgeMode : string) (nodes : list Node.t)
    (rawData : list DataRecord) : string * (list Node.t * list Edge.t) :=
  let next :=
    if bool_decide (edgeMode = "company") then "interoperability"
    else "company" in
  (next, rebuildEdges next nodes rawData nodes).

(** ** Edge attachment ([getEdgePosition] and [getEdgeParams]) *)

(** The [Position] enumeration of [@xyflow/react]: the side of a node an
    edge is attached to. *)
Module Side.
Inductive t := Left | Right | Top | Bottom.
End Side.

(** [Math.round]: the nearest integer, a half going up. *)
Definition Math_round (x : Q) : Z := Qfloor (x + (1 # 2)).

(** [n] is [{ ...node.internals.positionAbsolute, ...node }]: an internal
    node has no [x] or [y] of its own, so [n.x] and [n.y] are those of
    [positionAbsolute].  The second test compares with the rounded [nx]
    and the fourth with [n.y] as it is. *)
Definition getEdgePosition (node : InternalNode) (intersectionPoint : Position)
  : Side.t :=
  let n_x := pos_x (positionAbsolute node) in
  let n_y := pos_y (positionAbsolute node) in
  let nx := Math_round n_x in
  let ny := Math_round n_y in
  let px := Math_round (pos_x intersectionPoint) in
  let py := Math_round (pos_y intersectionPoint) in
  if (px <=? nx + 1)%Z then Side.Left
  else if Qle_bool (inject_Z nx + measured_width node - 1) (inject_Z px)
  then Side.Right
  else if (py <=? ny + 1)%Z then Side.Top
  else if Qle_bool (n_y + measured_height node - 1) (inject_Z py)
  then Side.Bottom
  else Side.Top.

(** What [getEdgeParams] returns. *)
Record EdgeParams := mkEdgeParams {
  sx : Q; sy : Q; tx : Q; ty : Q;
  sourcePos : Side.t; targetPos : Side.t
}.

Definition getEdgeParams (source target : InternalNode) : EdgeParams :=
  let sourceIntersectionPoint := getNodeIntersection source target in
  let targetIntersectionPoint := getNodeIntersection target source in
  let sourcePos := getEdgePosition source sourceIntersectionPoint in
  let targetPos := getEdgePosition target targetIntersectionPoint in
  mkEdgeParams (pos_x sourceIntersectionPoint) (pos_y sourceIntersectionPoint)
               (pos_x targetIntersectionPoint) (pos_y targetIntersectionPoint)
               sourcePos targetPos.

(** ** Type filter ([LayoutFlow] in [App.jsx]) *)

(** [Array.from(new Set(l))] on node types: the first occurrence of each.
    A node type is [node.data.type]: a string, or [None] for [undefined]. *)
Fixpoint uniqueTypesGo (seen : gset (option string))
    (l : list (option string)) : list (option string) :=
  match l with
  | [] => []
  | x :: l' =>
      if decide (x ∈ seen) then uniqueTypesGo seen l'
      else x :: uniqueTypesGo ({[x]} ∪ seen) l'
  end.

(** An entry of [allTypes]: [{ type, color }]. *)
Record TypeEntry := mkTypeEntry {
  entry_type : option string;
  entry_color : Color
}.

(** [color || '#ccc'] *)
Definition colorOrGrey (color : option Color) : Color :=
  match color with
  | Some (Css c) => if Js.truthy c then Css c else Css "#ccc"
  | Some (ColorMember key) => ColorMember key
  | None => Css "#ccc"
  end.

(** [nodes.find(n => n.data.type === type)?.data.color || '#ccc'] *)
Definition typeColor (nodes : list Node.t) (type : option string) : Color :=
  colorOrGrey
    (find (λ n, bool_decide (NodeData.type (Node.data n) = type)) nodes
       ≫= λ n, NodeData.color (Node.data n)).

(** [allTypes]: the types of the nodes, each with a colour. *)
Definition allTypes (nodes : list Node.t) : list TypeEntry :=
  let types := uniqueTypesGo ∅ ((λ n, NodeData.type (Node.data n)) <$> nodes) in
  (λ type, mkTypeEntry type (typeColor nodes type)) <$> types.

(** The first value of [activeTypes]: [new Set(allTypes.map(t => t.type))]. *)
Definition initialActiveTypes (nodes : list Node.t) : gset (option string) :=
  list_to_set (entry_type <$> allTypes nodes).

(** [toggleType]: the next value of [activeTypes]. *)
Definition toggleType (type : option string) (prev : gset (option string))
  : gset (option string) :=
  if bool_decide (type ∈ prev) then prev ∖ {[type]} else {[type]} ∪ prev.

(** [{ ...node, hidden }] *)
Definition withHidden (hidden : bool) (n : Node.t) : Node.t :=
  Node.mk (Node.id n) (Node.type n) (Node.data n) (Node.position n)
          (Some hidden).

(** [{ ...edge, hidden }]: an edge with its [hidden] flag. *)
Module FilteredEdge.
Record t := mk { edge : Edge.t; hidden : bool }.
End FilteredEdge.

(** [nodeTypeMap]: a later node of the same id replaces an earlier one. *)
Definition nodeTypeMapOf (updatedNodes : list Node.t)
  : gmap string (option string) :=
  foldl (λ m n, <[Node.id n := NodeData.type (Node.data n)]> m) ∅ updatedNodes.

(** [nodeTypeMap.get(id)]: [undefined] for an id that is not in the map. *)
Definition typeOfId (nodeTypeMap : gmap string (option string)) (id : string)
  : option string :=
  default None (nodeTypeMap !! id).

(** The effect that runs when [activeTypes] changes: the new nodes and the
    new edges. *)
Definition typeFilterEffect (activeTypes : gset (option string))
    (prevNodes : list Node.t) (prevEdges : list Edge.t)
  : list Node.t * list FilteredEdge.t :=
  let updatedNodes :=
    (λ node, withHidden
               (negb (bool_decide (NodeData.type (Node.data node) ∈ activeTypes)))
               node) <$> prevNodes in
  let nodeTypeMap := nodeTypeMapOf updatedNodes in
  let newEdges :=
    (λ edge,
       let sourceType := typeOfId nodeTypeMap (Edge.source edge) in
       let targetType := typeOfId nodeTypeMap (Edge.target edge) in
       let visible := bool_decide (sourceType ∈ activeTypes)
                      && bool_decide (targetType ∈ activeTypes) in
       FilteredEdge.mk edge (negb visible)) <$> prevEdges in
  (updatedNodes, newEdges).

(** * Vocabulary of the properties *)

(** ** The sorted-pair id *)

Definition strMin (a b : string) : string := if String.ltb b a then b else a.
Definition strMax (a b : string) : string := if String.ltb b a then a else b.

(** An edge joins [a] and [b] when they are its endpoints, in either order. *)
Definition joins (a b : string) (e : Edge.t) : Prop :=
  (Edge.source e = a ∧ Edge.target e = b) ∨
  (Edge.source e = b ∧ Edge.target e = a).

(** An edge is canonical when its id is the template applied to its sorted
    endpoints. *)
Definition canonical (e : Edge.t) : Prop :=
  Edge.id e = edgeIdOf (strMin (Edge.source e) (Edge.target e))
                       (strMax (Edge.source e) (Edge.target e)).

Global Instance joins_dec a b e : Decision (joins a b e).
Proof. unfold joins. apply _. Defined.

(** A string without the separator [-] of the edge ids. *)
Fixpoint hyphenFree (s : string) : bool :=
  match s with
  | EmptyString => true
  | String c s' => negb (Ascii.eqb c "-"%char) && hyphenFree s'
  end.

(** ** Invariants of the builders' loops *)

(** [edgeSet] holds the ids of [edges], which are distinct; [good] is what
    the builder guarantees of every edge it emits. *)
Record BuildInv (good : Edge.t → Prop) (st : BuildState) : Prop := {
  inv_set : ∀ x, x ∈ st.2 ↔ ∃ e, e ∈ st.1 ∧ Edge.id e = x;
  inv_nodup : NoDup (Edge.id <$> st.1);
  inv_good : Forall good st.1
}.

(** What [buildCompanyEdges] guarantees of every edge it emits. *)
Definition usageGood (nodes : list Node.t)
    (designMap : gmap string (list string)) (e : Edge.t) : Prop :=
  canonical e ∧ Edge.source e ≠ Edge.target e ∧
  Edge.target e ∈ nodeIdSet nodes ∧
  ∃ n, n ∈ nodes ∧ Node.id n = Edge.source e ∧ isCompany n = true ∧
       Edge.target e ∈ techsOf designMap n.

(** What [buildInteroperabilityEdges] guarantees of every edge it emits. *)
Definition interopGood (nodes : list Node.t)
    (interopMap : gmap string (list string)) (e : Edge.t) : Prop :=
  canonical e ∧ Edge.source e ≠ Edge.target e ∧
  Edge.target e ∈ nodeIdSet nodes ∧
  ∃ n, n ∈ nodes ∧ Node.id n = Edge.source e ∧ isCompany n = false ∧
       Edge.target e ∈ default [] (interopMap !! Node.id n).

(** ** Degree *)

(** [sum(degree.values())], when every value is a number. *)
Definition sumValues (m : gmap string Count) : option nat :=
  map_fold (λ _ v acc,
              match v with
              | Num n => (λ k, n + k)%nat <$> acc
              | _ => None
              end) (Some 0%nat) m.

(** Every value of the object is a number. *)
Definition allNumbers (m : gmap string Count) : Prop :=
  ∀ k c, m !! k = Some c → ∃ n, c = Num n.

(** The object holds the count [n] at [k]: nothing for zero. *)
Definition countedAt (m : gmap string Count) (k : string) (n : nat) : Prop :=
  m !! k = if decide (n = 0%nat) then None else Some (Num n).

(** The object holds nothing or a text that is not empty at [k]. *)
Definition textAt (m : gmap string Count) (k : string) : Prop :=
  match m !! k with
  | None => True
  | Some (Text s) => s ≠ ""
  | Some _ => False
  end.

(** An edge end that does not name a member of [Object.prototype]. *)
Definition plainKey (k : string) : Prop := Js.inherited k = false.

Definition plainEnds (e : Edge.t) : Prop :=
  plainKey (Edge.source e) ∧ plainKey (Edge.target e).

(** ** Hops *)

(** An edge is a first-hop edge of [s] when [s] is one of its endpoints. *)
Definition firstHop (s : string) (e : Edge.t) : Prop :=
  Edge.source e = s ∨ Edge.target e = s.

(** The test of the second loop on an edge, for the first-hop set [first]. *)
Definition secondHop (s : string) (first : gset string) (e : Edge.t) : Prop :=
  (Edge.source e ∈ first ∨ Edge.target e ∈ first) ∧ isDirect s e = false.

(** ** Rectangles *)

Section GeometryVocabulary.

Local Open Scope Q_scope.

(** The sides of a measured node. *)
Definition leftOf (n : InternalNode) : Q := pos_x (positionAbsolute n).
Definition rightOf (n : InternalNode) : Q := leftOf n + measured_width n.
Definition topOf (n : InternalNode) : Q := pos_y (positionAbsolute n).
Definition bottomOf (n : InternalNode) : Q := topOf n + measured_height n.

(** On the left or the right side. *)
Definition onVerticalEdge (n : InternalNode) (p : Position) : Prop :=
  (pos_x p == leftOf n \/ pos_x p == rightOf n) /\
  topOf n <= pos_y p /\ pos_y p <= bottomOf n.

(** On the top or the bottom side. *)
Definition onHorizontalEdge (n : InternalNode) (p : Position) : Prop :=
  (pos_y p == topOf n \/ pos_y p == bottomOf n) /\
  leftOf n <= pos_x p /\ pos_x p <= rightOf n.

Definition onBoundary (n : InternalNode) (p : Position) : Prop :=
  onVerticalEdge n p \/ onHorizontalEdge n p.

(** [p] is the centre of [a] moved by [t] times the vector to the centre of
    [b]. *)
Definition alongCentres (a b : InternalNode) (t : Q) (p : Position) : Prop :=
  pos_x p == centerX a + t * (centerX b - centerX a) /\
  pos_y p == centerY a + t * (centerY b - centerY a).

Definition onSegment (a b : InternalNode) (p : Position) : Prop :=
  exists t, 0 <= t /\ t <= 1 /\ alongCentres a b t p.

Definition onRay (a b : InternalNode) (p : Position) : Prop :=
  exists t, 0 < t /\ alongCentres a b t p.

(** The centre of [b] is strictly inside the rectangle [a]. *)
Definition centreInside (a b : InternalNode) : Prop :=
  Qabs (centerX b - centerX a) < measured_width a / 2 /\
  Qabs (centerY b - centerY a) < measured_height a / 2.

(** The half sizes [w] and [h], the centre-to-centre vector
    [(x1 - x2, y1 - y2)] and its scaled components. *)
Definition halfWidth (n : InternalNode) : Q := measured_width n / 2.
Definition halfHeight (n : InternalNode) : Q := measured_height n / 2.
Definition deltaX (a b : InternalNode) : Q := centerX b - centerX a.
Definition deltaY (a b : InternalNode) : Q := centerY b - centerY a.
Definition scaledX (a b : InternalNode) : Q := deltaX a b / (2 * halfWidth a).
Definition scaledY (a b : InternalNode) : Q := deltaY a b / (2 * halfHeight a).

(** The factor [a] of [getNodeIntersection]: the point is the centre plus
    [a] times the centre-to-centre vector. *)
Definition scaleOf (a b : InternalNode) : Q :=
  1 / (Qabs (scaledX a b - scaledY a b) + Qabs (scaledX a b + scaledY a b)).

(** [xx3] and [yy3]. *)
Definition xx3Of (a b : InternalNode) : Q :=
  scaleOf a b * (scaledX a b - scaledY a b).
Definition yy3Of (a b : InternalNode) : Q :=
  scaleOf a b * (scaledX a b + scaledY a b).

End GeometryVocabulary.

(** ** Layout *)

(** [out] is [l] with new positions: same length, and node by node the same
    but for [position]. *)
Definition repositioned (l out : list Node.t) : Prop :=
  Forall2 (λ n o, ∃ p, o = withPosition n p) l out.

(** The pure grouping step. *)
Definition groupStep (m : gmap string (list Node.t)) (node : Node.t)
  : gmap string (list Node.t) :=
  let type := typeKey node in
  <[type := default [] (m !! type) ++ [node]]> m.

(** The groups of the nodes: under every type key, the nodes of that key in
    the order of the list. *)
Definition groupsOf (nodes : list Node.t) : gmap string (list Node.t) :=
  foldl groupStep ∅ nodes.

(** No node has a type key that names a member of [Object.prototype]. *)
Definition plainTypes (nodes : list Node.t) : Prop :=
  Forall (λ n, Js.inherited (typeKey n) = false) nodes.

(** How the arrays of the groups in the store stand for the groups [m] of
    the pure loop, during and after the grouping; [h0] is the store at the
    call. *)
Record GroupInv (h0 : Store.t) (st : gmap string nat * Store.t)
    (m : gmap string (list Node.t)) : Prop := {
  gi_objects : Store.objects st.2 = Store.objects h0;
  gi_arrays : Store.arrays h0 ⊆ Store.arrays st.2;
  gi_dom : dom st.1 = dom m;
  gi_group : ∀ k a, st.1 !! k = Some a →
    (a ∉ dom (Store.arrays h0)) ∧
    ∃ ls, Store.arrays st.2 !! a = Some ls ∧
          Store.nodesAt (Store.objects h0) ls = m !! k;
  gi_inj : ∀ k1 k2 a, st.1 !! k1 = Some a → st.1 !! k2 = Some a → k1 = k2
}.

(** How the store stands during [types.forEach]: the arrays of the types
    still to come hold their groups, and [out], the array [arrangedNodes],
    holds the new objects of the columns done. *)
Record ColumnInv (h0 : Store.t) (nbt : gmap string nat)
    (m : gmap string (list Node.t)) (out : nat) (remaining : list string)
    (h : Store.t) (acc : list Node.t) : Prop := {
  ci_objects : Store.objects h0 ⊆ Store.objects h;
  ci_arrays : Store.arrays h0 ⊆ Store.arrays h;
  ci_out : ∃ os, Store.arrays h !! out = Some os ∧
                 Store.nodesAt (Store.objects h) os = Some acc ∧
                 Forall (λ o, o ∉ dom (Store.objects h0)) os;
  ci_group : ∀ k, k ∈ remaining →
    ∃ a ls vsk, nbt !! k = Some a ∧ Store.arrays h !! a = Some ls ∧
                Store.nodesAt (Store.objects h0) ls = Some vsk ∧
                m !! k = Some vsk
}.

(** ** Edge ends and what the builders read *)

(** The number of edge ends at [k]. *)
Definition degree (k : string) (E : list Edge.t) : nat :=
  length (filter (λ e, Edge.source e = k) E) +
  length (filter (λ e, Edge.target e = k) E).

(** What the edge builders read of a node. *)
Definition sameGraphData (n n' : Node.t) : Prop :=
  Node.id n = Node.id n' ∧
  NodeData.type (Node.data n) = NodeData.type (Node.data n') ∧
  NodeData.designtechs (Node.data n) = NodeData.designtechs (Node.data n').

(** [{ ...n, data: { ...n.data, size } }] for a number [size]. *)
Definition setSize (size : nat) (n : Node.t) : Node.t :=
  let d := Node.data n in
  Node.mk (Node.id n) (Node.type n)
    (NodeData.mk (NodeData.label d) (NodeData.type d)
       (NodeData.description d) (NodeData.website d)
       (NodeData.designtechs d) (NodeData.color d) (Some (Num size))
       (NodeData.editable d) (NodeData.isDimmed d) (NodeData.opacity d))
    (Node.position n) (Node.hidden n).

(** ** Records and names *)

(** The record has a non-empty [Designtechs] list. *)
Definition hasTechs (item : DataRecord) : bool :=
  match Designtechs item with Some (_ :: _) => true | _ => false end.

(** The names the [Interoperability] cell of the record lists. *)
Definition interopNames (item : DataRecord) : list string :=
  parseInterop (default "" (Interoperability item)).

(** The character occurs in the string. *)
Fixpoint hasChar (c : Ascii.ascii) (s : string) : bool :=
  match s with
  | EmptyString => false
  | String d s' => Ascii.eqb d c || hasChar c s'
  end.

(** White space only. *)
Fixpoint allSpace (s : string) : bool :=
  match s with
  | EmptyString => true
  | String c s' => Js.isSpace c && allSpace s'
  end.

(** The first character, if any, is not white space. *)
Definition startsClean (s : string) : Prop :=
  match s with
  | EmptyString => True
  | String c _ => Js.isSpace c = false
  end.

(** A name as [parseInterop] gives it: not empty, nothing to trim, no
    comma. *)
Definition cleanName (t : string) : Prop :=
  t ≠ "" ∧ Js.trim t = t ∧ hasChar ","%char t = false.

(** ** Around the selected node *)

(** [x] is an end of an edge that has the selected id [s] at an end. *)
Definition nextTo (s : string) (es : list Edge.t) (x : string) : Prop :=
  ∃ e, e ∈ es ∧ firstHop s e ∧ (x = Edge.source e ∨ x = Edge.target e).

(** [x] is an end of an edge whose other end, or [x] itself, is next to
    [s]. *)
Definition twoAway (s : string) (es : list Edge.t) (x : string) : Prop :=
  ∃ e, e ∈ es ∧ (x = Edge.source e ∨ x = Edge.target e) ∧
       (nextTo s es (Edge.source e) ∨ nextTo s es (Edge.target e)).

(** [{ ...e, source: e.target, target: e.source }]: the edge, turned
    round. *)
Definition turned (e : Edge.t) : Edge.t :=
  Edge.mk (Edge.id e) (Edge.target e) (Edge.source e) (Edge.type e) (Edge.data e).

(** ** Doubles and rationals *)

(** The double [f] is finite and is the rational [q]. *)
Definition isRational (f : float) (q : Q) : Prop :=
  ∃ q', Double.value f = Some q' ∧ (q' == q)%Q.

(** No operation of [getNodeIntersection] on the two nodes is rounded. *)
Definition unrounded (a b : Double.InternalNode) : Prop :=
  is_Some (Double.getNodeIntersectionExactly a b).

(** ** Rectangles apart *)

(** The rectangles of the two nodes have no inner point in common: the
    centres are at least the sum of the half sizes apart, across or down. *)
Definition separated (a b : InternalNode) : Prop :=
  (halfWidth a + halfWidth b <= Qabs (deltaX a b))%Q ∨
  (halfHeight a + halfHeight b <= Qabs (deltaY a b))%Q.

(** ** Colours *)

(** The colour [generateColorMap] gives the type that comes [colorIndex]-th
    among those that are not the company type. *)
Definition colorAt (colorIndex : nat) : string :=
  match colorPalette !! colorIndex with
  | Some c => c
  | None =>
      "hsl(" +:+ pretty ((10 + colorIndex * 50) mod 360)%nat +:+ ", 55%, 70%)"
  end.

(** The types of the records that are not the company type, each once, in
    the order of their first record. *)
Definition otherTypes (data : list DataRecord) : list string :=
  filter (λ type, Js.toLowerCase type ≠ "company") (Js.unique (Type_ <$> data)).

(** The body of [types.forEach] in [generateColorMap]. *)
Definition colorStep (acc : gmap string string * nat) (type : string)
  : gmap string string * nat :=
  let '(colorMap, colorIndex) := acc in
  if bool_decide (Js.toLowerCase type = "company")
  then (Obj.set type COMPANY_COLOR colorMap, colorIndex)
  else (Obj.set type (colorAt colorIndex) colorMap, S colorIndex).

(** ** Records of the initial load *)

(** The records the initial load makes nodes of. *)
Definition loaded (rawData : list DataRecord) : list DataRecord :=
  filter (λ item, Js.toLowerCase (Type_ item) ≠ "filformat") rawData.

(** The edges the initial load makes of one record; [names] are the node
    ids. *)
Definition recordEdges (names : gset string) (item : DataRecord)
  : list Edge.t :=
  if bool_decide (Js.toLowerCase (Type_ item) = "company") then
    omap (λ tech,
            if bool_decide (tech ∈ names)
            then Some (floatingEdge (edgeIdOf (Name item) tech) (Name item) tech)
            else None)
         (default [] (Designtechs item))
  else [].

(** ** Columns, rows and the circle *)

(** What the vertical layout returns when it returns: the columns of the
    type keys in ascending order, one after the other. *)
Definition columnsOf (localeCompare : string → string → Z)
    (nodes : list Node.t) (height : Q) : list Node.t :=
  let nodesByType := groupsOf nodes in
  let types := Js.sort Js.defaultCompare (elements (dom nodesByType)) in
  concat (imap (arrangeColumn localeCompare nodesByType height) types).

(** The nodes of one type, in the order of the list. *)
Definition ofType (type : string) (nodes : list Node.t) : list Node.t :=
  filter (λ n, typeKey n = type) nodes.

(** The columns: the types of the nodes, each once, in ascending order. *)
Definition columnTypes (nodes : list Node.t) : list string :=
  Js.sort Js.defaultCompare (elements (dom (groupsOf nodes))).

(** The nodes of one type, in the order of their labels. *)
Definition sortedColumn (localeCompare : string → string → Z)
    (nodes : list Node.t) (type : string) : list Node.t :=
  Js.sort (labelCompare localeCompare) (ofType type nodes).

(** The place of a node the vertical layout has given one. *)
Definition placeOf (o : Node.t) : Position :=
  default (mkPosition 0 0) (Node.position o).

(** The position of [o1] comes before that of [o2], reading the columns
    from left to right and each column from top to bottom. *)
Definition placedBefore (o1 o2 : Node.t) : Prop :=
  match Node.position o1, Node.position o2 with
  | Some p1, Some p2 =>
      (pos_x p1 < pos_x p2)%Q ∨
      ((pos_x p1 == pos_x p2)%Q ∧ (pos_y p1 < pos_y p2)%Q)
  | _, _ => False
  end.

(** The key [arrangeNodes] sorts a node by, when reading it does not
    throw. *)
Definition keyOf (arrangeBy : string) (n : Node.t) : string :=
  default "" (arrangeKey arrangeBy n).

(** * Sample data *)

Definition plainData (lbl : string) (kind : option string) : NodeData.t :=
  NodeData.mk lbl kind None None None None None None None None.

Definition plainNode (i : string) (kind : string) : Node.t :=
  Node.mk i None (plainData i (Some kind)) None None.

Definition usageRecord (n : string) (techs : list string) : DataRecord :=
  mkRecord n "company" (Some techs) None None None.

Definition interopRecord (n : string) (s : string) : DataRecord :=
  mkRecord n "tool" None (Some s) None None.

(** Four tools; [Auto]/[CAD-Plant] and [Auto-CAD]/[Plant] name each other. *)
Definition clashNodes (kind : string) : list Node.t :=
  [plainNode "Auto" kind; plainNode "CAD-Plant" kind;
   plainNode "Auto-CAD" kind; plainNode "Plant" kind].

Definition clashInterop : list DataRecord :=
  [interopRecord "Auto" "CAD-Plant"; interopRecord "CAD-Plant" "Auto";
   interopRecord "Auto-CAD" "Plant"; interopRecord "Plant" "Auto-CAD"].

Definition clashUsage : list DataRecord :=
  [usageRecord "Auto" ["CAD-Plant"]; usageRecord "CAD-Plant" ["Auto"];
   usageRecord "Auto-CAD" ["Plant"]; usageRecord "Plant" ["Auto-CAD"]].

Definition initialSample : list DataRecord :=
  [mkRecord "Zeta" "company" (Some ["Figma"; "Figma"]) None None None;
   mkRecord "Figma" "tool" None None None None].

Definition acmeNodes : list Node.t :=
  [plainNode "Acme" "company"; plainNode "Figma" "tool"].

Definition acmeData : list DataRecord :=
  [usageRecord "Acme" ["Figma"; "Figma"; "Ghost"]].

Definition companyTargetNodes : list Node.t :=
  [plainNode "Figma" "tool"; plainNode "Acme" "company"].

Definition companyTargetData : list DataRecord :=
  [interopRecord "Figma" "Acme"].

Definition spokeEdges : list Edge.t :=
  [floatingEdge "A-Figma" "A" "Figma"; floatingEdge "Figma-B" "Figma" "B";
   floatingEdge "A-C" "A" "C"].

Definition sizedNode (i : string) (size : nat) : Node.t :=
  Node.mk i (Some "custom")
    (NodeData.mk i (Some "tool") None None (Some []) None (Some (Num size))
       None None None)
    None None.

Definition sampleStore : Store.t :=
  Store.mk {[ 10%nat := plainNode "b" "tool"; 11%nat := plainNode "a" "tool";
              12%nat := plainNode "Z" "company" ]}
           {[ 7%nat := [10; 11; 12]%nat ]}.

(** A company and a tool, and the record by which the company uses the
    tool. *)
Definition memberNodes (tool : string) : list Node.t :=
  [plainNode "Acme" "company"; plainNode tool "tool"].

Definition memberData (tool : string) : list DataRecord :=
  [usageRecord "Acme" [tool]].

(** A company that carries its tool list, and the tool. *)
Definition ownToolsNodes : list Node.t :=
  [Node.mk "Acme" None
     (NodeData.mk "Acme" (Some "company") None None (Some ["Figma"]) None
        None None None None)
     None None;
   plainNode "Figma" "tool"].

(** A square in doubles. *)
Definition doubleSquare (side x y : float) : Double.InternalNode :=
  Double.mkInternal side side (Double.mkPosition x y).

(** Two squares side by side, the centres level. *)
Definition leftSquare : InternalNode := mkInternal 8 8 (mkPosition 0 0).
Definition rightSquare : InternalNode := mkInternal 2 2 (mkPosition 20 3).

(** Three tools and a company, the tools not in the order of the lengths
    of their labels. *)
Definition columnNodes : list Node.t :=
  [plainNode "Sketch" "tool"; plainNode "Figma" "tool";
   plainNode "Acme" "company"; plainNode "Ab" "tool"].

(** A comparison by length: a total preorder on strings. *)
Definition byLength (a b : string) : Z :=
  (Z.of_nat (String.length a) - Z.of_nat (String.length b))%Z.

(** * Properties *)

(** ** The sorted-pair id *)

Lemma undirectedId_min_max a b :
  undirectedId a b = edgeIdOf (strMin a b) (strMax a b).
Proof. unfold undirectedId, Js.sortPair, strMin, strMax. by destruct (String.ltb b a). Qed.

Lemma ltb_flip a b : String.ltb b a = true → String.ltb a b = false.
Proof.
  unfold String.ltb. rewrite (String.compare_antisym a b).
  by destruct (String.compare b a).
Qed.

Lemma ltb_total a b :
  String.ltb b a = false → String.ltb a b = false → a = b.
Proof.
  unfold String.ltb. rewrite (String.compare_antisym a b).
  destruct (String.compare b a) eqn:E; simpl; try done.
  intros _ _. symmetry. by apply String.compare_eq_iff.
Qed.

Lemma strMin_comm a b : strMin a b = strMin b a.
Proof.
  unfold strMin. destruct (String.ltb b a) eqn:E1.
  - by rewrite (ltb_flip _ _ E1).
  - destruct (String.ltb a b) eqn:E2; [done|]. by apply ltb_total.
Qed.

Lemma strMax_comm a b : strMax a b = strMax b a.
Proof.
  unfold strMax. destruct (String.ltb b a) eqn:E1.
  - by rewrite (ltb_flip _ _ E1).
  - destruct (String.ltb a b) eqn:E2; [done|]. symmetry. by apply ltb_total.
Qed.

Lemma undirectedId_comm a b : undirectedId a b = undirectedId b a.
Proof. by rewrite !undirectedId_min_max, strMin_comm, strMax_comm. Qed.

Lemma joins_id a b e : canonical e → joins a b e → Edge.id e = undirectedId a b.
Proof.
  unfold canonical. intros -> [[-> ->]|[-> ->]].
  - by rewrite undirectedId_min_max.
  - by rewrite undirectedId_comm, undirectedId_min_max.
Qed.

(** ** Invariant of the builders' loops *)

Section BuildInvariant.

Variable good : Edge.t → Prop.

Lemma BuildInv_init : BuildInv good ([], ∅).
Proof.
  split; simpl.
  - intros x. split; [set_solver|]. intros (e & He & _). by apply elem_of_nil in He.
  - constructor.
  - constructor.
Qed.

Lemma BuildInv_emit src tgt st :
  good (floatingEdge (undirectedId src tgt) src tgt) →
  BuildInv good st → BuildInv good (emit src tgt st).
Proof.
  intros Hg [Hset Hnd Hall]. unfold emit.
  destruct (decide (undirectedId src tgt ∈ st.2)) as [Hin|Hnin]; [by split|].
  split; simpl.
  - intros x. rewrite elem_of_union, elem_of_singleton, Hset. split.
    + intros [->|(e & He & Hid)].
      * eexists. split; [apply elem_of_app; right; apply list_elem_of_singleton; done|done].
      * exists e. split; [apply elem_of_app; by left|done].
    + intros (e & He & Hid). apply elem_of_app in He as [He|He].
      * right. by exists e.
      * apply list_elem_of_singleton in He. subst e. by left.
  - rewrite fmap_app. apply NoDup_app. split; [done|]. split.
    + intros x Hx Hx'. apply list_elem_of_singleton in Hx'. simpl in Hx'. subst x.
      apply Hnin, Hset. apply list_elem_of_fmap in Hx as (e & -> & He). by exists e.
    + apply NoDup_singleton.
  - apply Forall_app. split; [done|]. by constructor.
Qed.

End BuildInvariant.

Lemma emit_grows src tgt st : st.2 ⊆ (emit src tgt st).2.
Proof. unfold emit. case_decide; simpl; set_solver. Qed.

Lemma emit_has src tgt st : undirectedId src tgt ∈ (emit src tgt st).2.
Proof. unfold emit. case_decide; simpl; set_solver. Qed.

(** Folding a step that only adds to [edgeSet]. *)
Section Folds.

Context {A : Type} (step : BuildState → A → BuildState).
Hypothesis step_grows : ∀ st x, st.2 ⊆ (step st x).2.

Lemma foldl_grows l st : st.2 ⊆ (foldl step st l).2.
Proof.
  revert st. induction l as [|x l IH]; intros st; simpl; [done|].
  etrans; [apply (step_grows st x)|apply IH].
Qed.

Lemma foldl_reaches l st x k :
  x ∈ l → (∀ st', k ∈ (step st' x).2) → k ∈ (foldl step st l).2.
Proof.
  intros Hx Hk. revert st. induction l as [|y l IH]; intros st; simpl.
  - by apply elem_of_nil in Hx.
  - apply elem_of_cons in Hx as [->|Hx].
    + apply foldl_grows, Hk.
    + by apply IH.
Qed.

End Folds.

Lemma foldl_preserves {A S : Type} (step : S → A → S) (I : S → Prop)
    (ok : A → Prop) :
  (∀ st x, ok x → I st → I (step st x)) →
  ∀ l st, Forall ok l → I st → I (foldl step st l).
Proof.
  intros Hstep l. induction l as [|x l IH]; intros st Hl Hst; simpl; [done|].
  inversion Hl; subst. apply IH; [done|]. by apply Hstep.
Qed.

(** ** Usage mode *)

Lemma floatingEdge_canonical src tgt :
  canonical (floatingEdge (undirectedId src tgt) src tgt).
Proof. unfold canonical. simpl. apply undirectedId_min_max. Qed.

Section Usage.

Variables (nodes : list Node.t) (rawData : list DataRecord).
Local Abbreviation nodeIds := (nodeIdSet nodes).
Local Abbreviation designMap := (designMapOf rawData).

Lemma companyTech_grows n st tech :
  st.2 ⊆ (companyTech nodeIds n st tech).2.
Proof. unfold companyTech. destruct (_ && _); [apply emit_grows|done]. Qed.

Lemma companyNode_grows st n : st.2 ⊆ (companyNode nodeIds designMap st n).2.
Proof.
  unfold companyNode. destruct (negb _); [done|].
  apply foldl_grows. intros. apply companyTech_grows.
Qed.

Lemma companyTech_inv n st tech :
  n ∈ nodes → isCompany n = true → tech ∈ techsOf designMap n →
  BuildInv (usageGood nodes designMap) st →
  BuildInv (usageGood nodes designMap) (companyTech nodeIds n st tech).
Proof.
  intros Hn Hc Ht Hst. unfold companyTech.
  destruct (bool_decide (tech ∈ nodeIds)) eqn:E1; simpl; [|done].
  destruct (bool_decide (tech = Node.id n)) eqn:E2; simpl; [done|].
  apply bool_decide_eq_true in E1. apply bool_decide_eq_false in E2.
  apply BuildInv_emit; [|done].
  split; [apply floatingEdge_canonical|]. simpl.
  split; [congruence|]. split; [done|]. by exists n.
Qed.

Lemma companyNode_inv st n :
  n ∈ nodes →
  BuildInv (usageGood nodes designMap) st →
  BuildInv (usageGood nodes designMap) (companyNode nodeIds designMap st n).
Proof.
  intros Hn Hst. unfold companyNode.
  destruct (isCompany n) eqn:Hc; simpl; [|done].
  apply (foldl_preserves _ _ (λ t, t ∈ techsOf designMap n)); [|by apply Forall_forall|done].
  intros st' t Ht Hst'. by apply companyTech_inv.
Qed.

Lemma usage_inv :
  BuildInv (usageGood nodes designMap)
    (foldl (companyNode nodeIds designMap) ([], ∅) nodes).
Proof.
  apply (foldl_preserves _ _ (λ n, n ∈ nodes)).
  - intros st n Hn Hst. by apply companyNode_inv.
  - by apply Forall_forall.
  - apply BuildInv_init.
Qed.

Lemma usage_edges_good e :
  e ∈ edges (buildCompanyEdges nodes rawData) → usageGood nodes designMap e.
Proof.
  intros He. destruct usage_inv as [_ _ Hall].
  rewrite Forall_forall in Hall. by apply Hall.
Qed.

Lemma usage_ids_NoDup :
  NoDup (Edge.id <$> edges (buildCompanyEdges nodes rawData)).
Proof. by destruct usage_inv. Qed.

(** A tool a company node lists, present and not the company itself, has
    its edge in the result. *)
Lemma usage_emitted n tech :
  n ∈ nodes → isCompany n = true → tech ∈ techsOf designMap n →
  tech ∈ nodeIds → tech ≠ Node.id n →
  ∃ e, e ∈ edges (buildCompanyEdges nodes rawData) ∧
       Edge.id e = undirectedId (Node.id n) tech.
Proof.
  intros Hn Hc Ht Hin Hne.
  destruct usage_inv as [Hset _ _]. apply Hset.
  apply (foldl_reaches _ companyNode_grows _ _ n); [done|].
  intros st. unfold companyNode. rewrite Hc. simpl.
  apply (foldl_reaches _ (companyTech_grows n) _ _ tech); [done|].
  intros st'. unfold companyTech.
  rewrite (bool_decide_eq_true_2 _ Hin), (bool_decide_eq_false_2 _ Hne). simpl.
  apply emit_has.
Qed.

End Usage.

(** ** Interoperability mode *)

Section Interop.

Variables (nodes : list Node.t) (rawData : list DataRecord).
Local Abbreviation nodeIds := (nodeIdSet nodes).
Local Abbreviation interopMap := (interopMapOf rawData).

Lemma interopTarget_grows n st target :
  st.2 ⊆ (interopTarget nodeIds n st target).2.
Proof.
  unfold interopTarget. destruct (bool_decide _); [done|].
  destruct (negb _); [done|apply emit_grows].
Qed.

Lemma interopNode_grows st n : st.2 ⊆ (interopNode nodeIds interopMap st n).2.
Proof.
  unfold interopNode. destruct (isCompany n); [done|].
  apply foldl_grows. intros. apply interopTarget_grows.
Qed.

Lemma interopTarget_inv n st target :
  n ∈ nodes → isCompany n = false →
  target ∈ default [] (interopMap !! Node.id n) →
  BuildInv (interopGood nodes interopMap) st →
  BuildInv (interopGood nodes interopMap) (interopTarget nodeIds n st target).
Proof.
  intros Hn Hc Ht Hst. unfold interopTarget.
  destruct (bool_decide (target = Node.id n)) eqn:E1; [done|].
  destruct (bool_decide (target ∈ nodeIds)) eqn:E2; simpl; [|done].
  apply bool_decide_eq_false in E1. apply bool_decide_eq_true in E2.
  apply BuildInv_emit; [|done].
  split; [apply floatingEdge_canonical|]. simpl.
  split; [congruence|]. split; [done|]. by exists n.
Qed.

Lemma interopNode_inv st n :
  n ∈ nodes →
  BuildInv (interopGood nodes interopMap) st →
  BuildInv (interopGood nodes interopMap) (interopNode nodeIds interopMap st n).
Proof.
  intros Hn Hst. unfold interopNode.
  destruct (isCompany n) eqn:Hc; [done|].
  apply (foldl_preserves _ _ (λ t, t ∈ default [] (interopMap !! Node.id n)));
    [|by apply Forall_forall|done].
  intros st' t Ht Hst'. by apply interopTarget_inv.
Qed.

Lemma interop_inv :
  BuildInv (interopGood nodes interopMap)
    (foldl (interopNode nodeIds interopMap) ([], ∅) nodes).
Proof.
  apply (foldl_preserves _ _ (λ n, n ∈ nodes)).
  - intros st n Hn Hst. by apply interopNode_inv.
  - by apply Forall_forall.
  - apply BuildInv_init.
Qed.

Lemma interop_edges_good e :
  e ∈ edges (buildInteroperabilityEdges nodes rawData) →
  interopGood nodes interopMap e.
Proof.
  intros He. destruct interop_inv as [_ _ Hall].
  rewrite Forall_forall in Hall. by apply Hall.
Qed.

Lemma interop_ids_NoDup :
  NoDup (Edge.id <$> edges (buildInteroperabilityEdges nodes rawData)).
Proof. by destruct interop_inv. Qed.

Lemma interop_emitted n target :
  n ∈ nodes → isCompany n = false →
  target ∈ default [] (interopMap !! Node.id n) →
  target ∈ nodeIds → target ≠ Node.id n →
  ∃ e, e ∈ edges (buildInteroperabilityEdges nodes rawData) ∧
       Edge.id e = undirectedId (Node.id n) target.
Proof.
  intros Hn Hc Ht Hin Hne.
  destruct interop_inv as [Hset _ _]. apply Hset.
  apply (foldl_reaches _ interopNode_grows _ _ n); [done|].
  intros st. unfold interopNode. rewrite Hc.
  apply (foldl_reaches _ (interopTarget_grows n) _ _ target); [done|].
  intros st'. unfold interopTarget.
  rewrite (bool_decide_eq_false_2 _ Hne), (bool_decide_eq_true_2 _ Hin). simpl.
  apply emit_has.
Qed.

End Interop.

(** ** Counting edges by key *)

Lemma filter_none {A} (P : A → Prop) `{∀ x, Decision (P x)} (l : list A) :
  (∀ x, x ∈ l → ¬ P x) → filter P l = [].
Proof.
  induction l as [|y l IH]; intros Hl; [done|].
  rewrite filter_cons_False; [|apply Hl; left].
  apply IH. intros x Hx. apply Hl. by right.
Qed.

Lemma key_once {A} (f : A → string) (l : list A) (k : string) :
  NoDup (f <$> l) → (∃ x, x ∈ l ∧ f x = k) →
  length (filter (λ x, f x = k) l) = 1%nat.
Proof.
  induction l as [|y l IH]; intros Hnd (x & Hx & Hk).
  - by apply elem_of_nil in Hx.
  - rewrite fmap_cons in Hnd. apply NoDup_cons in Hnd as [Hy Hnd].
    destruct (decide (f y = k)) as [Hyk|Hyk].
    + rewrite filter_cons_True by done. simpl. f_equal.
      rewrite filter_none; [done|].
      intros z Hz Hzk. apply Hy. rewrite Hyk, <- Hzk.
      apply list_elem_of_fmap. by exists z.
    + rewrite filter_cons_False by done. apply IH; [done|].
      apply elem_of_cons in Hx as [->|Hx]; [done|]. by exists x.
Qed.

Lemma key_at_most_once {A} (f : A → string) (P : A → Prop)
    `{∀ x, Decision (P x)} (l : list A) (k : string) :
  NoDup (f <$> l) → (∀ x, x ∈ l → P x → f x = k) →
  (length (filter P l) ≤ 1)%nat.
Proof.
  induction l as [|y l IH]; intros Hnd Hk; [simpl; lia|].
  rewrite fmap_cons in Hnd. apply NoDup_cons in Hnd as [Hy Hnd].
  destruct (decide (P y)) as [Hp|Hp].
  - rewrite filter_cons_True by done. simpl.
    rewrite filter_none; [simpl; lia|].
    intros z Hz Hpz. apply Hy.
    rewrite (Hk y) by (done || left). rewrite <- (Hk z) by (done || by right).
    apply list_elem_of_fmap. by exists z.
  - rewrite filter_cons_False by done. apply IH; [done|].
    intros x Hx. apply Hk. by right.
Qed.

(** ** Ids without the separator *)

Lemma dash_split a b c d :
  hyphenFree a = true → hyphenFree c = true →
  a +:+ "-" +:+ b = c +:+ "-" +:+ d → a = c ∧ b = d.
Proof.
  revert c. induction a as [|x a IH]; intros [|y c] Ha Hc Heq; simpl in *.
  - by injection Heq.
  - injection Heq as <- _. by rewrite Ascii.eqb_refl in Hc.
  - injection Heq as -> _. by rewrite Ascii.eqb_refl in Ha.
  - injection Heq as -> Heq.
    apply andb_true_iff in Ha as [_ Ha]. apply andb_true_iff in Hc as [_ Hc].
    destruct (IH c Ha Hc Heq) as [-> ->]. done.
Qed.

Lemma edgeIdOf_inj a b c d :
  hyphenFree a = true → hyphenFree c = true →
  edgeIdOf a b = edgeIdOf c d → a = c ∧ b = d.
Proof.
  intros Ha Hc Heq. unfold edgeIdOf in Heq. simpl in Heq.
  injection Heq as Heq. by apply dash_split.
Qed.

Lemma strMin_cases a b : strMin a b = a ∧ strMax a b = b ∨ strMin a b = b ∧ strMax a b = a.
Proof. unfold strMin, strMax. destruct (String.ltb b a); auto. Qed.

Lemma same_sorted_pair_joins a b e :
  strMin (Edge.source e) (Edge.target e) = strMin a b →
  strMax (Edge.source e) (Edge.target e) = strMax a b →
  joins a b e.
Proof.
  intros Hmin Hmax. unfold joins.
  destruct (strMin_cases a b) as [[E1 E2]|[E1 E2]];
    destruct (strMin_cases (Edge.source e) (Edge.target e)) as [[F1 F2]|[F1 F2]];
    rewrite E1, F1 in Hmin; rewrite E2, F2 in Hmax; subst; auto.
Qed.

(** ** One edge per unordered pair *)

Section PairOnce.

Variables (nodes : list Node.t) (rawData : list DataRecord).

(** Usage mode: the edges joining a pair all carry the pair's id, and the
    ids are distinct. *)
Lemma usage_pair_at_most_once a b :
  (length (filter (joins a b) (edges (buildCompanyEdges nodes rawData))) ≤ 1)%nat.
Proof.
  apply (key_at_most_once Edge.id _ _ (undirectedId a b)).
  - apply usage_ids_NoDup.
  - intros e He Hj. apply joins_id; [|done].
    by destruct (usage_edges_good _ _ _ He).
Qed.

Lemma interop_pair_at_most_once a b :
  (length (filter (joins a b)
             (edges (buildInteroperabilityEdges nodes rawData))) ≤ 1)%nat.
Proof.
  apply (key_at_most_once Edge.id _ _ (undirectedId a b)).
  - apply interop_ids_NoDup.
  - intros e He Hj. apply joins_id; [|done].
    by destruct (interop_edges_good _ _ _ He).
Qed.

(** Exactly one emitted edge carries the id of a pair the data relates. *)
Lemma usage_pair_id_once n tech :
  n ∈ nodes → isCompany n = true →
  tech ∈ techsOf (designMapOf rawData) n →
  tech ∈ nodeIdSet nodes → tech ≠ Node.id n →
  length (filter (λ e, Edge.id e = edgeIdOf (strMin (Node.id n) tech)
                                            (strMax (Node.id n) tech))
            (edges (buildCompanyEdges nodes rawData))) = 1%nat.
Proof.
  intros. rewrite <- undirectedId_min_max.
  apply key_once; [apply usage_ids_NoDup|]. by apply usage_emitted.
Qed.

Lemma interop_pair_id_once n target :
  n ∈ nodes → isCompany n = false →
  target ∈ default [] (interopMapOf rawData !! Node.id n) →
  target ∈ nodeIdSet nodes → target ≠ Node.id n →
  length (filter (λ e, Edge.id e = edgeIdOf (strMin (Node.id n) target)
                                            (strMax (Node.id n) target))
            (edges (buildInteroperabilityEdges nodes rawData))) = 1%nat.
Proof.
  intros. rewrite <- undirectedId_min_max.
  apply key_once; [apply interop_ids_NoDup|]. by apply interop_emitted.
Qed.

(** When no node id contains the separator, the id determines the pair,
    and the pair has exactly one edge. *)
Hypothesis ids_hyphenFree : ∀ n, n ∈ nodes → hyphenFree (Node.id n) = true.

Lemma nodeIdSet_hyphenFree x : x ∈ nodeIdSet nodes → hyphenFree x = true.
Proof.
  unfold nodeIdSet. rewrite elem_of_list_to_set, list_elem_of_fmap.
  intros (n & -> & Hn). by apply ids_hyphenFree.
Qed.

Lemma strMin_hyphenFree a b :
  hyphenFree a = true → hyphenFree b = true → hyphenFree (strMin a b) = true.
Proof. unfold strMin. by destruct (String.ltb b a). Qed.

Lemma id_determines_pair a b e :
  canonical e → a ∈ nodeIdSet nodes → b ∈ nodeIdSet nodes →
  Edge.source e ∈ nodeIdSet nodes → Edge.target e ∈ nodeIdSet nodes →
  Edge.id e = undirectedId a b → joins a b e.
Proof.
  intros Hc Ha Hb Hs Ht Hid. unfold canonical in Hc.
  rewrite Hid, undirectedId_min_max in Hc.
  apply edgeIdOf_inj in Hc as [Hmin Hmax];
    [|by apply strMin_hyphenFree; apply nodeIdSet_hyphenFree..].
  by apply same_sorted_pair_joins.
Qed.

Lemma node_in_idSet n : n ∈ nodes → Node.id n ∈ nodeIdSet nodes.
Proof.
  intros Hn. unfold nodeIdSet. rewrite elem_of_list_to_set.
  apply list_elem_of_fmap. by exists n.
Qed.

Lemma usage_pair_exactly_once n tech :
  n ∈ nodes → isCompany n = true →
  tech ∈ techsOf (designMapOf rawData) n →
  tech ∈ nodeIdSet nodes → tech ≠ Node.id n →
  length (filter (joins (Node.id n) tech)
            (edges (buildCompanyEdges nodes rawData))) = 1%nat.
Proof.
  intros Hn Hc Ht Hin Hne.
  pose proof (usage_pair_at_most_once (Node.id n) tech) as Hle.
  destruct (usage_emitted nodes rawData n tech) as (e & He & Hid); try done.
  destruct (usage_edges_good _ _ _ He) as (Hcan & _ & Htgt & m & Hm & Hsrc & _).
  assert (joins (Node.id n) tech e) as Hj.
  { apply id_determines_pair; try done; [by apply node_in_idSet|].
    rewrite <- Hsrc. by apply node_in_idSet. }
  assert (e ∈ filter (joins (Node.id n) tech)
                (edges (buildCompanyEdges nodes rawData))) as Hf.
  { by apply list_elem_of_filter. }
  destruct (filter _ _) as [|? [|]]; simpl in *; [by apply elem_of_nil in Hf|done|lia].
Qed.

Lemma interop_pair_exactly_once n target :
  n ∈ nodes → isCompany n = false →
  target ∈ default [] (interopMapOf rawData !! Node.id n) →
  target ∈ nodeIdSet nodes → target ≠ Node.id n →
  length (filter (joins (Node.id n) target)
            (edges (buildInteroperabilityEdges nodes rawData))) = 1%nat.
Proof.
  intros Hn Hc Ht Hin Hne.
  pose proof (interop_pair_at_most_once (Node.id n) target) as Hle.
  destruct (interop_emitted nodes rawData n target) as (e & He & Hid); try done.
  destruct (interop_edges_good _ _ _ He) as (Hcan & _ & Htgt & m & Hm & Hsrc & _).
  assert (joins (Node.id n) target e) as Hj.
  { apply id_determines_pair; try done; [by apply node_in_idSet|].
    rewrite <- Hsrc. by apply node_in_idSet. }
  assert (e ∈ filter (joins (Node.id n) target)
                (edges (buildInteroperabilityEdges nodes rawData))) as Hf.
  { by apply list_elem_of_filter. }
  destruct (filter _ _) as [|? [|]]; simpl in *; [by apply elem_of_nil in Hf|done|lia].
Qed.

End PairOnce.

(** ** Degree counter *)

Lemma plainKey_proto k : plainKey k → k ≠ "__proto__".
Proof. intros Hk ->. discriminate. Qed.

Lemma get_plain {A} (m : gmap string A) k :
  plainKey k →
  Obj.get m k = match m !! k with Some a => Obj.Own a | None => Obj.Missing end.
Proof.
  intros Hk. unfold Obj.get.
  rewrite bool_decide_eq_false_2 by by apply plainKey_proto.
  by rewrite Hk.
Qed.

Lemma set_plain {A} (m : gmap string A) k a :
  plainKey k → Obj.set k a m = <[k := a]> m.
Proof.
  intros Hk. unfold Obj.set.
  by rewrite bool_decide_eq_false_2 by by apply plainKey_proto.
Qed.

Lemma set_lookup_ne {A} (m : gmap string A) k k' a :
  k ≠ k' → Obj.set k a m !! k' = m !! k'.
Proof.
  intros Hne. unfold Obj.set. destruct (bool_decide _); [done|].
  by rewrite lookup_insert_ne.
Qed.

Lemma sumValues_insert k n (m : gmap string Count) :
  m !! k = None →
  sumValues (<[k := Num n]> m) = (λ s, n + s)%nat <$> sumValues m.
Proof.
  intros Hk. unfold sumValues. rewrite map_fold_insert_L; [done| |done].
  intros j1 j2 [n1| |] [n2| |] [y|] _ _ _; simpl; try done. f_equal. lia.
Qed.

Lemma bump_plain k (m : gmap string Count) :
  plainKey k → allNumbers m →
  allNumbers (bump k m) ∧ sumValues (bump k m) = S <$> sumValues m.
Proof.
  intros Hk Hm. unfold bump. rewrite get_plain, set_plain by done.
  destruct (m !! k) as [c|] eqn:Hc.
  - destruct (Hm k c Hc) as [n ->]. split.
    + intros k' c'. destruct (decide (k = k')) as [<-|Hne].
      * rewrite lookup_insert_eq. intros [= <-]. destruct n; by eexists.
      * rewrite lookup_insert_ne by done. apply Hm.
    + assert (plusOne (orElse (Obj.Own (Num n)) (Num 0)) = Num (n + 1)) as ->
        by by destruct n.
      rewrite <- (insert_delete_eq m k (Num (n + 1))).
      rewrite <- (insert_delete_id m k (Num n) Hc) at 2.
      rewrite !sumValues_insert by apply lookup_delete_eq.
      destruct (sumValues (delete k m)); simpl; [f_equal; lia|done].
  - split.
    + intros k' c'. destruct (decide (k = k')) as [<-|Hne].
      * rewrite lookup_insert_eq. intros [= <-]. by eexists.
      * rewrite lookup_insert_ne by done. apply Hm.
    + simpl. rewrite sumValues_insert by done.
      by destruct (sumValues m).
Qed.

Lemma sumValues_count_from es m :
  Forall plainEnds es → allNumbers m →
  sumValues (foldl (λ m e, bump (Edge.target e) (bump (Edge.source e) m)) m es)
  = (λ s, s + 2 * length es)%nat <$> sumValues m.
Proof.
  intros Hes. revert m.
  induction Hes as [|e es [Hs Ht] _ IH]; intros m Hm; simpl.
  - destruct (sumValues m); simpl; [f_equal; lia|done].
  - destruct (bump_plain _ m Hs Hm) as [Hm1 Hs1].
    destruct (bump_plain _ _ Ht Hm1) as [Hm2 Hs2].
    rewrite IH, Hs2, Hs1 by done.
    destruct (sumValues m); simpl; [f_equal; lia|done].
Qed.

(** Between keys that name no member of [Object.prototype] the counts add
    up to twice the number of edges. *)
Lemma sumValues_countConnections es :
  Forall plainEnds es →
  sumValues (countConnections es) = Some (2 * length es)%nat.
Proof.
  intros Hes. unfold countConnections.
  rewrite sumValues_count_from; [|done|by intros k c ?%lookup_empty_Some].
  unfold sumValues. by rewrite map_fold_empty.
Qed.

(** ** Properties of the edge builders and the degree counter *)

(** *** Separator clash *)

(** The scenario of the specification: one record naming [Sketch] twice and
    [Figma] itself. *)
Lemma interop_scenario :
  edges (buildInteroperabilityEdges
           [plainNode "Figma" "tool"; plainNode "Sketch" "tool"]
           [interopRecord "Figma" "Sketch, Figma, Sketch"])
  = [floatingEdge "e-Figma-Sketch" "Figma" "Sketch"].
Proof. vm_compute. reflexivity. Qed.

(** C1. The pair [Auto-CAD]/[Plant] is related in both directions by the
    data, in either mode, and both of its nodes are present; its id
    [e-Auto-CAD-Plant] is also the id of the pair [Auto]/[CAD-Plant], which is
    emitted first, so the duplicate guard drops the pair's edge: each builder
    returns the single edge from [Auto] to [CAD-Plant] and no edge joining
    [Auto-CAD] and [Plant]. *)
Theorem C1_separator_clash_drops_a_pair :
  ("Plant" ∈ default [] (interopMapOf clashInterop !! "Auto-CAD") ∧
   "Auto-CAD" ∈ default [] (interopMapOf clashInterop !! "Plant") ∧
   "Plant" ∈ default [] (designMapOf clashUsage !! "Auto-CAD") ∧
   "Auto-CAD" ∈ default [] (designMapOf clashUsage !! "Plant")) ∧
  undirectedId "Auto-CAD" "Plant" = undirectedId "Auto" "CAD-Plant" ∧
  edges (buildInteroperabilityEdges (clashNodes "tool") clashInterop)
    = [floatingEdge "e-Auto-CAD-Plant" "Auto" "CAD-Plant"] ∧
  edges (buildCompanyEdges (clashNodes "company") clashUsage)
    = [floatingEdge "e-Auto-CAD-Plant" "Auto" "CAD-Plant"] ∧
  filter (joins "Auto-CAD" "Plant")
    (edges (buildInteroperabilityEdges (clashNodes "tool") clashInterop)) = [] ∧
  filter (joins "Auto-CAD" "Plant")
    (edges (buildCompanyEdges (clashNodes "company") clashUsage)) = [].
Proof.
  split; [|vm_compute; repeat split; reflexivity].
  vm_compute. repeat split; apply list_elem_of_singleton; reflexivity.
Qed.

(** *** Initial load *)

(** The positions play no part in the edges of the initial load. *)
Lemma mapM_imap {A B} (f : A → option B) (g : nat → A → A) (l : list A) :
  (∀ i x, f (g i x) = f x) → mapM f (imap g l) = mapM f l.
Proof.
  revert g. induction l as [|x l IH]; intros g Hg; [done|].
  simpl. rewrite Hg, IH; [done|]. intros i y. apply Hg.
Qed.

Lemma nodeIdSet_imap (g : nat → Node.t → Node.t) (l : list Node.t) :
  (∀ i x, Node.id (g i x) = Node.id x) → nodeIdSet (imap g l) = nodeIdSet l.
Proof.
  intros Hg. unfold nodeIdSet. f_equal.
  revert g Hg. induction l as [|x l IH]; intros g Hg; [done|].
  simpl. rewrite Hg, IH; [done|]. intros i y. apply Hg.
Qed.

Lemma initialElements_edges (Math_cos Math_sin : Q → Q) (Math_PI : Q)
    (localeCompare : string → string → Z) rawData (width height : Q) :
  snd <$> initialElements Math_cos Math_sin Math_PI localeCompare
            rawData width height
  = (let filteredData :=
       filter (λ item, Js.toLowerCase (Type_ item) ≠ "filformat") rawData in
     let nodes : list Node.t :=
       recordNode (generateColorMap filteredData) <$> filteredData in
     Js.sortM (arrangeCompare localeCompare "label") nodes ≫= λ sortedNodes,
       @concat Edge.t <$>
         mapM (initialEdgesOfNode (nodeIdSet sortedNodes)) sortedNodes).
Proof.
  unfold initialElements, arrangeNodes. cbv zeta.
  destruct (Js.sortM _ _) as [sortedNodes|]; [|done].
  cbn [mbind option_bind].
  rewrite nodeIdSet_imap by done. rewrite mapM_imap by done.
  by destruct (mapM _ _).
Qed.

(** C2. On a company [Zeta] that lists the tool [Figma] twice, the initial
    load returns two edges with the same id [e-Zeta-Figma], for any host
    functions and window size: the id is not the id of the sorted pair
    (which is [e-Figma-Zeta]) and the pair has two edges. *)
Theorem C2_initial_load_ids_not_canonical
    (Math_cos Math_sin : Q → Q) (Math_PI : Q)
    (localeCompare : string → string → Z) (width height : Q) :
  ∃ nodes es,
    initialElements Math_cos Math_sin Math_PI localeCompare
      initialSample width height = Some (nodes, es) ∧
    es = [floatingEdge "e-Zeta-Figma" "Zeta" "Figma";
          floatingEdge "e-Zeta-Figma" "Zeta" "Figma"] ∧
    Forall (λ e, ¬ canonical e) es ∧
    ¬ NoDup (Edge.id <$> es) ∧
    length (filter (joins "Figma" "Zeta") es) = 2%nat.
Proof.
  assert (snd <$> initialElements Math_cos Math_sin Math_PI localeCompare
                    initialSample width height
          = Some [floatingEdge "e-Zeta-Figma" "Zeta" "Figma";
                  floatingEdge "e-Zeta-Figma" "Zeta" "Figma"]) as Hes.
  { rewrite initialElements_edges. cbv zeta.
    match goal with
    | |- context [Js.sortM ?c ?l] =>
        let v := eval vm_compute in l in change l with v
    end.
    cbn [Js.sortM Js.insertM mbind option_bind]. unfold arrangeCompare.
    repeat match goal with
           | |- context [arrangeKey ?k ?n] =>
               let v := eval vm_compute in (arrangeKey k n) in
               change (arrangeKey k n) with v
           end.
    cbn [mbind option_bind].
    destruct (localeCompare _ _ <=? 0)%Z; vm_compute; reflexivity. }
  destruct (initialElements _ _ _ _ _ _ _) as [[nodes es]|]; [|discriminate].
  injection Hes as ->. eexists nodes, _. split; [done|]. split; [done|].
  split; [repeat constructor; by vm_compute|].
  split; [|by vm_compute].
  intros Hnd. apply NoDup_cons in Hnd as [Hnd _]. apply Hnd. by left.
Qed.

(** The rebuild functions, unlike the initial load, give every edge the id
    of its sorted endpoints and never two edges to a pair. *)
Lemma rebuilt_edges_canonical nodes rawData e :
  e ∈ edges (buildCompanyEdges nodes rawData) ∨
  e ∈ edges (buildInteroperabilityEdges nodes rawData) →
  canonical e.
Proof.
  intros [He|He].
  - by destruct (usage_edges_good _ _ _ He).
  - by destruct (interop_edges_good _ _ _ He).
Qed.

(** *** Degree consistency *)

(** C3. A node id that names a member of [Object.prototype] is miscounted.
    On the company [Acme] that uses a tool named [__proto__],
    [buildCompanyEdges] returns the one edge between the two and a
    connection count that holds 1 for [Acme] and nothing for [__proto__]:
    the values add up to 1, where twice the number of edges is 2.  With a
    tool named [constructor], the count of the tool is a text, not a
    number, and the values have no sum.  The counting loop alone does the
    same on the one edge. *)
Theorem C3_member_names_are_miscounted :
  (edges (buildCompanyEdges (memberNodes "__proto__") (memberData "__proto__"))
     = [floatingEdge "e-Acme-__proto__" "Acme" "__proto__"] ∧
   connectionCount
     (buildCompanyEdges (memberNodes "__proto__") (memberData "__proto__"))
     = {[ "Acme" := Num 1 ]} ∧
   sumValues
     (connectionCount
        (buildCompanyEdges (memberNodes "__proto__") (memberData "__proto__")))
     = Some 1%nat) ∧
  (edges (buildCompanyEdges (memberNodes "constructor")
                            (memberData "constructor"))
     = [floatingEdge "e-Acme-constructor" "Acme" "constructor"] ∧
   connectionCount
     (buildCompanyEdges (memberNodes "constructor") (memberData "constructor"))
     = {[ "Acme" := Num 1;
          "constructor" := Text "function Object() { [native code] }1" ]} ∧
   sumValues
     (connectionCount
        (buildCompanyEdges (memberNodes "constructor")
                           (memberData "constructor")))
     = None) ∧
  countConnections [floatingEdge "e-Acme-__proto__" "Acme" "__proto__"]
    = {[ "Acme" := Num 1 ]}.
Proof. vm_compute. repeat split; reflexivity. Qed.

(** *** Self and unknown references *)

(** C4. In the specification's scenario [buildCompanyEdges] returns the one
    edge [e-Acme-Figma] and the counts [Acme: 1, Figma: 1]; and in general
    none of its edges is a self-loop, and none has an endpoint [t] that is
    not the id of a node: a tool-list entry that is the company's own name
    or is unknown gives no edge. *)
Theorem C4_self_and_unknown_filtered :
  (edges (buildCompanyEdges acmeNodes acmeData)
     = [floatingEdge "e-Acme-Figma" "Acme" "Figma"] ∧
   connectionCount (buildCompanyEdges acmeNodes acmeData)
     = {[ "Acme" := Num 1; "Figma" := Num 1 ]}) ∧
  ∀ nodes rawData e t,
    e ∈ edges (buildCompanyEdges nodes rawData) →
    Edge.source e ≠ Edge.target e ∧
    (t ∉ nodeIdSet nodes → Edge.source e ≠ t ∧ Edge.target e ≠ t).
Proof.
  split; [split; vm_compute; reflexivity|].
  intros nodes rawData e t He.
  destruct (usage_edges_good _ _ _ He) as (_ & Hne & Htgt & n & Hn & Hsrc & _).
  split; [done|]. intros Ht. split.
  - intros <-. apply Ht. rewrite <- Hsrc. by apply node_in_idSet.
  - intros <-. by apply Ht.
Qed.

Lemma C4_witness :
  Edge.source (floatingEdge "e-Acme-Figma" "Acme" "Figma") ≠ "Ghost" ∧
  Edge.target (floatingEdge "e-Acme-Figma" "Acme" "Figma") ≠ "Ghost".
Proof.
  refine (proj2 (proj2 C4_self_and_unknown_filtered acmeNodes acmeData
                   (floatingEdge "e-Acme-Figma" "Acme" "Figma") "Ghost" _) _).
  - vm_compute. apply list_elem_of_singleton. reflexivity.
  - vm_compute. intros H.
    by repeat (apply elem_of_list_to_set in H
               || apply elem_of_cons in H as [H|H]
               || apply elem_of_nil in H).
Defined.

(** *** Companies as interoperability targets *)

(** C5. A tool whose interoperability field names a company gets an edge to
    that company: on the nodes [Figma] (tool) and [Acme] (company) and the
    record [Figma: "Acme"], [buildInteroperabilityEdges] returns the edge
    from [Figma] to [Acme], whose target node is a company. *)
Theorem C5_company_as_interop_target :
  edges (buildInteroperabilityEdges companyTargetNodes companyTargetData)
    = [floatingEdge "e-Acme-Figma" "Figma" "Acme"] ∧
  ∃ e n,
    e ∈ edges (buildInteroperabilityEdges companyTargetNodes companyTargetData) ∧
    n ∈ companyTargetNodes ∧ Node.id n = Edge.target e ∧ isCompany n = true.
Proof.
  split; [vm_compute; reflexivity|].
  exists (floatingEdge "e-Acme-Figma" "Figma" "Acme"), (plainNode "Acme" "company").
  split; [vm_compute; by left|].
  split; [right; by left|]. split; vm_compute; reflexivity.
Qed.

(** Only the originator is checked: the source of every interoperability
    edge is a node that is not a company. *)
Lemma interop_source_not_company nodes rawData e :
  e ∈ edges (buildInteroperabilityEdges nodes rawData) →
  ∃ n, n ∈ nodes ∧ Node.id n = Edge.source e ∧ isCompany n = false.
Proof.
  intros He.
  destruct (interop_edges_good _ _ _ He) as (_ & _ & _ & n & Hn & Hsrc & Hc & _).
  by exists n.
Qed.

(** ** Neighbourhood expansion *)

Section Expansion.

Variable s : string.

Lemma isDirect_spec e :
  isDirect s e = true ↔ Edge.source e = s ∨ Edge.target e = s.
Proof.
  unfold isDirect. rewrite orb_true_iff, !bool_decide_eq_true. done.
Qed.

Lemma first_nodes_spec es acc x :
  x ∈ (foldl (firstStep s) acc es).1 ↔
  x ∈ acc.1 ∨ ∃ e, e ∈ es ∧ isDirect s e = true ∧
                   (x = Edge.source e ∨ x = Edge.target e).
Proof.
  revert acc. induction es as [|e es IH]; intros acc; simpl.
  - split; [auto|]. intros [?|(e & He & _)]; [done|by apply elem_of_nil in He].
  - rewrite IH. unfold firstStep. destruct (isDirect s e) eqn:Hd; simpl.
    + rewrite !elem_of_union, !elem_of_singleton. split.
      * intros [[->|[->|?]]|(e' & He' & ?)]; eauto 8 using list_elem_of_here.
        right. exists e'. split; [by right|done].
      * intros [?|(e' & [->|He']%elem_of_cons & Hd' & Hx)]; eauto 8.
        destruct Hx as [->| ->]; auto.
    + split.
      * intros [?|(e' & He' & ?)]; auto. right. exists e'. split; [by right|done].
      * intros [?|(e' & [->|He']%elem_of_cons & Hd' & Hx)]; eauto 8. congruence.
Qed.

Lemma first_edges_spec es acc x :
  x ∈ (foldl (firstStep s) acc es).2 ↔
  x ∈ acc.2 ∨ ∃ e, e ∈ es ∧ isDirect s e = true ∧ x = Edge.id e.
Proof.
  revert acc. induction es as [|e es IH]; intros acc; simpl.
  - split; [auto|]. intros [?|(e & He & _)]; [done|by apply elem_of_nil in He].
  - rewrite IH. unfold firstStep. destruct (isDirect s e) eqn:Hd; simpl.
    + rewrite !elem_of_union, !elem_of_singleton. split.
      * intros [[->|?]|(e' & He' & ?)]; eauto 8 using list_elem_of_here.
        right. exists e'. split; [by right|done].
      * intros [?|(e' & [->|He']%elem_of_cons & Hd' & Hx)]; eauto 8.
    + split.
      * intros [?|(e' & He' & ?)]; auto. right. exists e'. split; [by right|done].
      * intros [?|(e' & [->|He']%elem_of_cons & Hd' & Hx)]; eauto 8. congruence.
Qed.

Variable first : gset string.

Lemma secondHop_test e :
  (bool_decide (Edge.source e ∈ first) || bool_decide (Edge.target e ∈ first))
    && negb (isDirect s e) = true ↔ secondHop s first e.
Proof.
  unfold secondHop.
  rewrite andb_true_iff, orb_true_iff, !bool_decide_eq_true, negb_true_iff. done.
Qed.

Lemma second_edges_spec es acc x :
  x ∈ (foldl (secondStep s first) acc es).2 ↔
  x ∈ acc.2 ∨ ∃ e, e ∈ es ∧ secondHop s first e ∧ x = Edge.id e.
Proof.
  revert acc. induction es as [|e es IH]; intros acc; simpl.
  - split; [auto|]. intros [?|(e & He & _)]; [done|by apply elem_of_nil in He].
  - rewrite IH. unfold secondStep.
    destruct (_ && _) eqn:Hd; simpl.
    + apply secondHop_test in Hd.
      rewrite !elem_of_union, !elem_of_singleton. split.
      * intros [[->|?]|(e' & He' & ?)]; eauto 8 using list_elem_of_here.
        right. exists e'. split; [by right|done].
      * intros [?|(e' & [->|He']%elem_of_cons & Hd' & Hx)]; eauto 8.
    + assert (¬ secondHop s first e) as Hn.
      { intros H%secondHop_test. congruence. }
      split.
      * intros [?|(e' & He' & ?)]; auto. right. exists e'. split; [by right|done].
      * intros [?|(e' & [->|He']%elem_of_cons & Hd' & Hx)]; eauto 8. done.
Qed.

Lemma second_new_nodes (src tgt : string) (nodes : gset string) x :
  x ∈ (let nodes1 :=
         if bool_decide (src ∈ first) then nodes else {[src]} ∪ nodes in
       if bool_decide (tgt ∈ first) then nodes1 else {[tgt]} ∪ nodes1)
  ↔ x ∈ nodes ∨ ((x ∉ first) ∧ (x = src ∨ x = tgt)).
Proof.
  simpl. destruct (bool_decide_reflect (src ∈ first));
    destruct (bool_decide_reflect (tgt ∈ first));
    rewrite ?elem_of_union, ?elem_of_singleton; split;
    intuition (subst; auto; done).
Qed.

Lemma second_nodes_spec es acc x :
  x ∈ (foldl (secondStep s first) acc es).1 ↔
  x ∈ acc.1 ∨ ((x ∉ first) ∧
               ∃ e, e ∈ es ∧ secondHop s first e ∧
                    (x = Edge.source e ∨ x = Edge.target e)).
Proof.
  revert acc. induction es as [|e es IH]; intros acc; simpl.
  - split; [auto|]. intros [?|(_ & e & He & _)]; [done|by apply elem_of_nil in He].
  - rewrite IH. unfold secondStep.
    destruct (_ && _) eqn:Hd; cbv zeta; cbn [fst snd].
    + apply secondHop_test in Hd. rewrite second_new_nodes. split.
      * intros [[Hx|(Hx & Hxe)]|(Hx & e' & He' & ?)].
        -- by left.
        -- right. split; [done|]. exists e. split; [by left|done].
        -- right. split; [done|]. exists e'. split; [by right|done].
      * intros [?|(Hx & e' & [->|He']%elem_of_cons & Hd' & Hxe)].
        -- by left; left.
        -- by left; right.
        -- right. split; [done|]. by exists e'.
    + assert (¬ secondHop s first e) as Hn.
      { intros H%secondHop_test. congruence. }
      split.
      * intros [?|(Hx & e' & He' & ?)]; auto.
        right. split; [done|]. exists e'. split; [by right|done].
      * intros [?|(Hx & e' & [->|He']%elem_of_cons & Hd' & Hxe)]; [by left|done|].
        right. split; [done|]. by exists e'.
Qed.

End Expansion.

Lemma truthy_spec s : Js.truthy s = true ↔ s ≠ "".
Proof. destruct s; simpl; split; congruence. Qed.

Lemma neighborhood_selected s es order :
  s ≠ "" →
  neighborhood (Some s) es order =
  let first := foldl (firstStep s) (∅, ∅) es in
  let second := if (order =? 2)%nat
                then foldl (secondStep s first.1) (∅, ∅) es else (∅, ∅) in
  mkNeighborhood first.1 first.2 second.1 second.2.
Proof. intros Hs%truthy_spec. unfold neighborhood. by rewrite Hs. Qed.

Lemma firstOrderNodes_spec s es order x :
  s ≠ "" →
  x ∈ firstOrderNodes (neighborhood (Some s) es order) ↔
  ∃ e, e ∈ es ∧ firstHop s e ∧ (x = Edge.source e ∨ x = Edge.target e).
Proof.
  intros Hs. rewrite neighborhood_selected by done. simpl.
  rewrite first_nodes_spec. simpl. split.
  - intros [Hx|(e & He & Hd%isDirect_spec & Hx)]; [set_solver|by exists e].
  - intros (e & He & Hd%isDirect_spec & Hx). right. by exists e.
Qed.

Lemma firstOrderEdges_spec s es order x :
  s ≠ "" →
  x ∈ firstOrderEdges (neighborhood (Some s) es order) ↔
  ∃ e, e ∈ es ∧ firstHop s e ∧ x = Edge.id e.
Proof.
  intros Hs. rewrite neighborhood_selected by done. simpl.
  rewrite first_edges_spec. simpl. split.
  - intros [Hx|(e & He & Hd%isDirect_spec & Hx)]; [set_solver|by exists e].
  - intros (e & He & Hd%isDirect_spec & Hx). right. by exists e.
Qed.

Lemma not_isDirect s e : isDirect s e = false ↔ ¬ firstHop s e.
Proof.
  unfold firstHop. rewrite <- isDirect_spec. by destruct (isDirect s e).
Qed.

(** C6. With hop limit 2 and an id [s], the first-hop nodes are the ends
    of the edges that have [s] at an end, and the first-hop edge ids are the
    ids of those edges, when [s] is not the empty string, which selects
    nothing.  The second-hop edge ids are exactly the ids of the edges that
    are not first-hop edges and have an endpoint among the first-hop nodes;
    the second-hop nodes are exactly the endpoints of those edges that are
    not first-hop nodes; so no id is in both node sets. *)
Theorem C6_second_hop (s : string) (es : list Edge.t) :
  let nb := neighborhood (Some s) es 2 in
  (∀ x, x ∈ firstOrderNodes nb ↔
        s ≠ "" ∧
        ∃ e, e ∈ es ∧ firstHop s e ∧ (x = Edge.source e ∨ x = Edge.target e)) ∧
  (∀ x, x ∈ firstOrderEdges nb ↔
        s ≠ "" ∧ ∃ e, e ∈ es ∧ firstHop s e ∧ x = Edge.id e) ∧
  (∀ x, x ∈ secondOrderEdges nb ↔
        ∃ e, e ∈ es ∧ Edge.id e = x ∧ ¬ firstHop s e ∧
             (Edge.source e ∈ firstOrderNodes nb ∨
              Edge.target e ∈ firstOrderNodes nb)) ∧
  (∀ x, x ∈ secondOrderNodes nb ↔
        (x ∉ firstOrderNodes nb) ∧
        ∃ e, e ∈ es ∧ ¬ firstHop s e ∧
             (Edge.source e ∈ firstOrderNodes nb ∨
              Edge.target e ∈ firstOrderNodes nb) ∧
             (x = Edge.source e ∨ x = Edge.target e)) ∧
  secondOrderNodes nb ## firstOrderNodes nb.
Proof.
  intros nb. subst nb. destruct (decide (s = "")) as [->|Hs].
  { (* the empty string does not select: the four sets are empty *)
    change (neighborhood (Some "") es 2) with emptyNeighborhood. simpl.
    split; [|split; [|split; [|split]]].
    - intros x. split; [by intros ?%not_elem_of_empty|]. by intros [? _].
    - intros x. split; [by intros ?%not_elem_of_empty|]. by intros [? _].
    - intros x. split; [by intros ?%not_elem_of_empty|].
      by intros (e & _ & _ & _ & [?%not_elem_of_empty|?%not_elem_of_empty]).
    - intros x. split; [by intros ?%not_elem_of_empty|].
      by intros (_ & e & _ & _ & [?%not_elem_of_empty|?%not_elem_of_empty] & _).
    - by intros x ?%not_elem_of_empty. }
  split; [|split].
  { intros x. rewrite firstOrderNodes_spec by done. tauto. }
  { intros x. rewrite firstOrderEdges_spec by done. tauto. }
  rewrite neighborhood_selected by done. simpl.
  set (first := (foldl (firstStep s) (∅, ∅) es).1).
  assert (∀ x, x ∈ (foldl (secondStep s first) (∅, ∅) es).1 ↔
               (x ∉ first) ∧
               ∃ e, e ∈ es ∧ ¬ firstHop s e ∧
                    (Edge.source e ∈ first ∨ Edge.target e ∈ first) ∧
                    (x = Edge.source e ∨ x = Edge.target e)) as Hnodes.
  { intros x. rewrite second_nodes_spec. simpl. split.
    - intros [Hx|(Hx & e & He & [Hc Hd%not_isDirect] & Hxe)]; [set_solver|].
      split; [done|]. by exists e.
    - intros (Hx & e & He & Hd%not_isDirect & Hc & Hxe).
      right. split; [done|]. by exists e. }
  split; [|split; [done|]].
  - intros x. rewrite second_edges_spec. simpl. split.
    + intros [Hx|(e & He & [Hc Hd%not_isDirect] & ->)]; [set_solver|]. by exists e.
    + intros (e & He & <- & Hd%not_isDirect & Hc). right. by exists e.
  - intros x Hx Hx'. apply Hnodes in Hx as [Hx _]. done.
Qed.

(** The scenario of the specification for the expander. *)
Lemma spoke_scenario :
  firstOrderNodes (neighborhood (Some "Figma") spokeEdges 1) = {["Figma"; "A"; "B"]} ∧
  firstOrderEdges (neighborhood (Some "Figma") spokeEdges 1) = {["A-Figma"; "Figma-B"]} ∧
  secondOrderNodes (neighborhood (Some "Figma") spokeEdges 1) = ∅ ∧
  secondOrderNodes (neighborhood (Some "Figma") spokeEdges 2) = {["C"]} ∧
  secondOrderEdges (neighborhood (Some "Figma") spokeEdges 2) = {["A-C"]}.
Proof. repeat split; vm_compute; reflexivity. Qed.

(** ** Rendering weight *)

Lemma styledNodes_lookup nodes es sel order n' :
  n' ∈ styledNodes nodes es sel order ↔
  ∃ n, n ∈ nodes ∧
       n' = styleNode (nodeOpacity sel order (neighborhood sel es order) n) n.
Proof.
  unfold styledNodes. rewrite list_elem_of_fmap.
  split; intros (n & H1 & H2); by exists n.
Qed.

Lemma styledEdges_lookup es sel order e' :
  e' ∈ styledEdges es sel order ↔
  ∃ e, e ∈ es ∧
       e' = styleEdge (edgeOpacity sel order (neighborhood sel es order) e) e.
Proof.
  unfold styledEdges. rewrite list_elem_of_fmap.
  split; intros (e & H1 & H2); by exists e.
Qed.

(** A node in the first-hop set is rendered at opacity 1, whatever the
    second-hop set holds. *)
Lemma first_hop_node_full s es order n :
  s ≠ "" →
  Node.id n ∈ firstOrderNodes (neighborhood (Some s) es order) →
  nodeOpacity (Some s) order (neighborhood (Some s) es order) n = 1%Q.
Proof.
  intros Hs%truthy_spec Hn. unfold nodeOpacity, isSelected.
  by rewrite Hs, bool_decide_eq_true_2.
Qed.

(** C7, the failing case. A selected node without an incident edge is not
    in the first-hop set, which is empty, and is rendered at opacity 1/10. *)
Lemma C7_isolated_selection_is_dimmed :
  firstOrderNodes (neighborhood (Some "Acme") [] 1) = ∅ ∧
  ("Acme" ∉ firstOrderNodes (neighborhood (Some "Acme") [] 1)) ∧
  renderedNodeOpacity <$>
    styledNodes [plainNode "Acme" "company"] [] (Some "Acme") 1 = [1 # 10].
Proof. split; [|split]; vm_compute; [reflexivity| |reflexivity]. set_solver. Qed.

(** C7, amended. For a selected id [s] that is not empty and is an endpoint
    of some edge, the first-hop node set holds [s] and both endpoints of
    every edge incident to [s], and every node with id [s] is rendered at
    opacity 1 and not dimmed; more generally every node in the first-hop set
    is, whether or not it is also in the second-hop set. *)
Theorem C7_selected_with_an_edge_is_first_hop
    (s : string) (nodes : list Node.t) (es : list Edge.t) (order : nat) :
  s ≠ "" →
  (∃ e, e ∈ es ∧ firstHop s e) →
  let nb := neighborhood (Some s) es order in
  s ∈ firstOrderNodes nb ∧
  (∀ e, e ∈ es → firstHop s e →
        Edge.source e ∈ firstOrderNodes nb ∧ Edge.target e ∈ firstOrderNodes nb) ∧
  (∀ n, n ∈ nodes → Node.id n ∈ firstOrderNodes nb →
        nodeOpacity (Some s) order nb n = 1%Q) ∧
  (∀ n', n' ∈ styledNodes nodes es (Some s) order → Node.id n' = s →
         renderedNodeOpacity n' = 1%Q ∧
         NodeData.isDimmed (Node.data n') = Some false).
Proof.
  intros Hs (e0 & He0 & Hd0) nb.
  assert (s ∈ firstOrderNodes nb) as Hsel.
  { apply firstOrderNodes_spec; [done|]. exists e0. split; [done|]. split; [done|].
    destruct Hd0 as [<-|<-]; auto. }
  split; [done|]. split; [|split].
  - intros e He Hd. split; (apply firstOrderNodes_spec; [done|]); exists e; auto.
  - intros n _ Hn. by apply first_hop_node_full.
  - intros n' (n & Hn & ->)%styledNodes_lookup Hid. simpl in Hid.
    unfold renderedNodeOpacity, styleNode.
    cbn [Node.data NodeData.opacity NodeData.isDimmed].
    rewrite first_hop_node_full; [done|done|]. by rewrite Hid.
Qed.

Lemma C7_witness :
  "Figma" ∈ firstOrderNodes (neighborhood (Some "Figma") spokeEdges 2).
Proof.
  refine (proj1 (C7_selected_with_an_edge_is_first_hop "Figma"
                   [plainNode "Figma" "tool"] spokeEdges 2 _ _)).
  - discriminate.
  - exists (floatingEdge "A-Figma" "A" "Figma"). split; [by left|by right].
Defined.

(** Without a selection nothing is dimmed. *)
Lemma unselected_neighborhood sel es order :
  isSelected sel = false → neighborhood sel es order = emptyNeighborhood.
Proof.
  destruct sel as [s|]; simpl; [|done]. intros Hs. unfold neighborhood. by rewrite Hs.
Qed.

Lemma unselected_nodes_full sel nodes es order :
  isSelected sel = false →
  Forall (λ n', renderedNodeOpacity n' = 1%Q ∧
                NodeData.isDimmed (Node.data n') = Some false)
         (styledNodes nodes es sel order).
Proof.
  intros Hsel. apply Forall_forall. intros n' (n & Hn & ->)%styledNodes_lookup.
  unfold nodeOpacity. rewrite Hsel. done.
Qed.

Lemma unselected_edges_full sel es order :
  isSelected sel = false →
  Forall (λ e', renderedEdgeOpacity e' = 1%Q ∧
                EdgeData.isDimmed <$> Edge.data e' = Some false)
         (styledEdges es sel order).
Proof.
  intros Hsel. apply Forall_forall. intros e' (e & He & ->)%styledEdges_lookup.
  unfold edgeOpacity. rewrite Hsel. done.
Qed.

(** A selected id that no edge touches has an empty neighbourhood. *)
Lemma untouched_neighborhood s es order :
  (∀ e, e ∈ es → ¬ firstHop s e) →
  neighborhood (Some s) es order = emptyNeighborhood.
Proof.
  intros Hno. destruct (decide (s = "")) as [->|Hs]; [done|].
  rewrite neighborhood_selected by done.
  assert (∀ acc, foldl (firstStep s) acc es = acc) as Hfirst.
  { intros acc. induction es as [|e es' IH]; [done|]. simpl.
    unfold firstStep at 2.
    rewrite (proj2 (not_isDirect s e)) by (apply Hno; by left).
    apply IH. intros e' He'. apply Hno. by right. }
  assert (∀ acc, foldl (secondStep s ∅) acc es = acc) as Hsecond.
  { intros acc. clear Hfirst Hno. induction es as [|e es' IH]; [done|]. simpl.
    unfold secondStep at 2.
    rewrite !bool_decide_eq_false_2 by set_solver. simpl. apply IH. }
  simpl. rewrite Hfirst. simpl. destruct (order =? 2)%nat; [|done].
  by rewrite Hsecond.
Qed.




(** ** Geometry resolver *)

Section Geometry.

Local Open Scope Q_scope.
Lemma Qabs_cases (x : Q) :
  (0 <= x /\ Qabs x == x) \/ (x <= 0 /\ Qabs x == - x).
Proof.
  destruct (Qlt_le_dec x 0) as [H|H].
  - right. split; [lra|]. apply Qabs_neg. lra.
  - left. split; [done|]. now apply Qabs_pos.
Qed.

(** The normalised vector: [p1 = a * xx1] and [p2 = a * yy1]. *)
Lemma normalised (u v : Q) :
  ~ (u == 0 /\ v == 0) ->
  let a := 1 / (Qabs (u - v) + Qabs (u + v)) in
  0 < a /\ Qabs (a * (u - v)) + Qabs (a * (u + v)) == 1.
Proof.
  intros Huv a.
  assert (0 < Qabs (u - v) + Qabs (u + v)) as HS.
  { destruct (Qabs_cases (u - v)) as [[? ->]|[? ->]],
             (Qabs_cases (u + v)) as [[? ->]|[? ->]];
      match goal with |- 0 < ?s => destruct (Qlt_le_dec 0 s) as [|Hle] end;
      try done; exfalso; apply Huv; split; lra. }
  assert (0 < a) as Ha by (subst a; apply Qlt_shift_div_l; lra).
  split; [done|].
  rewrite !Qabs_Qmult, (Qabs_pos a) by lra.
  subst a. field. lra.
Qed.

Lemma unit_diamond_boundary (hw hh p1 p2 : Q) :
  0 < hw -> 0 < hh -> Qabs p1 + Qabs p2 == 1 ->
  let X := hw * (p1 + p2) in
  let Y := hh * (- p1 + p2) in
  ((X == hw \/ X == - hw) /\ - hh <= Y <= hh) \/
  ((Y == hh \/ Y == - hh) /\ - hw <= X <= hw).
Proof.
  intros Hw Hh Hsum X Y. subst X Y.
  destruct (Qabs_cases p1) as [[? E1]|[? E1]],
           (Qabs_cases p2) as [[? E2]|[? E2]];
    rewrite E1, E2 in Hsum; clear E1 E2.
  - left. split; [left|split]; nra.
  - right. split; [right|split]; nra.
  - right. split; [left|split]; nra.
  - left. split; [right|split]; nra.
Qed.

Lemma unit_diamond_bound (p1 p2 : Q) :
  Qabs p1 + Qabs p2 == 1 -> Qabs (p1 + p2) <= 1 /\ Qabs (p2 - p1) <= 1.
Proof.
  intros Hsum.
  destruct (Qabs_cases p1) as [[? E1]|[? E1]],
           (Qabs_cases p2) as [[? E2]|[? E2]];
    rewrite E1, E2 in Hsum; clear E1 E2;
    split; apply Qabs_Qle_condition; lra.
Qed.

Lemma unit_diamond_side (p1 p2 : Q) :
  Qabs p1 + Qabs p2 == 1 ->
  (Qabs (p2 - p1) < Qabs (p1 + p2) -> p1 + p2 == 1 \/ p1 + p2 == - 1) /\
  (Qabs (p1 + p2) <= Qabs (p2 - p1) -> - p1 + p2 == 1 \/ - p1 + p2 == - 1).
Proof.
  intros Hsum.
  destruct (Qabs_cases p1) as [[? E1]|[? E1]],
           (Qabs_cases p2) as [[? E2]|[? E2]];
    rewrite E1, E2 in Hsum; clear E1 E2;
    destruct (Qabs_cases (p2 - p1)) as [[? ->]|[? ->]],
             (Qabs_cases (p1 + p2)) as [[? ->]|[? ->]];
    split; intros Hlt; lra.
Qed.
Section Intersection.

Variables a b : InternalNode.
Hypothesis width_pos : 0 < measured_width a.
Hypothesis height_pos : 0 < measured_height a.
Hypothesis apart : ~ (centerX a == centerX b /\ centerY a == centerY b).

Local Abbreviation w := (halfWidth a).
Local Abbreviation h := (halfHeight a).
Local Abbreviation dx := (deltaX a b).
Local Abbreviation dy := (deltaY a b).
Local Abbreviation u := (scaledX a b).
Local Abbreviation v := (scaledY a b).
Local Abbreviation p1 := (xx3Of a b).
Local Abbreviation p2 := (yy3Of a b).

Lemma half_width : measured_width a == 2 * w ∧ 0 < w.
Proof.
  unfold halfWidth. split; [field|]. apply Qlt_shift_div_l; lra.
Qed.

Lemma half_height : measured_height a == 2 * h ∧ 0 < h.
Proof.
  unfold halfHeight. split; [field|]. apply Qlt_shift_div_l; lra.
Qed.

Lemma intersection_x :
  pos_x (getNodeIntersection a b) == centerX a + w * (p1 + p2).
Proof.
  unfold xx3Of, yy3Of, scaleOf, scaledX, scaledY, deltaX, deltaY,
    halfWidth, halfHeight.
  unfold getNodeIntersection, centerX, centerY. cbn [pos_x pos_y]. ring.
Qed.

Lemma intersection_y :
  pos_y (getNodeIntersection a b) == centerY a + h * (- p1 + p2).
Proof.
  unfold xx3Of, yy3Of, scaleOf, scaledX, scaledY, deltaX, deltaY,
    halfWidth, halfHeight.
  unfold getNodeIntersection, centerX, centerY. cbn [pos_x pos_y]. ring.
Qed.

Lemma scaled_dx : dx == 2 * w * u.
Proof. destruct half_width. unfold scaledX. field. lra. Qed.

Lemma scaled_dy : dy == 2 * h * v.
Proof. destruct half_height. unfold scaledY. field. lra. Qed.

Lemma scaled_apart : ~ (u == 0 /\ v == 0).
Proof.
  intros [Hu Hv]. apply apart.
  pose proof scaled_dx as Hdx. pose proof scaled_dy as Hdy.
  rewrite Hu in Hdx. rewrite Hv in Hdy. unfold deltaX, deltaY in *. split; lra.
Qed.

Lemma scale_pos : 0 < scaleOf a b.
Proof. apply (normalised u v scaled_apart). Qed.

Lemma diamond : Qabs p1 + Qabs p2 == 1.
Proof. apply (normalised u v scaled_apart). Qed.

Lemma scaled_x : scaleOf a b * dx == w * (p1 + p2).
Proof. rewrite scaled_dx. unfold xx3Of, yy3Of. ring. Qed.

Lemma scaled_y : scaleOf a b * dy == h * (- p1 + p2).
Proof. rewrite scaled_dy. unfold xx3Of, yy3Of. ring. Qed.

Lemma intersection_along :
  alongCentres a b (scaleOf a b) (getNodeIntersection a b).
Proof.
  split; [rewrite intersection_x, <- scaled_x|rewrite intersection_y, <- scaled_y];
    reflexivity.
Qed.

(** The sides, from the centre and the half sizes. *)
Lemma sides :
  leftOf a == centerX a - w ∧ rightOf a == centerX a + w ∧
  topOf a == centerY a - h ∧ bottomOf a == centerY a + h.
Proof.
  destruct half_width as [HW _], half_height as [HH _].
  unfold rightOf, bottomOf, leftOf, topOf, centerX, centerY.
  change (measured_width a / 2) with w. change (measured_height a / 2) with h.
  repeat split; lra.
Qed.

Lemma on_vertical :
  p1 + p2 == 1 \/ p1 + p2 == - 1 →
  onVerticalEdge a (getNodeIntersection a b).
Proof.
  intros Hside. destruct (unit_diamond_bound p1 p2 diamond) as [_ Hy].
  apply Qabs_Qle_condition in Hy.
  destruct sides as (Hl & Hr & Ht & Hb), half_height as [_ Hh].
  unfold onVerticalEdge. rewrite Hl, Hr, Ht, Hb, intersection_x, intersection_y.
  split; [destruct Hside as [Hs|Hs]; [right|left]; rewrite Hs; lra|].
  split; nra.
Qed.

Lemma on_horizontal :
  - p1 + p2 == 1 \/ - p1 + p2 == - 1 →
  onHorizontalEdge a (getNodeIntersection a b).
Proof.
  intros Hside. destruct (unit_diamond_bound p1 p2 diamond) as [Hx _].
  apply Qabs_Qle_condition in Hx.
  destruct sides as (Hl & Hr & Ht & Hb), half_width as [_ Hw].
  unfold onHorizontalEdge. rewrite Hl, Hr, Ht, Hb, intersection_x, intersection_y.
  split; [destruct Hside as [Hs|Hs]; [right|left]; rewrite Hs; lra|].
  split; nra.
Qed.

Lemma intersection_on_boundary : onBoundary a (getNodeIntersection a b).
Proof.
  pose proof diamond as Hsum.
  destruct (Qabs_cases p1) as [[? E1]|[? E1]],
           (Qabs_cases p2) as [[? E2]|[? E2]];
    rewrite E1, E2 in Hsum.
  - left. apply on_vertical. left. lra.
  - right. apply on_horizontal. right. lra.
  - right. apply on_horizontal. left. lra.
  - left. apply on_vertical. right. lra.
Qed.

Lemma Qabs_scaled (k x : Q) : 0 < k → Qabs (k * x) == k * Qabs x.
Proof. intros Hk. by rewrite Qabs_Qmult, (Qabs_pos k) by lra. Qed.

(** The larger scaled component decides the side. *)
Lemma side_by_component :
  (Qabs v < Qabs u → onVerticalEdge a (getNodeIntersection a b)) ∧
  (Qabs u <= Qabs v → onHorizontalEdge a (getNodeIntersection a b)).
Proof.
  pose proof scale_pos as Ha.
  assert (Qabs (p1 + p2) == 2 * (scaleOf a b * Qabs u)) as Hu.
  { rewrite <- !Qabs_scaled by lra. apply Qabs_wd. unfold xx3Of, yy3Of. ring. }
  assert (Qabs (p2 - p1) == 2 * (scaleOf a b * Qabs v)) as Hv.
  { rewrite <- !Qabs_scaled by lra. apply Qabs_wd. unfold xx3Of, yy3Of. ring. }
  destruct (unit_diamond_side p1 p2 diamond) as [Hvert Hhor].
  split; intros Hcmp.
  - apply on_vertical, Hvert. rewrite Hu, Hv. nra.
  - apply on_horizontal, Hhor. rewrite Hu, Hv. nra.
Qed.

(** The factor is at most 1 when the centre of [b] is not strictly inside
    [a]. *)
Lemma scale_le_1 : ¬ centreInside a b → scaleOf a b <= 1.
Proof.
  intros Hout. pose proof scale_pos as Ha.
  destruct half_width as [_ Hw], half_height as [_ Hh].
  destruct (unit_diamond_bound p1 p2 diamond) as [Hx Hy].
  assert (scaleOf a b * Qabs dx == w * Qabs (p1 + p2)) as Hdx.
  { rewrite <- !Qabs_scaled by lra. apply Qabs_wd, scaled_x. }
  assert (scaleOf a b * Qabs dy == h * Qabs (p2 - p1)) as Hdy.
  { rewrite <- !Qabs_scaled by lra. apply Qabs_wd.
    rewrite scaled_y. ring. }
  destruct (Qlt_le_dec (Qabs dx) w) as [Hin1|Hout1].
  - destruct (Qlt_le_dec (Qabs dy) h) as [Hin2|Hout2].
    + exfalso. apply Hout. by split.
    + nra.
  - nra.
Qed.

End Intersection.
(** In exact arithmetic: for a first rectangle of positive width and height
    and centres that do not coincide, the point of the formula is on the
    boundary of the first rectangle and on the ray from its centre through
    the centre of the second; it is on the segment between the two centres
    when the second centre is not strictly inside the first rectangle.  It
    is on the left or right side when the width-scaled component of the
    centre-to-centre vector has the larger magnitude, and on the top or
    bottom side otherwise. *)
Lemma intersection_geometry (a b : InternalNode) :
  0 < measured_width a → 0 < measured_height a →
  ¬ (centerX a == centerX b ∧ centerY a == centerY b) →
  let p := getNodeIntersection a b in
  let sx := (centerX b - centerX a) / measured_width a in
  let sy := (centerY b - centerY a) / measured_height a in
  onBoundary a p ∧
  onRay a b p ∧
  (¬ centreInside a b → onSegment a b p) ∧
  (Qabs sy < Qabs sx → onVerticalEdge a p) ∧
  (Qabs sx <= Qabs sy → onHorizontalEdge a p).
Proof.
  intros Hw Hh Hapart p sx sy.
  split; [by apply intersection_on_boundary|].
  split; [exists (scaleOf a b); split;
            [by apply scale_pos|by apply intersection_along]|].
  split.
  - intros Hout. exists (scaleOf a b).
    split; [apply Qlt_le_weak; by apply scale_pos|].
    split; [by apply scale_le_1|by apply intersection_along].
  - assert (Qabs sx == Qabs ((centerX b - centerX a) / (2 * (measured_width a / 2)))) as Ex.
    { apply Qabs_wd. subst sx. field. lra. }
    assert (Qabs sy == Qabs ((centerY b - centerY a) / (2 * (measured_height a / 2)))) as Ey.
    { apply Qabs_wd. subst sy. field. lra. }
    rewrite Ex, Ey. by apply side_by_component.
Qed.

End Geometry.

(** ** Geometry resolver on doubles *)

Lemma exactly2_Some opF opQ a b r :
  Double.exactly2 opF opQ a b = Some r →
  r = opF a b ∧
  ∃ qa qb qr, Double.value a = Some qa ∧ Double.value b = Some qb ∧
              Double.value r = Some qr ∧ (qr == opQ qa qb)%Q.
Proof.
  unfold Double.exactly2. cbv zeta.
  destruct (Double.value a) as [qa|]; [|done].
  destruct (Double.value b) as [qb|]; [|done].
  destruct (Double.value (opF a b)) as [qr|] eqn:Hr; [|done].
  cbn [mbind option_bind].
  destruct (Qeq_bool qr (opQ qa qb)) eqn:Hq; [|done].
  intros [= <-]. split; [done|]. exists qa, qb, qr.
  by apply Qeq_bool_iff in Hq.
Qed.

Lemma exactly1_Some opF opQ a r :
  Double.exactly1 opF opQ a = Some r →
  r = opF a ∧
  ∃ qa qr, Double.value a = Some qa ∧ Double.value r = Some qr ∧
           (qr == opQ qa)%Q.
Proof.
  unfold Double.exactly1. cbv zeta.
  destruct (Double.value a) as [qa|]; [|done].
  destruct (Double.value (opF a)) as [qr|] eqn:Hr; [|done].
  cbn [mbind option_bind].
  destruct (Qeq_bool qr (opQ qa)) eqn:Hq; [|done].
  intros [= <-]. split; [done|]. exists qa, qr.
  by apply Qeq_bool_iff in Hq.
Qed.

Lemma isRational_exactly2 opF opQ a b r qa qb :
  Proper (Qeq ==> Qeq ==> Qeq) opQ →
  Double.exactly2 opF opQ a b = Some r →
  isRational a qa → isRational b qb → isRational r (opQ qa qb).
Proof.
  intros Hop (_ & qa' & qb' & qr & Ha & Hb & Hr & Hq)%exactly2_Some
    (qa0 & Ha0 & Ea) (qb0 & Hb0 & Eb).
  exists qr. split; [done|].
  assert (qa' = qa0) as -> by congruence.
  assert (qb' = qb0) as -> by congruence.
  by rewrite Hq, Ea, Eb.
Qed.

Lemma isRational_exactly1 opF opQ a r qa :
  Proper (Qeq ==> Qeq) opQ →
  Double.exactly1 opF opQ a = Some r →
  isRational a qa → isRational r (opQ qa).
Proof.
  intros Hop (_ & qa' & qr & Ha & Hr & Hq)%exactly1_Some (qa0 & Ha0 & Ea).
  exists qr. split; [done|].
  assert (qa' = qa0) as -> by congruence.
  by rewrite Hq, Ea.
Qed.

Lemma isRational_one : isRational 1 1.
Proof. eexists. split; [reflexivity|]. reflexivity. Qed.

Lemma isRational_two : isRational 2 2.
Proof. eexists. split; [reflexivity|]. reflexivity. Qed.

Lemma exact_run_is_the_run a b p :
  Double.getNodeIntersectionExactly a b = Some p →
  p = Double.getNodeIntersection a b.
Proof.
  unfold Double.getNodeIntersectionExactly, Double.getNodeIntersection.
  unfold Double.xadd, Double.xsub, Double.xmul, Double.xdiv, Double.xabs,
    Double.xopp.
  cbv zeta. intros H.
  repeat match goal with
         | H : context [?m ≫= _] |- _ =>
             match m with
             | Double.exactly2 _ _ _ _ => idtac
             | Double.exactly1 _ _ _ => idtac
             end;
             let r := fresh "r" in
             let E := fresh "E" in
             destruct m as [r|] eqn:E;
             [apply exactly2_Some in E as [-> _] || apply exactly1_Some in E as [-> _];
              cbn [mbind option_bind] in *
             |cbn [mbind option_bind] in *; discriminate]
         end.
  by injection H as <-.
Qed.

Lemma internalValue_Some n n' :
  internalValue n = Some n' →
  isRational (Double.measured_width n) (measured_width n') ∧
  isRational (Double.measured_height n) (measured_height n') ∧
  isRational (Double.pos_x (Double.positionAbsolute n))
             (pos_x (positionAbsolute n')) ∧
  isRational (Double.pos_y (Double.positionAbsolute n))
             (pos_y (positionAbsolute n')).
Proof.
  unfold internalValue, positionValue, isRational.
  destruct (Double.value (Double.measured_width n)) as [w|]; [|done].
  destruct (Double.value (Double.measured_height n)) as [h|]; [|done].
  destruct (Double.value (Double.pos_x _)) as [x|]; [|done].
  destruct (Double.value (Double.pos_y _)) as [y|]; [|done].
  cbn [mbind option_bind]. intros [= <-]. cbn.
  repeat split; eexists; (split; [reflexivity|reflexivity]).
Qed.

Ltac rational_step :=
  match goal with
  | E : Double.exactly2 ?opF ?opQ ?a ?b = Some ?r,
    Ha : isRational ?a ?qa, Hb : isRational ?b ?qb |- _ =>
      lazymatch goal with
      | _ : isRational r _ |- _ => fail
      | _ =>
          let H := fresh "R" in
          assert (isRational r (opQ qa qb)) as H
            by (apply (isRational_exactly2 opF opQ a b r qa qb);
                [solve_proper|exact E|exact Ha|exact Hb])
      end
  | E : Double.exactly1 ?opF ?opQ ?a = Some ?r, Ha : isRational ?a ?qa |- _ =>
      lazymatch goal with
      | _ : isRational r _ |- _ => fail
      | _ =>
          let H := fresh "R" in
          assert (isRational r (opQ qa)) as H
            by (apply (isRational_exactly1 opF opQ a r qa);
                [solve_proper|exact E|exact Ha])
      end
  end.

Lemma exact_run_value a b p a' b' :
  Double.getNodeIntersectionExactly a b = Some p →
  internalValue a = Some a' → internalValue b = Some b' →
  ∃ p', positionValue p = Some p' ∧
        (pos_x p' == pos_x (getNodeIntersection a' b'))%Q ∧
        (pos_y p' == pos_y (getNodeIntersection a' b'))%Q.
Proof.
  intros H (Haw & Hah & Hax & Hay)%internalValue_Some
           (Hbw & Hbh & Hbx & Hby)%internalValue_Some.
  pose proof isRational_one as H1. pose proof isRational_two as H2.
  unfold Double.getNodeIntersectionExactly in H.
  unfold Double.xadd, Double.xsub, Double.xmul, Double.xdiv, Double.xabs,
    Double.xopp in H.
  cbv zeta in H.
  repeat match goal with
         | H : context [?m ≫= _] |- _ =>
             match m with
             | Double.exactly2 _ _ _ _ => idtac
             | Double.exactly1 _ _ _ => idtac
             end;
             let r := fresh "r" in
             let E := fresh "E" in
             destruct m as [r|] eqn:E;
             [cbn [mbind option_bind] in *
             |cbn [mbind option_bind] in *; discriminate]
         end.
  injection H as <-.
  repeat rational_step.
  match goal with
  | Hx : isRational ?x ?qx, Hy : isRational ?y ?qy
    |- context [Double.mkPosition ?x ?y] =>
      destruct Hx as (x' & Vx & Ex), Hy as (y' & Vy & Ey);
      exists (mkPosition x' y'); split;
      [unfold positionValue; cbn [Double.pos_x Double.pos_y];
       rewrite Vx, Vy; reflexivity
      |split; [exact Ex|exact Ey]]
  end.
Qed.

Section Doubles.

Local Open Scope Q_scope.

Lemma moved_point (a b : InternalNode) (p q : Position) :
  pos_x p == pos_x q → pos_y p == pos_y q →
  (onVerticalEdge a p → onVerticalEdge a q) ∧
  (onHorizontalEdge a p → onHorizontalEdge a q) ∧
  (onBoundary a p → onBoundary a q) ∧
  (onRay a b p → onRay a b q) ∧
  (onSegment a b p → onSegment a b q).
Proof.
  intros Hx Hy.
  assert (onVerticalEdge a p → onVerticalEdge a q) as Hv.
  { unfold onVerticalEdge. by rewrite Hx, Hy. }
  assert (onHorizontalEdge a p → onHorizontalEdge a q) as Hh.
  { unfold onHorizontalEdge. by rewrite Hx, Hy. }
  split; [done|]. split; [done|]. split; [|split].
  - intros [H|H]; [left; by apply Hv|right; by apply Hh].
  - intros (t & Ht & Hpx & Hpy). exists t. split; [done|].
    split; [by rewrite <- Hx|by rewrite <- Hy].
  - intros (t & H0 & H1 & Hpx & Hpy). exists t. split; [done|]. split; [done|].
    split; [by rewrite <- Hx|by rewrite <- Hy].
Qed.

End Doubles.





(** ** Layout: the output is the input, reordered and repositioned *)

Lemma imap_repositioned (g : nat → Node.t → Position) (l : list Node.t) :
  repositioned l (imap (λ i n, withPosition n (g i n)) l).
Proof.
  revert g. induction l as [|x l IH]; intros g; simpl; constructor.
  - by eexists.
  - apply (IH (λ i, g (S i))).
Qed.

Lemma insertM_Permutation {A} (cmp : A → A → option Z) x l l' :
  Js.insertM cmp x l = Some l' → l' ≡ₚ x :: l.
Proof.
  revert l'. induction l as [|y l IH]; intros l' H; simpl in H.
  - by injection H as <-.
  - destruct (cmp x y) as [c|]; [|done]. simpl in H.
    destruct (c <=? 0)%Z; [by injection H as <-|].
    destruct (Js.insertM cmp x l) as [r|]; [|done]. injection H as <-.
    rewrite (IH r eq_refl). apply Permutation_swap.
Qed.

Lemma sortM_Permutation {A} (cmp : A → A → option Z) l l' :
  Js.sortM cmp l = Some l' → l' ≡ₚ l.
Proof.
  revert l'. induction l as [|x l IH]; intros l' H; simpl in H.
  - by injection H as <-.
  - destruct (Js.sortM cmp l) as [r|]; [|done]. simpl in H.
    rewrite (insertM_Permutation _ _ _ _ H). by rewrite (IH r eq_refl).
Qed.

Lemma insert_Permutation {A} (cmp : A → A → Z) x l :
  Js.insert cmp x l ≡ₚ x :: l.
Proof.
  induction l as [|y l IH]; simpl; [done|].
  destruct (cmp x y <=? 0)%Z; [done|]. rewrite IH. apply Permutation_swap.
Qed.

Lemma sort_Permutation {A} (cmp : A → A → Z) l : Js.sort cmp l ≡ₚ l.
Proof.
  induction l as [|x l IH]; simpl; [done|]. by rewrite insert_Permutation, IH.
Qed.

(** A comparator that never throws makes [sortM] return. *)
Lemma insertM_total {A} (cmp : A → A → option Z) x l :
  (∀ y, y ∈ l → is_Some (cmp x y)) → is_Some (Js.insertM cmp x l).
Proof.
  induction l as [|y l IH]; intros Hc; simpl; [done|].
  destruct (Hc y) as [c ->]; [by left|]. simpl.
  destruct (c <=? 0)%Z; [done|].
  destruct IH as [r ->]; [|done]. intros z Hz. apply Hc. by right.
Qed.

Lemma sortM_total {A} (cmp : A → A → option Z) l :
  (∀ x y, x ∈ l → y ∈ l → is_Some (cmp x y)) → is_Some (Js.sortM cmp l).
Proof.
  induction l as [|x l IH]; intros Hc; simpl; [done|].
  destruct IH as [r Hr]; [intros y z Hy Hz; apply Hc; by right|].
  rewrite Hr. simpl. apply insertM_total.
  intros y Hy. apply Hc; [by left|]. right.
  by rewrite <- (sortM_Permutation _ _ _ Hr).
Qed.

(** The grouping loop keeps every node, once. *)
Lemma groupsOf_from (m : gmap string (list Node.t)) (nodes : list Node.t) :
  concat (map_to_list (foldl groupStep m nodes)).*2
  ≡ₚ concat (map_to_list m).*2 ++ nodes.
Proof.
  revert m. induction nodes as [|x nodes IH]; intros m; simpl.
  - by rewrite app_nil_r.
  - rewrite IH.
    transitivity ((concat (map_to_list m).*2 ++ [x]) ++ nodes);
      [|by rewrite <- app_assoc].
    apply Permutation_app_tail. unfold groupStep. cbv zeta.
    destruct (m !! typeKey x) as [l|] eqn:Hl; simpl.
    + rewrite <- (insert_delete_eq m).
      rewrite <- (insert_delete_id m (typeKey x) l Hl) at 2.
      rewrite !map_to_list_insert by apply lookup_delete_eq.
      simpl. rewrite <- !app_assoc. apply Permutation_app_head.
      apply Permutation_app_comm.
    + rewrite map_to_list_insert by done. simpl.
      apply Permutation_cons_append.
Qed.

Lemma groupsOf_Permutation (nodes : list Node.t) :
  concat (map_to_list (groupsOf nodes)).*2 ≡ₚ nodes.
Proof.
  unfold groupsOf. rewrite groupsOf_from.
  by rewrite map_to_list_empty.
Qed.

(** The grouping loop returns the groups, and returns exactly when no type
    key names a member of [Object.prototype]. *)
Lemma groupByType_from (m : gmap string (list Node.t)) (nodes : list Node.t) :
  (∀ k, is_Some (m !! k) → Js.inherited k = false) →
  match foldlM (λ nodesByType node,
                  let type := typeKey node in
                  match Obj.get nodesByType type with
                  | Obj.Own typeNodes =>
                      Some (<[type := typeNodes ++ [node]]> nodesByType)
                  | Obj.Inherited _ => None
                  | Obj.Missing => Some (<[type := [] ++ [node]]> nodesByType)
                  end) m nodes with
  | Some m' => plainTypes nodes ∧ m' = foldl groupStep m nodes
  | None => ¬ plainTypes nodes
  end.
Proof.
  revert m. induction nodes as [|x nodes IH]; intros m Hm.
  - split; [constructor|done].
  - cbn [foldlM foldl]. cbv zeta.
    destruct (Js.inherited (typeKey x)) eqn:Hx.
    + assert (Obj.get m (typeKey x) = Obj.Inherited (typeKey x)) as ->.
      { unfold Obj.get. destruct (bool_decide _); [done|].
        destruct (m !! typeKey x) as [l|] eqn:Hl; [|by rewrite Hx].
        rewrite Hm in Hx by done. discriminate. }
      cbn. intros HF%Forall_cons_1. destruct HF as [HF _]. congruence.
    + rewrite get_plain by done.
      assert (∀ k, is_Some (groupStep m x !! k) → Js.inherited k = false) as Hm'.
      { intros k. unfold groupStep. cbv zeta.
        destruct (decide (typeKey x = k)) as [<-|Hne]; [done|].
        rewrite lookup_insert_ne by done. apply Hm. }
      specialize (IH (groupStep m x) Hm').
      assert (match m !! typeKey x with
              | Some a => <[typeKey x := a ++ [x]]> m
              | None => <[typeKey x := [] ++ [x]]> m
              end = groupStep m x) as Hg.
      { unfold groupStep. cbv zeta. by destruct (m !! typeKey x). }
      destruct (m !! typeKey x) as [a|]; cbn [mbind option_bind]; rewrite Hg;
        (destruct (foldlM _ _ nodes) as [m'|];
         [destruct IH as [HF ->]; split; [by constructor|done]
         |intros HF%Forall_cons_1; by destruct HF as [_ HF]]).
Qed.

Lemma groupByType_spec (nodes : list Node.t) :
  match groupByType nodes with
  | Some m => plainTypes nodes ∧ m = groupsOf nodes
  | None => ¬ plainTypes nodes
  end.
Proof.
  apply groupByType_from. by intros k [? ?%lookup_empty_Some].
Qed.

Lemma lookup_keys {A} (m : gmap string (list A)) :
  (λ k, default [] (m !! k)) <$> (map_to_list m).*1 = (map_to_list m).*2.
Proof.
  rewrite <- list_fmap_compose. apply Forall_fmap_ext_1, Forall_forall.
  intros [k l] Hkl%elem_of_map_to_list. simpl. by rewrite Hkl.
Qed.

Lemma keys_Permutation {A} (m : gmap string A) :
  elements (dom m) ≡ₚ (map_to_list m).*1.
Proof.
  apply NoDup_Permutation.
  - apply NoDup_elements.
  - apply NoDup_fst_map_to_list.
  - intros k. rewrite elem_of_elements, elem_of_dom, list_elem_of_fmap. split.
    + intros [x Hx]. exists (k, x). split; [done|]. by apply elem_of_map_to_list.
    + intros ([k' x] & -> & Hx%elem_of_map_to_list). by exists x.
Qed.

Lemma concat_repositioned (ls outs : list (list Node.t)) :
  Forall2 repositioned ls outs → repositioned (concat ls) (concat outs).
Proof.
  induction 1; simpl; [constructor|]. by apply Forall2_app.
Qed.

Section LayoutProperties.

Variables (Math_cos Math_sin : Q → Q) (Math_PI : Q).
Variable localeCompare : string → string → Z.

Lemma arrangeNodes_reorders nodes width height arrangeBy radius out :
  arrangeNodes Math_cos Math_sin Math_PI localeCompare
    nodes width height arrangeBy radius = Some out →
  ∃ sortedNodes, sortedNodes ≡ₚ nodes ∧ repositioned sortedNodes out.
Proof.
  unfold arrangeNodes.
  destruct (Js.sortM _ nodes) as [sortedNodes|] eqn:Hs; [|done].
  simpl. intros [= <-]. exists sortedNodes.
  split; [by apply sortM_Permutation in Hs|].
  apply (imap_repositioned (λ i _, circlePosition _ _ _ _ _ _ i)).
Qed.

(** [arrangeNodes] returns when the property it sorts by is a string, or
    is missing, on every node. *)
Lemma arrangeNodes_returns nodes width height arrangeBy radius :
  (∀ n, n ∈ nodes → is_Some (arrangeKey arrangeBy n)) →
  is_Some (arrangeNodes Math_cos Math_sin Math_PI localeCompare
             nodes width height arrangeBy radius).
Proof.
  intros Hk. unfold arrangeNodes.
  destruct (sortM_total (arrangeCompare localeCompare arrangeBy) nodes)
    as [sortedNodes ->]; [|done].
  intros x y Hx Hy. unfold arrangeCompare.
  destruct (Hk x Hx) as [? ->], (Hk y Hy) as [? ->]. done.
Qed.

Lemma arrangeKey_label n : is_Some (arrangeKey "label" n).
Proof. done. Qed.

Lemma arrangeKey_type n : is_Some (arrangeKey "type" n).
Proof.
  unfold arrangeKey, dataProp. simpl.
  by destruct (NodeData.type (Node.data n)).
Qed.

Lemma arrangeColumn_repositioned m height i type :
  repositioned (Js.sort (labelCompare localeCompare) (default [] (m !! type)))
               (arrangeColumn localeCompare m height i type).
Proof.
  unfold arrangeColumn. cbv zeta.
  apply (imap_repositioned (λ rowIndex _, mkPosition _ _)).
Qed.

Lemma arrangeNodesVertically_spec nodes width height :
  match arrangeNodesVertically localeCompare nodes width height with
  | Some out => plainTypes nodes ∧ out = columnsOf localeCompare nodes height
  | None => ¬ plainTypes nodes
  end.
Proof.
  unfold arrangeNodesVertically. pose proof (groupByType_spec nodes) as H.
  destruct (groupByType nodes) as [m|]; [|done].
  by destruct H as [HF ->].
Qed.

Lemma columnsOf_reorders nodes height :
  ∃ sortedNodes,
    sortedNodes ≡ₚ nodes ∧
    repositioned sortedNodes (columnsOf localeCompare nodes height).
Proof.
  unfold columnsOf. cbv zeta.
  set (m := groupsOf nodes).
  set (types := Js.sort Js.defaultCompare (elements (dom m))).
  exists (concat ((λ type, Js.sort (labelCompare localeCompare)
                             (default [] (m !! type))) <$> types)).
  split.
  - transitivity (concat ((λ type, default [] (m !! type)) <$> types)).
    + clear. induction types as [|t types IH]; simpl; [done|].
      by rewrite sort_Permutation, IH.
    + subst types. rewrite sort_Permutation, keys_Permutation, lookup_keys.
      apply groupsOf_Permutation.
  - apply concat_repositioned.
    assert (∀ i t, repositioned
                     (Js.sort (labelCompare localeCompare) (default [] (m !! t)))
                     (arrangeColumn localeCompare m height i t)) as Hcol
      by (intros; apply arrangeColumn_repositioned).
    revert Hcol. generalize (arrangeColumn localeCompare m height).
    clear. induction types as [|t types IH]; intros g Hg; simpl; constructor.
    + apply Hg.
    + apply IH. intros i t'. apply Hg.
Qed.

End LayoutProperties.

(** ** Layout on the store *)

Lemma extends_refl h : Store.extends h h.
Proof. by split. Qed.

Lemma extends_trans h1 h2 h3 :
  Store.extends h1 h2 → Store.extends h2 h3 → Store.extends h1 h3.
Proof. intros [? ?] [? ?]. split; by etrans. Qed.

Lemma fresh_object h : fresh (dom (Store.objects h)) ∉ dom (Store.objects h).
Proof. apply is_fresh. Qed.

Lemma fresh_array h : fresh (dom (Store.arrays h)) ∉ dom (Store.arrays h).
Proof. apply is_fresh. Qed.

Lemma newObject_extends n h : Store.extends h (Store.newObject n h).2.
Proof.
  split; simpl; [|done].
  apply insert_subseteq, not_elem_of_dom, fresh_object.
Qed.

Lemma newArray_extends ls h : Store.extends h (Store.newArray ls h).2.
Proof.
  split; simpl; [done|].
  apply insert_subseteq, not_elem_of_dom, fresh_array.
Qed.

(** Writing an array that [h0] does not have keeps [h0] as it is. *)
Lemma setArray_extends h0 h a ls :
  a ∉ dom (Store.arrays h0) → Store.extends h0 h →
  Store.extends h0 (Store.setArray a ls h).
Proof.
  intros Ha [Ho Harr]. split; simpl; [done|].
  apply map_subseteq_spec. intros i x Hi.
  rewrite lookup_insert_ne; [by eapply lookup_weaken|].
  intros ->. apply Ha, elem_of_dom. by exists x.
Qed.

Lemma nodesAt_weaken objs objs' ls vs :
  objs ⊆ objs' → Store.nodesAt objs ls = Some vs →
  Store.nodesAt objs' ls = Some vs.
Proof.
  intros Hsub. unfold Store.nodesAt. revert vs.
  induction ls as [|l ls IH]; intros vs H; simpl in *; [done|].
  destruct (objs !! l) as [v|] eqn:Hl; [|done]. simpl in H.
  rewrite (lookup_weaken _ _ _ _ Hl Hsub). simpl.
  destruct (mapM _ ls) as [r|]; [|done]. by rewrite (IH r eq_refl).
Qed.

Global Arguments Store.nodesAt : simpl never.

Lemma nodesAt_cons objs l ls :
  Store.nodesAt objs (l :: ls) =
  v ← objs !! l; vs ← Store.nodesAt objs ls; Some (v :: vs).
Proof. done. Qed.

Lemma nodesAt_app objs ls1 ls2 vs1 vs2 :
  Store.nodesAt objs ls1 = Some vs1 → Store.nodesAt objs ls2 = Some vs2 →
  Store.nodesAt objs (ls1 ++ ls2) = Some (vs1 ++ vs2).
Proof.
  revert vs1. induction ls1 as [|l ls1 IH]; intros vs1 H1 H2.
  - by injection H1 as <-.
  - simpl. rewrite nodesAt_cons in *.
    destruct (objs !! l) as [v|]; [|done]. simpl in *.
    destruct (Store.nodesAt objs ls1) as [r|] eqn:Hr; [|done]. simpl in H1.
    injection H1 as <-. by rewrite (IH r eq_refl H2).
Qed.

Lemma nodesAt_Permutation objs ls ls' :
  ls ≡ₚ ls' → is_Some (Store.nodesAt objs ls) →
  is_Some (Store.nodesAt objs ls').
Proof.
  unfold Store.nodesAt. rewrite !mapM_is_Some. by intros ->.
Qed.

(** Sorting references by a comparator on the objects is sorting the
    objects. *)
Lemma insertM_at objs cmp l ls v vs :
  objs !! l = Some v → Store.nodesAt objs ls = Some vs →
  Js.insertM (compareAt objs cmp) l ls ≫= Store.nodesAt objs
  = Js.insertM cmp v vs.
Proof.
  intros Hl. revert vs. induction ls as [|l' ls IH]; intros vs Hls.
  - injection Hls as <-. simpl. rewrite nodesAt_cons, Hl. done.
  - rewrite nodesAt_cons in Hls.
    destruct (objs !! l') as [v'|] eqn:Hl'; [|done]. simpl in Hls.
    destruct (Store.nodesAt objs ls) as [vs'|] eqn:Hvs'; [|done].
    injection Hls as <-. simpl.
    assert (compareAt objs cmp l l' = cmp v v') as ->
      by (unfold compareAt; by rewrite Hl, Hl').
    destruct (cmp v v') as [c|]; [|done]. simpl.
    destruct (c <=? 0)%Z.
    + simpl. rewrite !nodesAt_cons, Hl, Hl', Hvs'. done.
    + rewrite <- (IH vs' eq_refl).
      destruct (Js.insertM (compareAt objs cmp) l ls) as [r|]; [|done].
      simpl. rewrite nodesAt_cons, Hl'. done.
Qed.

Lemma sortM_at objs cmp ls vs :
  Store.nodesAt objs ls = Some vs →
  Js.sortM (compareAt objs cmp) ls ≫= Store.nodesAt objs = Js.sortM cmp vs.
Proof.
  revert vs. induction ls as [|l ls IH]; intros vs Hls.
  - by injection Hls as <-.
  - rewrite nodesAt_cons in Hls.
    destruct (objs !! l) as [v|] eqn:Hl; [|done]. simpl in Hls.
    destruct (Store.nodesAt objs ls) as [vs'|] eqn:Hvs'; [|done].
    injection Hls as <-. simpl. rewrite <- (IH vs' eq_refl).
    destruct (Js.sortM (compareAt objs cmp) ls) as [r|] eqn:Hr; [|done]. simpl.
    destruct (nodesAt_Permutation objs ls r) as [rv Hrv];
      [symmetry; by eapply sortM_Permutation|by rewrite Hvs'|].
    rewrite Hrv. simpl. by apply insertM_at.
Qed.

Lemma copyWithPositions_cons g i l ls h v :
  Store.objects h !! l = Some v →
  copyWithPositions g i (l :: ls) h =
  r ← copyWithPositions g (S i) ls
         (Store.newObject (withPosition v (g i)) h).2;
  Some (fresh (dom (Store.objects h)) :: r.1, r.2).
Proof. intros Hl. simpl. by rewrite Hl. Qed.

Lemma pushCopies_cons out g i l ls h v cur :
  Store.objects h !! l = Some v → Store.arrays h !! out = Some cur →
  pushCopies out g i (l :: ls) h =
  pushCopies out g (S i) ls
    (Store.setArray out (cur ++ [fresh (dom (Store.objects h))])
       (Store.newObject (withPosition v (g i)) h).2).
Proof. intros Hl Hout. simpl. by rewrite Hl; simpl; rewrite Hout. Qed.

Lemma copyWithPositions_spec g i ls h vs :
  Store.nodesAt (Store.objects h) ls = Some vs →
  ∃ os h',
    copyWithPositions g i ls h = Some (os, h') ∧
    Store.extends h h' ∧ Store.arrays h' = Store.arrays h ∧
    Store.nodesAt (Store.objects h') os
      = Some (imap (λ j n, withPosition n (g (i + j)%nat)) vs) ∧
    Forall (λ o, o ∉ dom (Store.objects h)) os.
Proof.
  revert i h vs. induction ls as [|l ls IH]; intros i h vs Hls.
  - injection Hls as <-. exists [], h. repeat split; done || constructor.
  - rewrite nodesAt_cons in Hls.
    destruct (Store.objects h !! l) as [v|] eqn:Hl; [|done]. simpl in Hls.
    destruct (Store.nodesAt (Store.objects h) ls) as [vs'|] eqn:Hvs'; [|done].
    injection Hls as <-.
    pose proof (newObject_extends (withPosition v (g i)) h) as Hext.
    set (h1 := (Store.newObject (withPosition v (g i)) h).2) in *.
    destruct (IH (S i) h1 vs') as (os & h' & Hrun & Hext' & Harr & Hos & Hfresh).
    { eapply nodesAt_weaken; [apply Hext|done]. }
    exists (fresh (dom (Store.objects h)) :: os), h'.
    split; [rewrite (copyWithPositions_cons _ _ _ _ _ v Hl); fold h1;
            by rewrite Hrun|].
    split; [by eapply extends_trans|]. split; [by rewrite Harr|]. split.
    + rewrite nodesAt_cons.
      rewrite (lookup_weaken (Store.objects h1) _ _ (withPosition v (g i)));
        [|apply lookup_insert_eq|apply Hext'].
      simpl. rewrite Hos. simpl. f_equal. f_equal.
      * by rewrite Nat.add_0_r.
      * apply imap_ext. intros j n _. simpl. by rewrite Nat.add_succ_r.
    + constructor; [apply fresh_object|].
      eapply Forall_impl; [exact Hfresh|]. intros o Ho Ho'. apply Ho.
      eapply subseteq_dom; [apply Hext|done].
Qed.

Lemma pushCopies_spec out g i ls h vs cur :
  Store.nodesAt (Store.objects h) ls = Some vs →
  Store.arrays h !! out = Some cur →
  ∃ os h',
    pushCopies out g i ls h = Some h' ∧
    Store.objects h ⊆ Store.objects h' ∧
    Store.arrays h' = <[out := cur ++ os]> (Store.arrays h) ∧
    Store.nodesAt (Store.objects h') os
      = Some (imap (λ j n, withPosition n (g (i + j)%nat)) vs) ∧
    Forall (λ o, o ∉ dom (Store.objects h)) os.
Proof.
  revert i h vs cur. induction ls as [|l ls IH]; intros i h vs cur Hls Hout.
  - injection Hls as <-. exists [], h. split; [done|]. split; [done|].
    split; [by rewrite app_nil_r, insert_id|]. split; [done|constructor].
  - rewrite nodesAt_cons in Hls.
    destruct (Store.objects h !! l) as [v|] eqn:Hl; [|done]. simpl in Hls.
    destruct (Store.nodesAt (Store.objects h) ls) as [vs'|] eqn:Hvs'; [|done].
    injection Hls as <-.
    pose proof (newObject_extends (withPosition v (g i)) h) as [Hext _].
    set (o := fresh (dom (Store.objects h))).
    set (h1 := Store.setArray out (cur ++ [o])
                 (Store.newObject (withPosition v (g i)) h).2).
    destruct (IH (S i) h1 vs' (cur ++ [o]))
      as (os & h' & Hrun & Hobj & Harr & Hos & Hfresh).
    { eapply nodesAt_weaken; [apply Hext|done]. }
    { apply lookup_insert_eq. }
    exists (o :: os), h'.
    split; [rewrite (pushCopies_cons _ _ _ _ _ _ v cur Hl Hout); exact Hrun|].
    split; [by etrans|]. split.
    { rewrite Harr. simpl. rewrite insert_insert_eq. by rewrite <- app_assoc. }
    split.
    + rewrite nodesAt_cons.
      rewrite (lookup_weaken (Store.objects h1) _ _ (withPosition v (g i)));
        [|apply lookup_insert_eq|apply Hobj].
      simpl. rewrite Hos. simpl. f_equal. f_equal.
      * by rewrite Nat.add_0_r.
      * apply imap_ext. intros j n _. simpl. by rewrite Nat.add_succ_r.
    + constructor; [apply fresh_object|].
      eapply Forall_impl; [exact Hfresh|]. intros o' Ho Ho'. apply Ho.
      eapply subseteq_dom; [apply Hext|done].
Qed.

Section LayoutOnStore.

Variables (Math_cos Math_sin : Q → Q) (Math_PI : Q).
Variable localeCompare : string → string → Z.

(** [arrangeNodesRef] computes what [arrangeNodes] computes on the objects
    of the input array, in new objects and a new array, and leaves the store
    it was given as it is; it throws when [arrangeNodes] does. *)
Lemma arrangeNodesRef_spec h nodes elems vs width height arrangeBy radius :
  Store.arrays h !! nodes = Some elems →
  Store.nodesAt (Store.objects h) elems = Some vs →
  match arrangeNodes Math_cos Math_sin Math_PI localeCompare
          vs width height arrangeBy radius with
  | Some outs =>
      ∃ r h' os,
        arrangeNodesRef Math_cos Math_sin Math_PI localeCompare
          h nodes width height arrangeBy radius = Some (r, h') ∧
        Store.extends h h' ∧
        (r ∉ dom (Store.arrays h)) ∧
        Store.arrays h' !! r = Some os ∧
        Store.nodesAt (Store.objects h') os = Some outs ∧
        Forall (λ o, o ∉ dom (Store.objects h)) os
  | None =>
      arrangeNodesRef Math_cos Math_sin Math_PI localeCompare
        h nodes width height arrangeBy radius = None
  end.
Proof.
  intros Helems Hvs. unfold arrangeNodes, arrangeNodesRef. cbv zeta.
  rewrite Helems. cbn [mbind option_bind Store.newArray].
  set (c := fresh (dom (Store.arrays h))).
  cbn [Store.arrays Store.objects]. rewrite lookup_insert_eq.
  cbn [mbind option_bind].
  pose proof (sortM_at (Store.objects h)
                (arrangeCompare localeCompare arrangeBy) elems vs Hvs) as Hsort.
  destruct (Js.sortM (arrangeCompare localeCompare arrangeBy) vs)
    as [svs|] eqn:Hsvs.
  - destruct (Js.sortM (compareAt _ _) elems) as [sorted|] eqn:Hsorted; [|done].
    simpl in Hsort. cbn [mbind option_bind Store.setArray Store.arrays Store.objects].
    rewrite lookup_insert_eq. cbn [mbind option_bind].
    match goal with
    | |- context [copyWithPositions ?g 0 sorted ?hh] =>
        set (h2 := hh);
        destruct (copyWithPositions_spec g 0 sorted h2 svs Hsort)
          as (os & h3 & Hrun & Hext & Harr & Hos & Hfresh)
    end.
    rewrite Hrun. cbn [mbind option_bind fst snd].
    exists (fresh (dom (Store.arrays h3))), (Store.newArray os h3).2, os.
    split; [done|].
    assert (Store.extends h h2) as Hh2.
    { subst h2. split; simpl; [done|].
      rewrite insert_insert_eq. apply insert_subseteq, not_elem_of_dom, fresh_array. }
    split; [eapply extends_trans; [exact Hh2|];
            eapply extends_trans; [exact Hext|apply newArray_extends]|].
    split.
    { assert (dom (Store.arrays h) ⊆ dom (Store.arrays h3)) as Hsub
        by (rewrite Harr; apply subseteq_dom, Hh2).
      intros Hin. apply (fresh_array h3). by apply Hsub. }
    split; [apply lookup_insert_eq|]. split.
    + simpl. rewrite Hos. f_equal.
      assert (length sorted = length svs) as ->; [|done].
      unfold Store.nodesAt in Hsort. by apply length_mapM in Hsort.
    + done.
  - destruct (Js.sortM (compareAt _ _) elems) as [sorted|] eqn:Hsorted; [|done].
    simpl in Hsort. exfalso.
    destruct (nodesAt_Permutation (Store.objects h) elems sorted) as [? Hx];
      [symmetry; by eapply sortM_Permutation|by rewrite Hvs|]. congruence.
Qed.

End LayoutOnStore.

Lemma insertM_Some {A} (cmp : A → A → Z) x l :
  Js.insertM (λ a b, Some (cmp a b)) x l = Some (Js.insert cmp x l).
Proof.
  induction l as [|y l IH]; simpl; [done|].
  destruct (cmp x y <=? 0)%Z; [done|]. by rewrite IH.
Qed.

Lemma sortM_Some {A} (cmp : A → A → Z) l :
  Js.sortM (λ a b, Some (cmp a b)) l = Some (Js.sort cmp l).
Proof.
  induction l as [|x l IH]; simpl; [done|]. rewrite IH. simpl.
  apply insertM_Some.
Qed.

Lemma GroupInv_init h0 : GroupInv h0 (∅, h0) ∅.
Proof.
  split; simpl; [done|done|by rewrite !dom_empty_L|..].
  - intros k a Hk. by rewrite lookup_empty in Hk.
  - intros k1 k2 a Hk. by rewrite lookup_empty in Hk.
Qed.

Lemma groupPush_step h0 st m l v :
  Store.objects h0 !! l = Some v → Js.inherited (typeKey v) = false →
  GroupInv h0 st m →
  ∃ st', groupPush st l = Some st' ∧ GroupInv h0 st' (groupStep m v).
Proof.
  intros Hl Hplain [Hobj Harr Hdom Hgroup Hinj]. destruct st as [nbt h].
  simpl in *.
  unfold groupPush. simpl. rewrite Hobj, Hl. simpl.
  rewrite get_plain by done.
  destruct (nbt !! typeKey v) as [a|] eqn:Hty; simpl.
  - rewrite Hty. simpl.
    destruct (Hgroup _ _ Hty) as (Ha & ls & Hls & Hvs). rewrite Hls. simpl.
    eexists. split; [done|].
    destruct (m !! typeKey v) as [vsk|] eqn:Hm;
      [|by rewrite <- not_elem_of_dom, <- Hdom, not_elem_of_dom, Hty in Hm].
    split; simpl.
    + done.
    + apply (setArray_extends h0 h a (ls ++ [l]) Ha). by split; [rewrite Hobj|].
    + unfold groupStep. rewrite dom_insert_L, Hdom.
      symmetry. apply subseteq_union_1_L, singleton_subseteq_l.
      by apply elem_of_dom_2 in Hm.
    + intros k a' Hk. destruct (Hgroup _ _ Hk) as (Ha' & ls' & Hls' & Hvs').
      split; [done|]. unfold groupStep.
      destruct (decide (k = typeKey v)) as [->|Hne].
      * assert (a' = a) as -> by congruence.
        exists (ls ++ [l]). rewrite !lookup_insert_eq. split; [done|].
        rewrite Hm. simpl. apply nodesAt_app; [by rewrite Hvs|].
        by rewrite nodesAt_cons, Hl.
      * assert (a' ≠ a) as Hne' by (intros ->; apply Hne; by eapply Hinj).
        exists ls'. rewrite lookup_insert_ne by done.
        by rewrite lookup_insert_ne by done.
    + done.
  - rewrite lookup_insert_eq. simpl. rewrite lookup_insert_eq. simpl.
    set (a := fresh (dom (Store.arrays h))).
    assert (a ∉ dom (Store.arrays h)) as Ha by apply fresh_array.
    assert (a ∉ dom (Store.arrays h0)) as Ha0.
    { intros Hin. apply Ha. eapply subseteq_dom; [exact Harr|done]. }
    assert (m !! typeKey v = None) as Hm
      by (by rewrite <- not_elem_of_dom, <- Hdom, not_elem_of_dom).
    assert (∀ k a', nbt !! k = Some a' → a' ≠ a) as Hold.
    { intros k a' Hk ->. destruct (Hgroup _ _ Hk) as (_ & ls' & Hls' & _).
      apply Ha, elem_of_dom. by exists ls'. }
    eexists. split; [done|]. split; simpl.
    + done.
    + rewrite insert_insert_eq. etrans; [exact Harr|].
      by apply insert_subseteq, not_elem_of_dom.
    + unfold groupStep. by rewrite !dom_insert_L, Hdom.
    + intros k a' Hk. unfold groupStep. rewrite insert_insert_eq.
      destruct (decide (k = typeKey v)) as [->|Hne].
      * rewrite lookup_insert_eq in Hk. injection Hk as <-.
        split; [done|]. exists [l]. rewrite !lookup_insert_eq. split; [done|].
        rewrite Hm. simpl. by rewrite nodesAt_cons, Hl.
      * rewrite lookup_insert_ne in Hk by done.
        destruct (Hgroup _ _ Hk) as (Ha' & ls' & Hls' & Hvs').
        split; [done|]. exists ls'.
        rewrite lookup_insert_ne by (apply not_eq_sym; by eapply Hold).
        by rewrite lookup_insert_ne by done.
    + intros k1 k2 a' Hk1 Hk2.
      destruct (decide (k1 = typeKey v)) as [->|Hne1];
        destruct (decide (k2 = typeKey v)) as [->|Hne2]; [done| | |].
      * rewrite lookup_insert_eq in Hk1. injection Hk1 as <-.
        rewrite lookup_insert_ne in Hk2 by done. by destruct (Hold _ _ Hk2).
      * rewrite lookup_insert_eq in Hk2. injection Hk2 as <-.
        rewrite lookup_insert_ne in Hk1 by done. by destruct (Hold _ _ Hk1).
      * rewrite lookup_insert_ne in Hk1, Hk2 by done. by eapply Hinj.
Qed.

Lemma groupPush_fold h0 ls vs st m :
  Store.nodesAt (Store.objects h0) ls = Some vs → plainTypes vs →
  GroupInv h0 st m →
  ∃ st', foldlM groupPush st ls = Some st' ∧
         GroupInv h0 st' (foldl groupStep m vs).
Proof.
  revert vs st m. induction ls as [|l ls IH]; intros vs st m Hls Hplain Hinv.
  - injection Hls as <-. by exists st.
  - rewrite nodesAt_cons in Hls.
    destruct (Store.objects h0 !! l) as [v|] eqn:Hl; [|done]. simpl in Hls.
    destruct (Store.nodesAt (Store.objects h0) ls) as [vs'|] eqn:Hvs'; [|done].
    injection Hls as <-. apply Forall_cons_1 in Hplain as [Hv Hplain].
    destruct (groupPush_step h0 st m l v Hl Hv Hinv) as (st1 & Hst1 & Hinv1).
    destruct (IH vs' st1 (groupStep m v) eq_refl Hplain Hinv1)
      as (st' & Hst' & Hinv').
    exists st'. split; [|done]. simpl. by rewrite Hst1.
Qed.

Section ColumnsOnStore.

Variable localeCompare : string → string → Z.
Variables (h0 : Store.t) (nbt : gmap string nat).
Variables (m : gmap string (list Node.t)) (out : nat) (height : Q).

Hypothesis groups_fresh : ∀ k a, nbt !! k = Some a →
  (a ∉ dom (Store.arrays h0)) ∧ a ≠ out.
Hypothesis groups_inj : ∀ k1 k2 a,
  nbt !! k1 = Some a → nbt !! k2 = Some a → k1 = k2.
Hypothesis out_fresh : out ∉ dom (Store.arrays h0).

Lemma columnPush_step ci t ts h acc :
  NoDup (t :: ts) →
  ColumnInv h0 nbt m out (t :: ts) h acc →
  ∃ h', columnPush localeCompare nbt height out (ci, h) t = Some (S ci, h') ∧
        ColumnInv h0 nbt m out ts h'
          (acc ++ arrangeColumn localeCompare m height ci t).
Proof.
  intros [Ht Hts]%NoDup_cons [Hobj Harr (os & Hout & Hos & Hfresh) Hgroup].
  destruct (Hgroup t) as (a & ls & vsk & Hnbt & Hls & Hvs & Hm); [by left|].
  destruct (groups_fresh _ _ Hnbt) as [Ha0 Haout].
  unfold columnPush. cbn [fst snd]. rewrite Hnbt. cbn [mbind option_bind].
  rewrite Hls. cbn [mbind option_bind].
  pose proof (nodesAt_weaken _ _ _ _ Hobj Hvs) as Hvs'.
  pose proof (sortM_at (Store.objects h)
                (λ x y, Some (labelCompare localeCompare x y)) ls vsk Hvs')
    as Hsort.
  rewrite sortM_Some in Hsort.
  destruct (Js.sortM (compareAt _ _) ls) as [sorted|]; [|done].
  simpl in Hsort. cbn [mbind option_bind Store.setArray Store.arrays].
  rewrite lookup_insert_eq. cbn [mbind option_bind].
  match goal with
  | |- context [pushCopies out ?g 0 sorted ?hh] =>
      set (h1 := hh);
      destruct (pushCopies_spec out g 0 sorted h1 _ os Hsort)
        as (os' & h2 & Hrun & Hobj2 & Harr2 & Hos' & Hfresh')
  end.
  { subst h1. simpl. by rewrite lookup_insert_ne. }
  rewrite Hrun. cbn [mbind option_bind]. exists h2. split; [done|].
  assert (length sorted
          = length (Js.sort (labelCompare localeCompare) vsk)) as Hlen.
  { unfold Store.nodesAt in Hsort. by apply length_mapM in Hsort. }
  split.
  - by etrans.
  - rewrite Harr2. subst h1. simpl.
    apply map_subseteq_spec. intros i x Hi.
    assert (i ≠ out) by (intros ->; apply out_fresh, elem_of_dom; by exists x).
    assert (i ≠ a) by (intros ->; apply Ha0, elem_of_dom; by exists x).
    rewrite !lookup_insert_ne by done. by eapply lookup_weaken.
  - exists (os ++ os'). split; [by rewrite Harr2, lookup_insert_eq|]. split.
    + apply nodesAt_app; [by eapply nodesAt_weaken|].
      rewrite Hos'. f_equal. unfold arrangeColumn. cbv zeta. rewrite Hm. simpl.
      by rewrite Hlen.
    + apply Forall_app. split; [done|].
      eapply Forall_impl; [exact Hfresh'|]. intros o Ho Ho'. apply Ho.
      eapply subseteq_dom; [exact Hobj|done].
  - intros k Hk.
    destruct (Hgroup k) as (a' & ls' & vsk' & Hnbt' & Hls' & Hvs'' & Hm');
      [by right|].
    exists a', ls', vsk'. split; [done|]. split; [|done].
    destruct (groups_fresh _ _ Hnbt') as [_ Haout'].
    assert (a' ≠ a).
    { intros ->. apply Ht. by rewrite (groups_inj _ _ _ Hnbt Hnbt'). }
    rewrite Harr2. subst h1. simpl. by rewrite !lookup_insert_ne.
Qed.

Lemma columnPush_fold ci ts h acc :
  NoDup ts →
  ColumnInv h0 nbt m out ts h acc →
  ∃ r, foldlM (columnPush localeCompare nbt height out) (ci, h) ts = Some r ∧
       ColumnInv h0 nbt m out [] r.2
         (acc ++ concat (imap (λ j, arrangeColumn localeCompare m height
                                      (ci + j)%nat) ts)).
Proof.
  revert ci h acc. induction ts as [|t ts IH]; intros ci h acc Hnd Hinv.
  - exists (ci, h). split; [done|]. simpl. by rewrite app_nil_r.
  - destruct (columnPush_step ci t ts h acc Hnd Hinv) as (h' & Hrun & Hinv').
    apply NoDup_cons in Hnd as [_ Hnd].
    destruct (IH (S ci) h' _ Hnd Hinv') as (r & Hr & Hinvr).
    exists r. split; [simpl; by rewrite Hrun|].
    simpl. rewrite Nat.add_0_r, app_assoc.
    erewrite (imap_ext _ (λ j, arrangeColumn localeCompare m height (S ci + j)%nat));
      [exact Hinvr|].
    intros j x _. simpl. by rewrite Nat.add_succ_r.
Qed.

End ColumnsOnStore.

(** [arrangeNodesVerticallyRef] computes what [arrangeNodesVertically]
    computes on the objects of the input array, in new objects and a new
    array, and leaves the store it was given as it is. *)
Lemma arrangeNodesVerticallyRef_spec
    (localeCompare : string → string → Z) h nodes elems vs width height :
  Store.arrays h !! nodes = Some elems →
  Store.nodesAt (Store.objects h) elems = Some vs →
  plainTypes vs →
  ∃ r h' os,
    arrangeNodesVerticallyRef localeCompare h nodes width height
      = Some (r, h') ∧
    Store.extends h h' ∧
    (r ∉ dom (Store.arrays h)) ∧
    Store.arrays h' !! r = Some os ∧
    Store.nodesAt (Store.objects h') os
      = Some (columnsOf localeCompare vs height) ∧
    Forall (λ o, o ∉ dom (Store.objects h)) os.
Proof.
  intros Helems Hvs Hplain. unfold arrangeNodesVerticallyRef. rewrite Helems.
  cbn [mbind option_bind].
  destruct (groupPush_fold h elems vs (∅, h) ∅ Hvs Hplain (GroupInv_init h))
    as ([nbt h1] & Hst & [Hobj Harr Hdom Hgroup Hinj]).
  rewrite Hst. cbn [mbind option_bind fst snd Store.newArray] in *.
  set (m := foldl groupStep ∅ vs) in *.
  set (out := fresh (dom (Store.arrays h1))).
  set (types := Js.sort Js.defaultCompare (elements (dom nbt))).
  set (h2 := Store.mk _ _).
  assert (out ∉ dom (Store.arrays h1)) as Hout1 by apply fresh_array.
  assert (out ∉ dom (Store.arrays h)) as Hout0.
  { intros Hin. apply Hout1. eapply subseteq_dom; [exact Harr|done]. }
  assert (∀ k a, nbt !! k = Some a →
                 (a ∉ dom (Store.arrays h)) ∧ a ≠ out) as Hfresh.
  { intros k a Hk. destruct (Hgroup _ _ Hk) as (Ha & ls & Hls & _).
    split; [done|]. intros ->. apply Hout1, elem_of_dom. by exists ls. }
  assert (NoDup types) as Hnd.
  { subst types. rewrite sort_Permutation. apply NoDup_elements. }
  assert (ColumnInv h nbt m out types h2 []) as Hinv.
  { split.
    - subst h2. simpl. by rewrite Hobj.
    - subst h2. simpl. etrans; [exact Harr|].
      by apply insert_subseteq, not_elem_of_dom.
    - exists []. split; [apply lookup_insert_eq|]. split; [done|constructor].
    - intros k Hk. subst types. rewrite sort_Permutation in Hk.
      apply elem_of_elements, elem_of_dom in Hk as [a Hk].
      destruct (Hgroup _ _ Hk) as (Ha & ls & Hls & Hm).
      destruct (Hfresh _ _ Hk) as [_ Hne].
      destruct (m !! k) as [vsk|] eqn:Hmk.
      + exists a, ls, vsk. split; [done|]. split; [|done].
        subst h2. simpl. by rewrite lookup_insert_ne.
      + exfalso. apply not_elem_of_dom in Hmk. apply Hmk. rewrite <- Hdom.
        apply elem_of_dom. by exists a. }
  destruct (columnPush_fold localeCompare h nbt m out height
              Hfresh Hinj Hout0 0 types h2 [] Hnd Hinv)
    as (r & Hr & [Hobj' Harr' (os & Hos & Hnodes & Hfr) _]).
  rewrite Hr. cbn [mbind option_bind].
  exists out, r.2, os. split; [done|]. split; [by split|]. split; [done|].
  split; [done|]. split; [|done].
  rewrite Hnodes. f_equal. simpl.
  unfold columnsOf. cbv zeta.
  change (groupsOf vs) with m. rewrite <- Hdom. done.
Qed.

(** *** The layout properties *)

(** C10, the failing cases. Every node of the application has a numeric
    [size]; sorting two such nodes by ["size"] calls [toLowerCase] on a
    number, so [arrangeNodes] throws and returns no list.  It throws as well
    when the nodes are sorted by a name every object inherits, such as
    ["constructor"], which reads as a function; and
    [arrangeNodesVertically] throws on a node whose type is such a name,
    which reads from [nodesByType] as a function that has no [push]. *)
Lemma C10_layouts_throw :
  (arrangeNodes (λ _, 0%Q) (λ _, 0%Q) 3 Js.defaultCompare
     [sizedNode "Figma" 2; sizedNode "Sketch" 1] 800 600 "size" 600 = None ∧
   arrangeNodesRef (λ _, 0%Q) (λ _, 0%Q) 3 Js.defaultCompare
     (Store.mk {[ 1%nat := sizedNode "Figma" 2; 2%nat := sizedNode "Sketch" 1 ]}
               {[ 0%nat := [1; 2]%nat ]})
     0 800 600 "size" 600 = None) ∧
  arrangeNodes (λ _, 0%Q) (λ _, 0%Q) 3 Js.defaultCompare
    [sizedNode "Figma" 2; sizedNode "Sketch" 1] 800 600 "constructor" 600
    = None ∧
  arrangeNodesVertically Js.defaultCompare
    [plainNode "Figma" "tool"; plainNode "Sketch" "constructor"] 800 600
    = None ∧
  arrangeNodesVerticallyRef Js.defaultCompare
    (Store.mk {[ 1%nat := plainNode "Figma" "tool";
                 2%nat := plainNode "Sketch" "constructor" ]}
              {[ 0%nat := [1; 2]%nat ]})
    0 800 600 = None.
Proof. repeat split; vm_compute; reflexivity. Qed.

(** C10, amended. Let [nodes] be the reference of an array whose elements
    are node objects [vs].  [arrangeNodes], when reading the property
    [arrangeBy] gives a string or nothing on every node (as ["label"] and
    ["type"] do), and [arrangeNodesVertically], when no node has a type
    that names a member of [Object.prototype], return a new array of new
    objects [outs] that are the nodes [vs] in some order, each the same but
    for [position]; every object and array of the store at the call is in
    the store at the return, unchanged. *)
Theorem C10_arrange_reorders_and_repositions
    (Math_cos Math_sin : Q → Q) (Math_PI : Q)
    (localeCompare : string → string → Z)
    (h : Store.t) (nodes : nat) (elems : list nat) (vs : list Node.t)
    (width height : Q) (arrangeBy : string) (radius : Q) :
  Store.arrays h !! nodes = Some elems →
  Store.nodesAt (Store.objects h) elems = Some vs →
  ((arrangeBy = "label" ∨ arrangeBy = "type" ∨
    ∀ n, n ∈ vs → is_Some (arrangeKey arrangeBy n)) →
   ∃ r h' os outs sortedNodes,
     arrangeNodesRef Math_cos Math_sin Math_PI localeCompare
       h nodes width height arrangeBy radius = Some (r, h') ∧
     arrangeNodes Math_cos Math_sin Math_PI localeCompare
       vs width height arrangeBy radius = Some outs ∧
     Store.arrays h' !! r = Some os ∧
     Store.nodesAt (Store.objects h') os = Some outs ∧
     sortedNodes ≡ₚ vs ∧ repositioned sortedNodes outs ∧
     Store.extends h h' ∧
     (r ∉ dom (Store.arrays h)) ∧
     Forall (λ o, o ∉ dom (Store.objects h)) os) ∧
  (plainTypes vs →
   ∃ r h' os outs sortedNodes,
     arrangeNodesVerticallyRef localeCompare h nodes width height
       = Some (r, h') ∧
     arrangeNodesVertically localeCompare vs width height = Some outs ∧
     Store.arrays h' !! r = Some os ∧
     Store.nodesAt (Store.objects h') os = Some outs ∧
     sortedNodes ≡ₚ vs ∧ repositioned sortedNodes outs ∧
     Store.extends h h' ∧
     (r ∉ dom (Store.arrays h)) ∧
     Forall (λ o, o ∉ dom (Store.objects h)) os).
Proof.
  intros Helems Hvs. split.
  - intros Hkey.
    assert (∀ n, n ∈ vs → is_Some (arrangeKey arrangeBy n)) as Hkeys.
    { destruct Hkey as [->|[->|Hk]]; [intros n _..|done].
      - apply arrangeKey_label.
      - apply arrangeKey_type. }
    pose proof (arrangeNodesRef_spec Math_cos Math_sin Math_PI localeCompare
                  h nodes elems vs width height arrangeBy radius Helems Hvs)
      as Hspec.
    destruct (arrangeNodes_returns Math_cos Math_sin Math_PI localeCompare
                vs width height arrangeBy radius Hkeys) as [outs Houts].
    rewrite Houts in Hspec.
    destruct Hspec as (r & h' & os & Hrun & Hext & Hr & Hos & Hnodes & Hfresh).
    destruct (arrangeNodes_reorders _ _ _ _ _ _ _ _ _ _ Houts)
      as (sortedNodes & Hperm & Hrep).
    by exists r, h', os, outs, sortedNodes.
  - intros Hplain.
    destruct (arrangeNodesVerticallyRef_spec localeCompare
                h nodes elems vs width height Helems Hvs Hplain)
      as (r & h' & os & Hrun & Hext & Hr & Hos & Hnodes & Hfresh).
    destruct (columnsOf_reorders localeCompare vs height)
      as (sortedNodes & Hperm & Hrep).
    pose proof (arrangeNodesVertically_spec localeCompare vs width height)
      as Hpure.
    destruct (arrangeNodesVertically localeCompare vs width height)
      as [outs|]; [|done].
    destruct Hpure as [_ ->].
    by exists r, h', os, (columnsOf localeCompare vs height), sortedNodes.
Qed.

Lemma C10_witness :
  (∃ r h' os outs sortedNodes,
     arrangeNodesRef (λ _, 0%Q) (λ _, 0%Q) 3 Js.defaultCompare
       sampleStore 7 800 600 "label" 600 = Some (r, h') ∧
     arrangeNodes (λ _, 0%Q) (λ _, 0%Q) 3 Js.defaultCompare
       [plainNode "b" "tool"; plainNode "a" "tool"; plainNode "Z" "company"]
       800 600 "label" 600 = Some outs ∧
     Store.arrays h' !! r = Some os ∧
     Store.nodesAt (Store.objects h') os = Some outs ∧
     sortedNodes ≡ₚ [plainNode "b" "tool"; plainNode "a" "tool";
                     plainNode "Z" "company"] ∧
     repositioned sortedNodes outs ∧
     Store.extends sampleStore h' ∧
     (r ∉ dom (Store.arrays sampleStore)) ∧
     Forall (λ o, o ∉ dom (Store.objects sampleStore)) os) ∧
  (∃ r h' os outs sortedNodes,
     arrangeNodesVerticallyRef Js.defaultCompare sampleStore 7 800 600
       = Some (r, h') ∧
     arrangeNodesVertically Js.defaultCompare
       [plainNode "b" "tool"; plainNode "a" "tool"; plainNode "Z" "company"]
       800 600 = Some outs ∧
     Store.arrays h' !! r = Some os ∧
     Store.nodesAt (Store.objects h') os = Some outs ∧
     sortedNodes ≡ₚ [plainNode "b" "tool"; plainNode "a" "tool";
                     plainNode "Z" "company"] ∧
     repositioned sortedNodes outs ∧
     Store.extends sampleStore h' ∧
     (r ∉ dom (Store.arrays sampleStore)) ∧
     Forall (λ o, o ∉ dom (Store.objects sampleStore)) os).
Proof.
  destruct (C10_arrange_reorders_and_repositions
              (λ _, 0%Q) (λ _, 0%Q) 3 Js.defaultCompare
              sampleStore 7 [10; 11; 12]%nat
              [plainNode "b" "tool"; plainNode "a" "tool";
               plainNode "Z" "company"]
              800 600 "label" 600)
    as [Hcircle Hcolumns].
  - vm_compute. reflexivity.
  - vm_compute. reflexivity.
  - split.
    + apply Hcircle. by left.
    + apply Hcolumns. repeat constructor.
Defined.

(** * Properties of the rest of the code *)

(** ** Connection counts and the rebuild of the edges *)

Lemma bump_lookup_ne k k' (m : gmap string Count) :
  k ≠ k' → bump k m !! k' = m !! k'.
Proof. intros Hne. unfold bump. by apply set_lookup_ne. Qed.

Lemma bump_counted k k' (m : gmap string Count) n :
  plainKey k' → countedAt m k' n →
  countedAt (bump k m) k' (n + if decide (k = k') then 1 else 0).
Proof.
  intros Hk' Hm. unfold countedAt in *.
  destruct (decide (k = k')) as [->|Hne].
  - unfold bump. rewrite get_plain, set_plain, lookup_insert_eq by done.
    rewrite Hm. destruct n as [|n]; simpl; [done|].
    destruct (decide _); [lia|done].
  - rewrite bump_lookup_ne, Nat.add_0_r by done. done.
Qed.

Lemma degree_cons k e E :
  degree k (e :: E) =
  ((if decide (Edge.source e = k) then 1 else 0) +
   (if decide (Edge.target e = k) then 1 else 0) + degree k E)%nat.
Proof.
  unfold degree. rewrite !filter_cons.
  destruct (decide (Edge.source e = k)), (decide (Edge.target e = k));
    simpl; lia.
Qed.

Lemma count_from E (m : gmap string Count) k n :
  plainKey k → countedAt m k n →
  countedAt (foldl (λ m e, bump (Edge.target e) (bump (Edge.source e) m)) m E)
            k (n + degree k E).
Proof.
  intros Hk. revert m n. induction E as [|e E IH]; intros m n Hm; simpl.
  - unfold degree. simpl. by rewrite Nat.add_0_r.
  - rewrite degree_cons.
    pose proof (bump_counted (Edge.source e) k m n Hk Hm) as H1.
    pose proof (bump_counted (Edge.target e) k _ _ Hk H1) as H2.
    apply IH in H2.
    replace (n + ((if decide (Edge.source e = k) then 1 else 0) +
                  (if decide (Edge.target e = k) then 1 else 0) + degree k E))%nat
      with (n + (if decide (Edge.source e = k) then 1 else 0) +
            (if decide (Edge.target e = k) then 1 else 0) + degree k E)%nat
      by lia.
    exact H2.
Qed.

Lemma countConnections_lookup (E : list Edge.t) (k : string) :
  plainKey k →
  countConnections E !! k =
  if decide (degree k E = 0%nat) then None else Some (Num (degree k E)).
Proof.
  intros Hk. apply (count_from E ∅ k 0 Hk). unfold countedAt. simpl.
  apply lookup_empty.
Qed.

Lemma append_not_empty (s t : string) : t ≠ "" → s +:+ t ≠ "".
Proof. destruct s; [done|]. discriminate. Qed.

Lemma bump_text k k' (m : gmap string Count) :
  Js.inherited k' = true → textAt m k' → textAt (bump k m) k'.
Proof.
  intros Hk' Hm. unfold textAt in *.
  destruct (decide (k = k')) as [->|Hne]; [|by rewrite bump_lookup_ne].
  unfold bump, Obj.set, Obj.get.
  destruct (bool_decide (k' = "__proto__")); [done|].
  rewrite lookup_insert_eq.
  destruct (m !! k') as [[n|s|key]|]; [done| |done|].
  - destruct s; [done|]. discriminate.
  - rewrite Hk'. simpl. by apply append_not_empty.
Qed.

Lemma text_from E (m : gmap string Count) k :
  Js.inherited k = true → textAt m k →
  textAt (foldl (λ m e, bump (Edge.target e) (bump (Edge.source e) m)) m E) k.
Proof.
  intros Hk. revert m. induction E as [|e E IH]; intros m Hm; simpl; [done|].
  by apply IH, bump_text, bump_text.
Qed.

Lemma countConnections_member (E : list Edge.t) (k : string) :
  Js.inherited k = true → textAt (countConnections E) k.
Proof.
  intros Hk. apply text_from; [done|]. unfold textAt. by rewrite lookup_empty.
Qed.

(** The connection count of a key that names no member of
    [Object.prototype] is the number of edge ends at it, and a key no edge
    touches is not in the object; at a key that names such a member the
    object never holds a number. *)
Theorem connectionCount_is_degree (E : list Edge.t) (k : string) :
  if Js.inherited k
  then ∀ n, countConnections E !! k ≠ Some (Num n)
  else countConnections E !! k =
       if decide (degree k E = 0%nat) then None else Some (Num (degree k E)).
Proof.
  destruct (Js.inherited k) eqn:Hk.
  - intros n Hn. pose proof (countConnections_member E k Hk) as H.
    unfold textAt in H. by rewrite Hn in H.
  - by apply countConnections_lookup.
Qed.

(** When no end of an edge names a member of [Object.prototype], every
    value of the connection count is a number and the values add up to
    twice the number of edges. *)
Theorem connectionCount_sums_to_twice_the_edges (E : list Edge.t) :
  Forall plainEnds E →
  sumValues (countConnections E) = Some (2 * length E)%nat.
Proof. apply sumValues_countConnections. Qed.

Lemma connectionCount_sums_to_twice_the_edges_witness :
  Forall plainEnds [floatingEdge "e-Acme-Figma" "Acme" "Figma";
                    floatingEdge "e-Acme-Sketch" "Acme" "Sketch"] ∧
  sumValues (countConnections
               [floatingEdge "e-Acme-Figma" "Acme" "Figma";
                floatingEdge "e-Acme-Sketch" "Acme" "Sketch"])
  = Some 4%nat.
Proof.
  assert (Forall plainEnds [floatingEdge "e-Acme-Figma" "Acme" "Figma";
                            floatingEdge "e-Acme-Sketch" "Acme" "Sketch"])
    as Hplain.
  { repeat constructor. }
  split; [exact Hplain|].
  exact (connectionCount_sums_to_twice_the_edges _ Hplain).
Defined.

Lemma withSize_degree E n :
  plainKey (Node.id n) →
  withSize (countConnections E) n = setSize (Nat.max 1 (degree (Node.id n) E)) n.
Proof.
  intros Hk. unfold withSize, setSize. rewrite get_plain by done.
  rewrite countConnections_lookup by done.
  destruct (decide _) as [->|Hpos]; [done|].
  by destruct (degree (Node.id n) E) as [|d].
Qed.

(** After [rebuildEdges] every node of the state whose id names no member
    of [Object.prototype] is the node it was, with its size set to the
    number of ends the new edges have at its id, and to 1 when they have
    none. *)
Theorem rebuildEdges_sizes (mode : string) (currentNodes : list Node.t)
    (rawData : list DataRecord) (prev : list Node.t) :
  let r := rebuildEdges mode currentNodes rawData prev in
  Forall2 (λ n o, plainKey (Node.id n) →
                  o = setSize (Nat.max 1 (degree (Node.id n) r.2)) n)
          prev r.1.
Proof.
  unfold rebuildEdges. simpl. apply Forall2_fmap_r, Forall_Forall2_diag.
  apply Forall_forall. intros n _ Hn.
  destruct (bool_decide (mode = "company")); by apply withSize_degree.
Qed.

Lemma foldl_Forall2 {A B S} (R : A → B → Prop) (f : S → A → S) (g : S → B → S)
    l l' st :
  Forall2 R l l' → (∀ st x y, R x y → f st x = g st y) →
  foldl f st l = foldl g st l'.
Proof.
  intros HF Hfg. revert st. induction HF as [|x y l l' Hxy _ IH]; intros st; [done|].
  simpl. rewrite (Hfg st x y Hxy). apply IH.
Qed.

Lemma foldl_ext_all {A S} (f g : S → A → S) l st :
  (∀ st x, f st x = g st x) → foldl f st l = foldl g st l.
Proof.
  intros H. revert st. induction l as [|x l IH]; intros st; [done|].
  simpl. by rewrite H, IH.
Qed.

Lemma sameGraphData_ids nodes nodes' :
  Forall2 sameGraphData nodes nodes' → nodeIdSet nodes = nodeIdSet nodes'.
Proof.
  intros HF. unfold nodeIdSet. f_equal.
  induction HF as [|x y l l' (Hid & _) _ IH]; [done|].
  rewrite !fmap_cons. by rewrite Hid, IH.
Qed.

Lemma sameGraphData_isCompany n n' : sameGraphData n n' → isCompany n = isCompany n'.
Proof. intros (_ & Hty & _). unfold isCompany. by rewrite Hty. Qed.

Lemma companyNode_same ids dm st n n' :
  sameGraphData n n' → companyNode ids dm st n = companyNode ids dm st n'.
Proof.
  intros Hs. pose proof (sameGraphData_isCompany _ _ Hs) as Hc.
  destruct Hs as (Hid & _ & Hdt). unfold companyNode. rewrite Hc.
  destruct (isCompany n'); simpl; [|done].
  assert (techsOf dm n = techsOf dm n') as ->.
  { unfold techsOf. by rewrite Hdt, Hid. }
  apply foldl_ext_all. intros st' tech. unfold companyTech. by rewrite Hid.
Qed.

Lemma interopNode_same ids im st n n' :
  sameGraphData n n' → interopNode ids im st n = interopNode ids im st n'.
Proof.
  intros Hs. pose proof (sameGraphData_isCompany _ _ Hs) as Hc.
  destruct Hs as (Hid & _ & Hdt). unfold interopNode. rewrite Hc, Hid.
  destruct (isCompany n'); [done|].
  apply foldl_ext_all. intros st' tech. unfold interopTarget. by rewrite Hid.
Qed.

Lemma builders_same_data nodes nodes' rawData :
  Forall2 sameGraphData nodes nodes' →
  buildCompanyEdges nodes rawData = buildCompanyEdges nodes' rawData ∧
  buildInteroperabilityEdges nodes rawData
  = buildInteroperabilityEdges nodes' rawData.
Proof.
  intros HF. unfold buildCompanyEdges, buildInteroperabilityEdges.
  rewrite (sameGraphData_ids _ _ HF).
  rewrite (foldl_Forall2 sameGraphData _
             (companyNode (nodeIdSet nodes') (designMapOf rawData)) _ _ _ HF)
    by (intros; by apply companyNode_same).
  rewrite (foldl_Forall2 sameGraphData _
             (interopNode (nodeIdSet nodes') (interopMapOf rawData)) _ _ _ HF)
    by (intros; by apply interopNode_same).
  done.
Qed.

(** The edge builders read the id, the type and the tool list of a node and
    nothing else: node lists that agree on these, node by node, give the
    same edges and counts. *)
Theorem builders_read_graph_data (nodes nodes' : list Node.t)
    (rawData : list DataRecord) :
  Forall2 sameGraphData nodes nodes' →
  buildCompanyEdges nodes rawData = buildCompanyEdges nodes' rawData ∧
  buildInteroperabilityEdges nodes rawData
  = buildInteroperabilityEdges nodes' rawData.
Proof. apply builders_same_data. Qed.

Lemma builders_read_graph_data_witness :
  buildCompanyEdges (styledNodes acmeNodes [] None 1) acmeData
  = buildCompanyEdges acmeNodes acmeData ∧
  buildInteroperabilityEdges (styledNodes acmeNodes [] None 1) acmeData
  = buildInteroperabilityEdges acmeNodes acmeData.
Proof.
  apply (builders_read_graph_data (styledNodes acmeNodes [] None 1) acmeNodes).
  repeat constructor.
Defined.

Lemma Forall2_fmap_same {A} (R : A → A → Prop) (f : A → A) l :
  (∀ x, R (f x) x) → Forall2 R (f <$> l) l.
Proof. intros H. induction l; constructor; auto. Qed.

Lemma rebuildEdges_same_data mode cur raw prev :
  Forall2 sameGraphData (rebuildEdges mode cur raw prev).1 prev.
Proof. unfold rebuildEdges. simpl. by apply Forall2_fmap_same. Qed.

(** Toggling the edge mode twice gives the nodes and the edges that one
    rebuild in the mode reached gives on the nodes before the two toggles:
    the sizes the first toggle wrote are not read, and are overwritten.
    From either of the two modes the mode reached is the mode left. *)
Theorem toggleEdgeMode_twice (edgeMode : string) (nodes : list Node.t)
    (rawData : list DataRecord) :
  let t1 := toggleEdgeMode edgeMode nodes rawData in
  let t2 := toggleEdgeMode t1.1 t1.2.1 rawData in
  t2.2 = rebuildEdges t2.1 nodes rawData nodes ∧
  (edgeMode = "company" ∨ edgeMode = "interoperability" → t2.1 = edgeMode).
Proof.
  intros t1 t2.
  assert (Forall2 sameGraphData t1.2.1 nodes) as HF
    by apply rebuildEdges_same_data.
  destruct (builders_same_data _ _ rawData HF) as [Hc Hi].
  split.
  - subst t2. unfold toggleEdgeMode at 1 2. cbn [fst snd].
    set (next := if bool_decide (t1.1 = "company") then _ else _).
    unfold rebuildEdges. rewrite Hc, Hi. f_equal.
    subst t1. unfold toggleEdgeMode, rebuildEdges. cbn [fst snd].
    rewrite <- list_fmap_compose. apply list_fmap_ext. intros _ n _. done.
  - subst t1 t2. unfold toggleEdgeMode. cbn [fst snd].
    intros [-> | ->]; done.
Qed.

(** A company node that carries a non-empty tool list of its own is built
    from that list: when all company nodes do, the raw data is not read. *)
Theorem own_designtechs_override (nodes : list Node.t)
    (rawData rawData' : list DataRecord) :
  (∀ n, n ∈ nodes → isCompany n = true →
        ∃ t ts, NodeData.designtechs (Node.data n) = Some (t :: ts)) →
  buildCompanyEdges nodes rawData = buildCompanyEdges nodes rawData'.
Proof.
  intros Hown. unfold buildCompanyEdges.
  assert (∀ st l, (∀ n, n ∈ l → n ∈ nodes) →
            foldl (companyNode (nodeIdSet nodes) (designMapOf rawData)) st l
            = foldl (companyNode (nodeIdSet nodes) (designMapOf rawData')) st l) as H.
  { intros st l. revert st. induction l as [|n l IH]; intros st Hl; [done|].
    simpl. rewrite <- IH by (intros; apply Hl; by right). f_equal.
    unfold companyNode. destruct (isCompany n) eqn:Hc; [|done]. simpl.
    destruct (Hown n (Hl n ltac:(by left)) Hc) as (t & ts & Ht).
    unfold techsOf. by rewrite Ht. }
  by rewrite H.
Qed.

Lemma own_designtechs_override_witness :
  buildCompanyEdges ownToolsNodes acmeData = buildCompanyEdges ownToolsNodes [].
Proof.
  apply (own_designtechs_override ownToolsNodes acmeData []).
  intros n Hn Hc. apply elem_of_cons in Hn as [->|Hn]; [by eexists _, _|].
  apply list_elem_of_singleton in Hn as ->. discriminate.
Defined.

(** ** The maps of the raw data and the interoperability cell *)

Lemma uniqueGo_spec seen l :
  NoDup (Js.uniqueGo seen l) ∧
  ∀ x, x ∈ Js.uniqueGo seen l ↔ x ∈ l ∧ x ∉ seen.
Proof.
  revert seen. induction l as [|y l IH]; intros seen; simpl.
  - split; [constructor|]. intros x. split; [by intros ?%elem_of_nil|].
    by intros [?%elem_of_nil _].
  - destruct (decide (y ∈ seen)) as [Hy|Hy].
    + destruct (IH seen) as [Hnd Hin]. split; [done|]. intros x.
      rewrite Hin, elem_of_cons. split; [tauto|].
      intros [[->|Hx] Hs]; [done|tauto].
    + destruct (IH ({[y]} ∪ seen)) as [Hnd Hin]. split.
      * constructor; [|done]. rewrite Hin. intros [_ Hn]. apply Hn.
        apply elem_of_union_l. by apply elem_of_singleton.
      * intros x. rewrite !elem_of_cons, Hin, not_elem_of_union, not_elem_of_singleton.
        destruct (decide (x = y)) as [->|Hne]; tauto.
Qed.

Lemma unique_spec l :
  NoDup (Js.unique l) ∧ ∀ x, x ∈ Js.unique l ↔ x ∈ l.
Proof.
  destruct (uniqueGo_spec ∅ l) as [Hnd Hin]. split; [done|].
  intros x. unfold Js.unique. rewrite Hin. split; [tauto|].
  intros Hx. split; [done|]. apply not_elem_of_empty.
Qed.

Lemma filter_snoc {A} (P : A → Prop) `{∀ x, Decision (P x)} l x :
  filter P (l ++ [x]) = if decide (P x) then filter P l ++ [x] else filter P l.
Proof.
  rewrite filter_app, filter_cons, filter_nil.
  destruct (decide (P x)); [done|]. by rewrite app_nil_r.
Qed.

Lemma designMapOf_snoc rawData item :
  designMapOf (rawData ++ [item]) =
  if hasTechs item
  then <[Name item := Js.unique (default [] (Designtechs item))]> (designMapOf rawData)
  else designMapOf rawData.
Proof.
  unfold designMapOf, hasTechs. rewrite foldl_app. simpl.
  by destruct (Designtechs item) as [[|t ts]|].
Qed.

Lemma interopMapOf_snoc rawData item :
  interopMapOf (rawData ++ [item]) =
  match interopNames item with
  | [] => interopMapOf rawData
  | l => <[Name item := l]> (interopMapOf rawData)
  end.
Proof.
  unfold interopMapOf, interopNames. rewrite foldl_app. simpl.
  destruct (Interoperability item) as [s|]; simpl; [|done].
  destruct s; [done|]. done.
Qed.

Lemma raw_maps_lookup (rawData : list DataRecord) (k : string) :
  designMapOf rawData !! k =
    (λ item, Js.unique (default [] (Designtechs item))) <$>
    last (filter (λ item, Name item = k ∧ hasTechs item = true) rawData) ∧
  interopMapOf rawData !! k =
    interopNames <$>
    last (filter (λ item, Name item = k ∧ interopNames item ≠ []) rawData) ∧
  ∀ l, designMapOf rawData !! k = Some l → NoDup l.
Proof.
  assert (designMapOf rawData !! k =
    (λ item, Js.unique (default [] (Designtechs item))) <$>
    last (filter (λ item, Name item = k ∧ hasTechs item = true) rawData)) as HD.
  { induction rawData as [|item rawData IH] using rev_ind; [done|].
    rewrite designMapOf_snoc, filter_snoc.
    destruct (hasTechs item) eqn:Ht.
    - destruct (decide (Name item = k)) as [<-|Hne].
      + rewrite lookup_insert_eq, decide_True by done. by rewrite last_snoc.
      + rewrite lookup_insert_ne, decide_False by tauto. done.
    - rewrite decide_False; [done|]. intros [_ ?]. congruence. }
  split; [done|]. split.
  - clear HD. induction rawData as [|item rawData IH] using rev_ind; [done|].
    rewrite interopMapOf_snoc, filter_snoc.
    destruct (interopNames item) as [|t ts] eqn:Ht.
    + rewrite decide_False; [done|]. intros [_ ?]. done.
    + destruct (decide (Name item = k)) as [<-|Hne].
      * rewrite lookup_insert_eq, decide_True by done. rewrite last_snoc. simpl. by rewrite Ht.
      * rewrite lookup_insert_ne, decide_False by tauto. done.
  - intros l. rewrite HD. destruct (last _); [|done].
    intros [= <-]. apply unique_spec.
Qed.

(** What the two maps hold for a name: the list of the last record of that
    name that has a non-empty one.  The tool list is stored without
    duplicates. *)
Theorem raw_maps_hold_last_record (rawData : list DataRecord) (k : string) :
  designMapOf rawData !! k =
    (λ item, Js.unique (default [] (Designtechs item))) <$>
    last (filter (λ item, Name item = k ∧ hasTechs item = true) rawData) ∧
  interopMapOf rawData !! k =
    interopNames <$>
    last (filter (λ item, Name item = k ∧ interopNames item ≠ []) rawData) ∧
  ∀ l, designMapOf rawData !! k = Some l → NoDup l.
Proof. apply raw_maps_lookup. Qed.

Lemma split_nonempty sep s : Js.split sep s ≠ [].
Proof.
  induction s as [|c s IH]; simpl; [done|].
  destruct (Ascii.eqb c sep); [done|]. by destruct (Js.split sep s).
Qed.

Lemma split_no_sep sep s :
  Forall (λ piece, hasChar sep piece = false) (Js.split sep s).
Proof.
  induction s as [|c s IH]; simpl.
  - by repeat constructor.
  - destruct (Ascii.eqb c sep) eqn:Hc.
    + by constructor.
    + destruct (Js.split sep s) as [|piece rest].
      { constructor; [simpl; by rewrite Hc|constructor]. }
      inversion IH as [|? ? Hp Hr]; subst. constructor; [|done].
      simpl. by rewrite Hc.
Qed.

Lemma trimStart_hasChar c s :
  hasChar c s = false → hasChar c (Js.trimStart s) = false.
Proof.
  induction s as [|d s IH]; simpl; [done|].
  intros [Hd Hs]%orb_false_elim. destruct (Js.isSpace d); [by apply IH|].
  simpl. by rewrite Hd, Hs.
Qed.

Lemma trimEnd_hasChar c s :
  hasChar c s = false → hasChar c (Js.trimEnd s) = false.
Proof.
  induction s as [|d s IH]; simpl; [done|].
  intros [Hd Hs]%orb_false_elim. specialize (IH Hs).
  destruct (Js.trimEnd s) as [|e r].
  - destruct (Js.isSpace d); [done|]. simpl. by rewrite Hd.
  - simpl in *. by rewrite Hd, IH.
Qed.

Lemma trimEnd_trimEnd s : Js.trimEnd (Js.trimEnd s) = Js.trimEnd s.
Proof.
  induction s as [|c s IH]; simpl; [done|].
  destruct (Js.trimEnd s) as [|d r] eqn:Hr.
  - destruct (Js.isSpace c) eqn:Hc; [done|]. simpl. by rewrite Hc.
  - change (Js.trimEnd (String c (String d r)))
      with (match Js.trimEnd (String d r) with
            | EmptyString => if Js.isSpace c then EmptyString else String c EmptyString
            | r' => String c r'
            end).
    by rewrite IH.
Qed.

Lemma trimStart_startsClean s : startsClean (Js.trimStart s).
Proof.
  induction s as [|c s IH]; simpl; [done|].
  destruct (Js.isSpace c) eqn:Hc; [done|]. done.
Qed.

Lemma trimEnd_startsClean s : startsClean s → startsClean (Js.trimEnd s).
Proof.
  destruct s as [|c s]; simpl; [done|]. intros Hc.
  destruct (Js.trimEnd s); [by rewrite Hc|done].
Qed.

Lemma trimStart_clean s : startsClean s → Js.trimStart s = s.
Proof. destruct s as [|c s]; simpl; [done|]. by intros ->. Qed.

Lemma trim_trim s : Js.trim (Js.trim s) = Js.trim s.
Proof.
  unfold Js.trim.
  rewrite (trimStart_clean (Js.trimEnd _))
    by apply trimEnd_startsClean, trimStart_startsClean.
  apply trimEnd_trimEnd.
Qed.

(** Every name [parseInterop] returns is clean: it is not empty, it has no
    white space at either end and it holds no comma. *)
Theorem parseInterop_names_clean (s : string) :
  Forall cleanName (parseInterop s).
Proof.
  unfold parseInterop. apply Forall_forall. intros t.
  rewrite list_elem_of_filter, list_elem_of_fmap.
  intros [Ht (piece & -> & Hp)]. split; [|split].
  - intros E. by rewrite E in Ht.
  - apply trim_trim.
  - pose proof (split_no_sep ","%char s) as Hall.
    rewrite Forall_forall in Hall. unfold Js.trim.
    by apply trimEnd_hasChar, trimStart_hasChar, Hall.
Qed.

Lemma allSpace_no_comma pad : allSpace pad = true → hasChar ","%char pad = false.
Proof.
  induction pad as [|c pad IH]; simpl; [done|].
  intros [Hc Hp]%andb_prop. rewrite IH by done.
  destruct (Ascii.eqb_spec c ","%char) as [->|]; [|done].
  vm_compute in Hc. discriminate.
Qed.

Lemma append_nil (b : string) : "" +:+ b = b.
Proof. reflexivity. Qed.

Lemma append_cons c (a b : string) : String c a +:+ b = String c (a +:+ b).
Proof. reflexivity. Qed.

Lemma split_app_sep sep a b :
  hasChar sep a = false →
  Js.split sep (a +:+ String sep b) = a :: Js.split sep b.
Proof.
  induction a as [|c a IH].
  - intros _. rewrite append_nil. simpl. by rewrite Ascii.eqb_refl.
  - intros [Hc Ha]%orb_false_elim. rewrite append_cons. simpl.
    by rewrite Hc, IH.
Qed.

Lemma split_app_clean sep a b :
  hasChar sep a = false →
  Js.split sep (a +:+ b) =
  match Js.split sep b with
  | piece :: rest => (a +:+ piece) :: rest
  | [] => [a]
  end.
Proof.
  induction a as [|c a IH].
  - intros _. rewrite append_nil. pose proof (split_nonempty sep b) as Hne.
    destruct (Js.split sep b); [done|]. by rewrite append_nil.
  - intros [Hc Ha]%orb_false_elim. rewrite append_cons. simpl.
    rewrite Hc, IH by done. by destruct (Js.split sep b).
Qed.

Lemma split_clean sep a : hasChar sep a = false → Js.split sep a = [a].
Proof.
  induction a as [|c a IH]; simpl; [done|].
  intros [Hc Ha]%orb_false_elim. by rewrite Hc, IH.
Qed.

Lemma trimStart_pad pad t :
  allSpace pad = true → Js.trimStart (pad +:+ t) = Js.trimStart t.
Proof.
  induction pad as [|c pad IH]; [done|].
  intros [Hc Hp]%andb_prop. rewrite append_cons. simpl. rewrite Hc. by apply IH.
Qed.

Lemma trim_pad pad t : allSpace pad = true → Js.trim (pad +:+ t) = Js.trim t.
Proof. intros Hp. unfold Js.trim. by rewrite trimStart_pad. Qed.

Lemma concat_cons2 (sep a b : string) l :
  String.concat sep (a :: b :: l) = a +:+ sep +:+ String.concat sep (b :: l).
Proof. reflexivity. Qed.

Lemma split_concat pad l :
  allSpace pad = true → Forall cleanName l →
  Js.split ","%char (String.concat (String ","%char pad) l) =
  match l with
  | [] => [""]
  | a :: l' => a :: ((λ t, pad +:+ t) <$> l')
  end.
Proof.
  intros Hpad Hl. induction Hl as [|a l (_ & _ & Ha) Hl' IH]; [done|].
  destruct l as [|b l'].
  - simpl. by apply split_clean.
  - rewrite concat_cons2, append_cons, split_app_sep by done. f_equal.
    rewrite split_app_clean by by apply allSpace_no_comma.
    by rewrite IH.
Qed.

(** Round trip: a list of clean names, joined with a comma and any white
    space after it, is parsed back to the list. *)
Theorem parseInterop_of_joined (pad : string) (l : list string) :
  allSpace pad = true → Forall cleanName l →
  parseInterop (String.concat (String ","%char pad) l) = l.
Proof.
  intros Hpad Hl. unfold parseInterop. rewrite split_concat by done.
  destruct Hl as [|a l Ha Hl]; [done|].
  rewrite fmap_cons, <- list_fmap_compose.
  assert (∀ l : list string, Forall cleanName l →
            filter (λ t, Is_true (Js.truthy t)) l = l) as Hkeep.
  { intros l0 H0. induction H0 as [|t l0 (Ht & _) _ IH]; [done|].
    rewrite filter_cons, decide_True, IH; [done|]. by destruct t. }
  assert ((Js.trim ∘ (λ t, pad +:+ t)) <$> l = l) as ->.
  { clear Ha. induction Hl as [|t l (_ & Ht & _) _ IH]; [done|].
    rewrite fmap_cons, IH. f_equal. simpl. by rewrite trim_pad. }
  destruct Ha as (Hne & Ht & Hc). rewrite Ht.
  apply (Hkeep (a :: l)). by constructor.
Qed.

Lemma parseInterop_of_joined_witness :
  parseInterop (String.concat ", " ["Revit"; "Rhino 7"]) = ["Revit"; "Rhino 7"].
Proof.
  apply (parseInterop_of_joined " " ["Revit"; "Rhino 7"]); [reflexivity|].
  repeat constructor; discriminate.
Defined.

(** ** The builders and the data *)

(** Both builders emit the pairs the data relates and no other.  An edge
    of the company mode goes from a company node to a name in its tool
    list; an edge of the interoperability mode goes from a node that is
    not a company to a name in the cell of the last record of its name;
    and every such pair of two different nodes has an edge with the id of
    the pair. *)
Theorem edges_follow_the_data (nodes : list Node.t) (rawData : list DataRecord) :
  (∀ e, e ∈ edges (buildCompanyEdges nodes rawData) →
        ∃ n, n ∈ nodes ∧ Node.id n = Edge.source e ∧ isCompany n = true ∧
             Edge.target e ∈ techsOf (designMapOf rawData) n) ∧
  (∀ n tech, n ∈ nodes → isCompany n = true →
             tech ∈ techsOf (designMapOf rawData) n →
             tech ∈ nodeIdSet nodes → tech ≠ Node.id n →
             ∃ e, e ∈ edges (buildCompanyEdges nodes rawData) ∧
                  Edge.id e = undirectedId (Node.id n) tech) ∧
  (∀ e, e ∈ edges (buildInteroperabilityEdges nodes rawData) →
        ∃ n item, n ∈ nodes ∧ Node.id n = Edge.source e ∧ isCompany n = false ∧
                  last (filter (λ item, Name item = Node.id n ∧
                                        interopNames item ≠ []) rawData)
                    = Some item ∧
                  Edge.target e ∈ interopNames item) ∧
  (∀ n item target,
     n ∈ nodes → isCompany n = false →
     last (filter (λ item, Name item = Node.id n ∧ interopNames item ≠ [])
                  rawData) = Some item →
     target ∈ interopNames item →
     target ∈ nodeIdSet nodes → target ≠ Node.id n →
     ∃ e, e ∈ edges (buildInteroperabilityEdges nodes rawData) ∧
          Edge.id e = undirectedId (Node.id n) target).
Proof.
  split; [|split; [|split]].
  - intros e He.
    destruct (usage_edges_good _ _ _ He) as (_ & _ & _ & n & Hn & Hsrc & Hc & Ht).
    by exists n.
  - intros n tech. apply usage_emitted.
  - intros e He.
    destruct (interop_edges_good _ _ _ He) as (_ & _ & _ & n & Hn & Hsrc & Hc & Ht).
    destruct (raw_maps_lookup rawData (Node.id n)) as (_ & HI & _).
    rewrite HI in Ht.
    destruct (last _) as [item|] eqn:Hlast; [|by apply elem_of_nil in Ht].
    by exists n, item.
  - intros n item target Hn Hc Hlast Ht Hin Hne.
    apply interop_emitted; try done.
    destruct (raw_maps_lookup rawData (Node.id n)) as (_ & HI & _).
    by rewrite HI, Hlast.
Qed.

(** When no node id holds the separator [-], a pair of nodes the data
    relates has exactly one edge, in either mode. *)
Theorem one_edge_per_related_pair
    (nodes : list Node.t) (rawData : list DataRecord) (n : Node.t)
    (other : string) :
  (∀ m, m ∈ nodes → hyphenFree (Node.id m) = true) →
  n ∈ nodes → other ∈ nodeIdSet nodes → other ≠ Node.id n →
  (isCompany n = true → other ∈ techsOf (designMapOf rawData) n →
   length (filter (joins (Node.id n) other)
             (edges (buildCompanyEdges nodes rawData))) = 1%nat) ∧
  (isCompany n = false →
   other ∈ default [] (interopMapOf rawData !! Node.id n) →
   length (filter (joins (Node.id n) other)
             (edges (buildInteroperabilityEdges nodes rawData))) = 1%nat).
Proof.
  intros Hfree Hn Hin Hne. split; intros Hc Hrel.
  - by apply usage_pair_exactly_once.
  - by apply interop_pair_exactly_once.
Qed.

Lemma one_edge_per_related_pair_witness :
  length (filter (joins "Acme" "Figma")
            (edges (buildCompanyEdges acmeNodes acmeData))) = 1%nat.
Proof.
  refine (proj1 (one_edge_per_related_pair acmeNodes acmeData
                   (plainNode "Acme" "company") "Figma" _ _ _ _) _ _).
  - intros m Hm. apply elem_of_cons in Hm as [->|Hm]; [reflexivity|].
    apply list_elem_of_singleton in Hm as ->. reflexivity.
  - by left.
  - apply elem_of_list_to_set. right. by left.
  - discriminate.
  - reflexivity.
  - vm_compute. by left.
Defined.

(** ** Weights of the highlight *)

Lemma nextTo_first s es order x :
  s ≠ "" → x ∈ firstOrderNodes (neighborhood (Some s) es order) ↔ nextTo s es x.
Proof. apply firstOrderNodes_spec. Qed.

Lemma firstHop_nextTo s es e :
  e ∈ es → firstHop s e → nextTo s es (Edge.source e) ∧ nextTo s es (Edge.target e).
Proof. intros He Hd. split; exists e; auto. Qed.

Lemma secondOrderNodes_two s es x :
  s ≠ "" →
  x ∈ secondOrderNodes (neighborhood (Some s) es 2) ↔
  ¬ nextTo s es x ∧ twoAway s es x.
Proof.
  intros Hs. rewrite neighborhood_selected by done. cbn [secondOrderNodes Nat.eqb].
  rewrite second_nodes_spec. cbn [fst].
  pose proof (λ y, nextTo_first s es 2 y Hs) as Hfirst.
  rewrite neighborhood_selected in Hfirst by done. cbn [firstOrderNodes] in Hfirst.
  rewrite Hfirst. split.
  - intros [Hx|(Hx & e & He & [Hc Hd] & Hxe)]; [by apply not_elem_of_empty in Hx|].
    split; [done|]. exists e. rewrite !Hfirst in Hc. done.
  - intros (Hx & e & He & Hxe & Hc). right. split; [done|]. exists e.
    split; [done|]. split; [|done]. split; [by rewrite !Hfirst|].
    apply not_isDirect. intros Hd.
    destruct (firstHop_nextTo s es e He Hd) as [H1 H2].
    destruct Hxe as [->| ->]; contradiction.
Qed.

(** The three weights of a node, for a selected id [s]: 1 when it is next
    to [s], 1/2 when the order is 2 and it is two edges away and not next
    to [s], 1/10 otherwise. *)
Theorem node_weights (s : string) (es : list Edge.t) (order : nat) (n : Node.t) :
  s ≠ "" →
  let o := nodeOpacity (Some s) order (neighborhood (Some s) es order) n in
  (nextTo s es (Node.id n) → o = 1%Q) ∧
  (¬ nextTo s es (Node.id n) → order = 2%nat → twoAway s es (Node.id n) →
   o = (1 # 2)%Q) ∧
  (¬ nextTo s es (Node.id n) → order ≠ 2%nat ∨ ¬ twoAway s es (Node.id n) →
   o = (1 # 10)%Q).
Proof.
  intros Hs o. subst o. unfold nodeOpacity, isSelected.
  rewrite (proj2 (truthy_spec s) Hs).
  pose proof (nextTo_first s es order (Node.id n) Hs) as Hfirst.
  split; [|split].
  - intros Hn. by rewrite bool_decide_eq_true_2 by by apply Hfirst.
  - intros Hn -> Htwo. rewrite bool_decide_eq_false_2 by by rewrite Hfirst.
    rewrite bool_decide_eq_true_2; [done|]. by apply secondOrderNodes_two.
  - intros Hn Hno. rewrite bool_decide_eq_false_2 by by rewrite Hfirst.
    destruct (order =? 2)%nat eqn:Ho; [|done].
    apply Nat.eqb_eq in Ho as ->.
    rewrite bool_decide_eq_false_2; [done|].
    rewrite secondOrderNodes_two by done. intros [_ Htwo].
    destruct Hno as [?|?]; done.
Qed.

Lemma node_weights_witness :
  nodeOpacity (Some "Figma") 2 (neighborhood (Some "Figma") spokeEdges 2)
    (plainNode "A" "tool") = 1%Q.
Proof.
  refine (proj1 (node_weights "Figma" spokeEdges 2 (plainNode "A" "tool") _) _).
  - discriminate.
  - exists (floatingEdge "A-Figma" "A" "Figma").
    split; [by left|]. split; [by right|by left].
Defined.

Lemma NoDup_fmap_eq {A B} (f : A → B) (l : list A) x y :
  NoDup (f <$> l) → x ∈ l → y ∈ l → f x = f y → x = y.
Proof.
  induction l as [|a l IH]; intros Hnd Hx Hy Hf; [by apply elem_of_nil in Hx|].
  rewrite fmap_cons, NoDup_cons in Hnd. destruct Hnd as [Ha Hnd].
  apply elem_of_cons in Hx as [->|Hx], Hy as [->|Hy]; [done| | |by apply IH].
  - exfalso. apply Ha. rewrite Hf. apply list_elem_of_fmap. by exists y.
  - exfalso. apply Ha. rewrite <- Hf. apply list_elem_of_fmap. by exists x.
Qed.

(** The three weights of an edge, when the edge ids are distinct: 1 when
    the selected id [s] is at an end of it, 7/20 when the order is 2 and
    an end of it is next to [s], 1/20 otherwise. *)
Theorem edge_weights (s : string) (es : list Edge.t) (order : nat) (e : Edge.t) :
  s ≠ "" → NoDup (Edge.id <$> es) → e ∈ es →
  let o := edgeOpacity (Some s) order (neighborhood (Some s) es order) e in
  let near := nextTo s es (Edge.source e) ∨ nextTo s es (Edge.target e) in
  (firstHop s e → o = 1%Q) ∧
  (¬ firstHop s e → order = 2%nat → near → o = (7 # 20)%Q) ∧
  (¬ firstHop s e → order ≠ 2%nat ∨ ¬ near → o = (1 # 20)%Q).
Proof.
  intros Hs Hnd He o near. subst o near. unfold edgeOpacity, isSelected.
  rewrite (proj2 (truthy_spec s) Hs).
  assert (Edge.id e ∈ firstOrderEdges (neighborhood (Some s) es order)
          ↔ firstHop s e) as Hfirst.
  { rewrite firstOrderEdges_spec by done. split.
    - intros (e' & He' & Hd & Hid).
      by rewrite (NoDup_fmap_eq Edge.id es e e' Hnd He He' Hid).
    - intros Hd. by exists e. }
  assert (Edge.id e ∈ secondOrderEdges (neighborhood (Some s) es 2)
          ↔ ¬ firstHop s e ∧
            (nextTo s es (Edge.source e) ∨ nextTo s es (Edge.target e))) as Hsecond.
  { rewrite neighborhood_selected by done. cbn [secondOrderEdges Nat.eqb].
    rewrite second_edges_spec. cbn [snd].
    pose proof (λ y, nextTo_first s es 2 y Hs) as Hn.
    rewrite neighborhood_selected in Hn by done. cbn [firstOrderNodes] in Hn.
    split.
    - intros [Hx|(e' & He' & [Hc Hd] & Hid)]; [by apply not_elem_of_empty in Hx|].
      rewrite (NoDup_fmap_eq Edge.id es e e' Hnd He He' Hid).
      rewrite !Hn in Hc. split; [by apply not_isDirect|done].
    - intros [Hd Hc]. right. exists e. split; [done|]. split; [|done].
      split; [by rewrite !Hn|by apply not_isDirect]. }
  split; [|split].
  - intros Hd. by rewrite bool_decide_eq_true_2 by by apply Hfirst.
  - intros Hd -> Hnear. rewrite bool_decide_eq_false_2 by by rewrite Hfirst.
    rewrite bool_decide_eq_true_2; [done|]. by apply Hsecond.
  - intros Hd Hno. rewrite bool_decide_eq_false_2 by by rewrite Hfirst.
    destruct (order =? 2)%nat eqn:Ho; [|done].
    apply Nat.eqb_eq in Ho as ->.
    rewrite bool_decide_eq_false_2; [done|].
    rewrite Hsecond. intros [_ Hnear]. destruct Hno as [?|?]; done.
Qed.

Lemma edge_weights_witness :
  edgeOpacity (Some "Figma") 2 (neighborhood (Some "Figma") spokeEdges 2)
    (floatingEdge "A-C" "A" "C") = (7 # 20)%Q.
Proof.
  refine (proj1 (proj2 (edge_weights "Figma" spokeEdges 2
                          (floatingEdge "A-C" "A" "C") _ _ _)) _ _ _).
  - discriminate.
  - refine (bool_decide_unpack _ _). vm_compute. exact I.
  - right. right. by left.
  - intros [H|H]; discriminate.
  - reflexivity.
  - left. exists (floatingEdge "A-Figma" "A" "Figma").
    split; [by left|]. split; [by right|by left].
Defined.

Lemma neighborhood_first_order sel es order :
  firstOrderNodes (neighborhood sel es order) = firstOrderNodes (neighborhood sel es 1) ∧
  firstOrderEdges (neighborhood sel es order) = firstOrderEdges (neighborhood sel es 1).
Proof.
  unfold neighborhood. destruct sel as [s|]; [|done]. by destruct (Js.truthy s).
Qed.

(** Going from order 1 to order 2 lowers the weight of no node and of no
    edge; with order 1 no node has weight 1/2 and no edge has weight 7/20. *)
Theorem second_order_only_raises (sel : option string) (es : list Edge.t)
    (n : Node.t) (e : Edge.t) :
  let n1 := nodeOpacity sel 1 (neighborhood sel es 1) n in
  let n2 := nodeOpacity sel 2 (neighborhood sel es 2) n in
  let e1 := edgeOpacity sel 1 (neighborhood sel es 1) e in
  let e2 := edgeOpacity sel 2 (neighborhood sel es 2) e in
  (n1 <= n2)%Q ∧ (e1 <= e2)%Q ∧ n1 ≠ (1 # 2)%Q ∧ e1 ≠ (7 # 20)%Q.
Proof.
  intros n1 n2 e1 e2. subst n1 n2 e1 e2. unfold nodeOpacity, edgeOpacity.
  destruct (neighborhood_first_order sel es 2) as [-> ->].
  destruct (isSelected sel); [|repeat split; done].
  set (nb1 := neighborhood sel es 1). set (nb2 := neighborhood sel es 2).
  destruct (bool_decide (Node.id n ∈ firstOrderNodes nb1)),
           (bool_decide (Edge.id e ∈ firstOrderEdges nb1));
    cbn [Nat.eqb andb];
    destruct (bool_decide (Node.id n ∈ secondOrderNodes nb2)),
             (bool_decide (Edge.id e ∈ secondOrderEdges nb2));
    repeat split; done.
Qed.

Lemma isDirect_turned s e : isDirect s (turned e) = isDirect s e.
Proof. unfold isDirect, turned. simpl. apply orb_comm. Qed.

Lemma firstStep_turned s acc e : firstStep s acc (turned e) = firstStep s acc e.
Proof.
  unfold firstStep. rewrite isDirect_turned. destruct (isDirect s e); [|done].
  f_equal. simpl. apply set_eq. intros x.
  rewrite !elem_of_union, !elem_of_singleton. tauto.
Qed.

Lemma secondStep_turned s first acc e :
  secondStep s first acc (turned e) = secondStep s first acc e.
Proof.
  unfold secondStep. rewrite isDirect_turned. cbn [turned Edge.source Edge.target Edge.id].
  rewrite (orb_comm (bool_decide (Edge.target e ∈ first))).
  destruct (_ && _); [|done]. f_equal.
  destruct (bool_decide (Edge.source e ∈ first)), (bool_decide (Edge.target e ∈ first));
    try done.
  apply set_eq. intros x. rewrite !elem_of_union, !elem_of_singleton. tauto.
Qed.

Lemma foldl_fmap_same {A S} (f : S → A → S) (g : A → A) l st :
  (∀ st x, f st (g x) = f st x) → foldl f st (g <$> l) = foldl f st l.
Proof.
  intros H. revert st. induction l as [|x l IH]; intros st; [done|].
  simpl. by rewrite H, IH.
Qed.

(** The highlight reads the edges as undirected: turning any edges round
    changes none of the four sets. *)
Theorem neighborhood_ignores_direction
    (sel : option string) (es : list Edge.t) (order : nat)
    (turn : Edge.t → bool) :
  neighborhood sel ((λ e, if turn e then turned e else e) <$> es) order
  = neighborhood sel es order.
Proof.
  unfold neighborhood. destruct sel as [s|]; [|done].
  destruct (Js.truthy s); [|done]. cbv zeta.
  rewrite (foldl_fmap_same (firstStep s))
    by (intros st x; destruct (turn x); [apply firstStep_turned|done]).
  destruct (order =? 2)%nat; [|done].
  rewrite (foldl_fmap_same (secondStep s _))
    by (intros st x; destruct (turn x); [apply secondStep_turned|done]).
  done.
Qed.

(** ** Edge attachment *)

Section EdgePosition.

Local Open Scope Q_scope.

Lemma round_bounds (x : Q) :
  inject_Z (Math_round x) <= x + (1 # 2) /\ x - (1 # 2) < inject_Z (Math_round x).
Proof.
  unfold Math_round. pose proof (Qfloor_le (x + (1 # 2))) as H1.
  pose proof (Qlt_floor (x + (1 # 2))) as H2.
  rewrite inject_Z_plus in H2. change (inject_Z 1) with 1 in H2. split; lra.
Qed.

Lemma Zlt_of_Q (a b : Z) : inject_Z a < inject_Z b → (a < b)%Z.
Proof. by rewrite <- Zlt_Qlt. Qed.

(** A coordinate at most 1 beyond that of the node rounds to at most 1
    beyond. *)
Lemma round_near (x n : Q) :
  x <= n + 1 → (Math_round x <=? Math_round n + 1)%Z = true.
Proof.
  intros Hx. apply Z.leb_le.
  destruct (round_bounds x) as [Hx1 _], (round_bounds n) as [_ Hn2].
  assert (inject_Z (Math_round x) < inject_Z (Math_round n + 2)) as H.
  { rewrite inject_Z_plus. change (inject_Z 2) with 2. lra. }
  apply Zlt_of_Q in H. lia.
Qed.

(** A coordinate at least 2 beyond that of the node rounds to more than 1
    beyond. *)
Lemma round_far (x n : Q) :
  n + 2 <= x → (Math_round x <=? Math_round n + 1)%Z = false.
Proof.
  intros Hx. apply Z.leb_gt.
  destruct (round_bounds x) as [_ Hx2], (round_bounds n) as [Hn1 _].
  apply Zlt_of_Q. rewrite inject_Z_plus. change (inject_Z 1) with 1. lra.
Qed.

Lemma Qle_bool_false (x y : Q) : y < x → Qle_bool x y = false.
Proof.
  intros H. destruct (Qle_bool x y) eqn:E; [|done].
  apply Qle_bool_iff in E. lra.
Qed.

Lemma Qle_bool_true (x y : Q) : x <= y → Qle_bool x y = true.
Proof. apply Qle_bool_iff. Qed.

Lemma getEdgePosition_cases (n : InternalNode) (p : Position) :
  (pos_x p <= leftOf n + 1 → getEdgePosition n p = Side.Left) ∧
  (2 <= measured_width n → rightOf n <= pos_x p →
   getEdgePosition n p = Side.Right) ∧
  (leftOf n + 2 <= pos_x p → pos_x p <= rightOf n - 2 →
   (pos_y p <= topOf n + 1 → getEdgePosition n p = Side.Top) ∧
   (2 <= measured_height n → bottomOf n <= pos_y p →
    getEdgePosition n p = Side.Bottom) ∧
   (topOf n + 2 <= pos_y p → pos_y p <= bottomOf n - 2 →
    getEdgePosition n p = Side.Top)).
Proof.
  unfold leftOf, rightOf, topOf, bottomOf, leftOf, topOf, getEdgePosition.
  set (l := pos_x (positionAbsolute n)). set (t := pos_y (positionAbsolute n)).
  set (W := measured_width n). set (H := measured_height n).
  destruct (round_bounds l) as [Hl1 Hl2], (round_bounds t) as [Ht1 Ht2].
  destruct (round_bounds (pos_x p)) as [Hx1 Hx2].
  destruct (round_bounds (pos_y p)) as [Hy1 Hy2].
  split; [|split].
  - intros Hp. by rewrite round_near.
  - intros HW Hp. rewrite round_far by lra. rewrite Qle_bool_true by lra. done.
  - intros Hp1 Hp2. rewrite round_far by lra. rewrite Qle_bool_false by lra.
    split; [|split].
    + intros Hy. by rewrite round_near.
    + intros HH Hy. rewrite round_far by lra. rewrite Qle_bool_true by lra. done.
    + intros Hq1 Hq2. rewrite round_far by lra. rewrite Qle_bool_false by lra. done.
Qed.

(** The side [getEdgePosition] answers, by where the point is: Left up to 1
    right of the left side; Right from the right side on, for a width of 2
    or more; and for a point 2 or more inside of both of these sides, Top
    up to 1 below the top side, Bottom from the bottom side on, for a
    height of 2 or more, and Top again, by default, 2 or more inside of the
    top and bottom sides. *)
Theorem getEdgePosition_sides (n : InternalNode) (p : Position) :
  (pos_x p <= leftOf n + 1 → getEdgePosition n p = Side.Left) ∧
  (2 <= measured_width n → rightOf n <= pos_x p →
   getEdgePosition n p = Side.Right) ∧
  (leftOf n + 2 <= pos_x p → pos_x p <= rightOf n - 2 →
   (pos_y p <= topOf n + 1 → getEdgePosition n p = Side.Top) ∧
   (2 <= measured_height n → bottomOf n <= pos_y p →
    getEdgePosition n p = Side.Bottom) ∧
   (topOf n + 2 <= pos_y p → pos_y p <= bottomOf n - 2 →
    getEdgePosition n p = Side.Top)).
Proof. apply getEdgePosition_cases. Qed.

End EdgePosition.

Section EdgeParams.

Local Open Scope Q_scope.

Variables a b : InternalNode.
Hypothesis width_pos : 0 < measured_width a.
Hypothesis height_pos : 0 < measured_height a.
Hypothesis apart : ~ (centerX a == centerX b /\ centerY a == centerY b).

Lemma vertical_side :
  onVerticalEdge a (getNodeIntersection a b) →
  (centerX a < centerX b → pos_x (getNodeIntersection a b) == rightOf a) ∧
  (centerX b < centerX a → pos_x (getNodeIntersection a b) == leftOf a).
Proof.
  intros [Hside _].
  destruct (intersection_along a b width_pos height_pos) as [Hx _].
  pose proof (scale_pos a b width_pos height_pos apart) as Hk.
  destruct (sides a width_pos height_pos) as (Hl & Hr & _ & _).
  destruct (half_width a width_pos) as [_ Hw].
  rewrite Hl, Hr in *.
  split; intros Hc; destruct Hside as [Hs|Hs]; try done; nra.
Qed.

Lemma horizontal_side :
  onHorizontalEdge a (getNodeIntersection a b) →
  (centerY a < centerY b → pos_y (getNodeIntersection a b) == bottomOf a) ∧
  (centerY b < centerY a → pos_y (getNodeIntersection a b) == topOf a).
Proof.
  intros [Hside _].
  destruct (intersection_along a b width_pos height_pos) as [_ Hy].
  pose proof (scale_pos a b width_pos height_pos apart) as Hk.
  destruct (sides a width_pos height_pos) as (_ & _ & Ht & Hb).
  destruct (half_height a height_pos) as [_ Hh].
  rewrite Ht, Hb in *.
  split; intros Hc; destruct Hside as [Hs|Hs]; try done; nra.
Qed.

End EdgeParams.



(** ** Type filter *)

(** Toggling a type twice gives the set back; toggling changes the
    membership of that type and of no other. *)
Lemma toggleType_twice (type : option string) (prev : gset (option string)) :
  toggleType type (toggleType type prev) = prev ∧
  (type ∈ toggleType type prev ↔ type ∉ prev) ∧
  ∀ other, other ≠ type → (other ∈ toggleType type prev ↔ other ∈ prev).
Proof.
  unfold toggleType.
  destruct (bool_decide_reflect (type ∈ prev)) as [Hin|Hout].
  - rewrite bool_decide_eq_false_2
      by (rewrite elem_of_difference, elem_of_singleton; tauto).
    split; [|split].
    + apply set_eq. intros x. rewrite elem_of_union, elem_of_difference,
        elem_of_singleton. destruct (decide (x = type)) as [->|]; tauto.
    + rewrite elem_of_difference, elem_of_singleton. tauto.
    + intros other Hne. rewrite elem_of_difference, elem_of_singleton. tauto.
  - rewrite bool_decide_eq_true_2
      by (by apply elem_of_union_l, elem_of_singleton).
    split; [|split].
    + apply set_eq. intros x. rewrite elem_of_difference, elem_of_union,
        elem_of_singleton. destruct (decide (x = type)) as [->|]; tauto.
    + rewrite elem_of_union, elem_of_singleton. tauto.
    + intros other Hne. rewrite elem_of_union, elem_of_singleton. tauto.
Qed.

Lemma nodeTypeMapOf_snoc nodes n :
  nodeTypeMapOf (nodes ++ [n])
  = <[Node.id n := NodeData.type (Node.data n)]> (nodeTypeMapOf nodes).
Proof. unfold nodeTypeMapOf. by rewrite foldl_app. Qed.

Lemma nodeTypeMapOf_dom nodes k :
  is_Some (nodeTypeMapOf nodes !! k) ↔ k ∈ nodeIdSet nodes.
Proof.
  unfold nodeIdSet. rewrite elem_of_list_to_set.
  induction nodes as [|n nodes IH] using rev_ind.
  - unfold nodeTypeMapOf. simpl. rewrite lookup_empty. split.
    + by intros [? ?].
    + by intros ?%elem_of_nil.
  - rewrite nodeTypeMapOf_snoc, fmap_app, elem_of_app. simpl.
    rewrite list_elem_of_singleton.
    destruct (decide (Node.id n = k)) as [<-|Hne].
    + rewrite lookup_insert_eq. split; [by right|by eexists].
    + rewrite lookup_insert_ne by done. rewrite IH. split; [by left|].
      intros [?|?]; [done|congruence].
Qed.

(** The type the map holds for an id is the type of a node of that id; it
    is the type of the node when only one has the id. *)
Lemma nodeTypeMapOf_some nodes k ty :
  nodeTypeMapOf nodes !! k = Some ty →
  ∃ n, n ∈ nodes ∧ Node.id n = k ∧ NodeData.type (Node.data n) = ty.
Proof.
  induction nodes as [|n nodes IH] using rev_ind.
  - unfold nodeTypeMapOf. simpl. by rewrite lookup_empty.
  - rewrite nodeTypeMapOf_snoc.
    destruct (decide (Node.id n = k)) as [<-|Hne].
    + rewrite lookup_insert_eq. intros [= <-]. exists n.
      split; [|done]. apply elem_of_app. right. by apply list_elem_of_singleton.
    + rewrite lookup_insert_ne by done. intros (m & Hm & ?)%IH.
      exists m. split; [|done]. apply elem_of_app. by left.
Qed.

Lemma nodeTypeMapOf_unique nodes n :
  NoDup (Node.id <$> nodes) → n ∈ nodes →
  nodeTypeMapOf nodes !! Node.id n = Some (NodeData.type (Node.data n)).
Proof.
  intros Hnd Hn.
  assert (is_Some (nodeTypeMapOf nodes !! Node.id n)) as [ty Hty].
  { apply nodeTypeMapOf_dom. unfold nodeIdSet. rewrite elem_of_list_to_set.
    apply list_elem_of_fmap. by exists n. }
  destruct (nodeTypeMapOf_some _ _ _ Hty) as (m & Hm & Hid & <-).
  rewrite Hty. do 2 f_equal.
  revert Hnd Hn Hm Hid. clear. induction nodes as [|a l IH]; intros Hnd Hn Hm Hid;
    [by apply elem_of_nil in Hn|].
  rewrite fmap_cons, NoDup_cons in Hnd. destruct Hnd as [Ha Hnd].
  apply elem_of_cons in Hn as [->|Hn], Hm as [->|Hm]; [done| | |by apply IH].
  - exfalso. apply Ha. rewrite <- Hid. apply list_elem_of_fmap. by exists m.
  - exfalso. apply Ha. rewrite Hid. apply list_elem_of_fmap. by exists n.
Qed.

Lemma withHidden_ids (f : Node.t → bool) (nodes : list Node.t) :
  Node.id <$> ((λ n, withHidden (f n) n) <$> nodes) = Node.id <$> nodes.
Proof. rewrite <- list_fmap_compose. by apply list_fmap_ext. Qed.

(** When the node ids are distinct, an edge between two nodes is hidden
    exactly when one of the two nodes is. *)
Theorem filtered_edge_hidden_with_its_nodes
    (activeTypes : gset (option string)) (nodes : list Node.t)
    (es : list Edge.t) (fe : FilteredEdge.t) (s t : Node.t) :
  NoDup (Node.id <$> nodes) →
  let r := typeFilterEffect activeTypes nodes es in
  fe ∈ r.2 → s ∈ r.1 → t ∈ r.1 →
  Node.id s = Edge.source (FilteredEdge.edge fe) →
  Node.id t = Edge.target (FilteredEdge.edge fe) →
  (FilteredEdge.hidden fe = true ↔
   Node.hidden s = Some true ∨ Node.hidden t = Some true).
Proof.
  intros Hnd r Hfe Hs Ht Hids Hidt. subst r. unfold typeFilterEffect in *.
  cbn [fst snd] in *.
  set (upd := (λ node, withHidden _ node) <$> nodes) in *.
  assert (NoDup (Node.id <$> upd)) as Hnd' by (subst upd; by rewrite withHidden_ids).
  apply list_elem_of_fmap in Hfe as (e & -> & He). cbn [FilteredEdge.edge] in *.
  cbn [FilteredEdge.hidden]. unfold typeOfId.
  rewrite <- Hids, <- Hidt, !nodeTypeMapOf_unique by done. simpl.
  subst upd.
  apply list_elem_of_fmap in Hs as (s0 & -> & Hs0).
  apply list_elem_of_fmap in Ht as (t0 & -> & Ht0). simpl.
  destruct (bool_decide (NodeData.type (Node.data s0) ∈ activeTypes)),
           (bool_decide (NodeData.type (Node.data t0) ∈ activeTypes)); simpl;
    split; try done; try (by left); try (by right); by intros [[=]|[=]].
Qed.

Lemma filtered_edge_hidden_with_its_nodes_witness :
  FilteredEdge.hidden
    (FilteredEdge.mk (floatingEdge "e-Acme-Figma" "Acme" "Figma") true) = true ↔
  Node.hidden (withHidden false (plainNode "Acme" "company")) = Some true ∨
  Node.hidden (withHidden true (plainNode "Figma" "tool")) = Some true.
Proof.
  apply (filtered_edge_hidden_with_its_nodes {[Some "company"]} acmeNodes
           [floatingEdge "e-Acme-Figma" "Acme" "Figma"]).
  - refine (bool_decide_unpack _ _). vm_compute. exact I.
  - vm_compute. by left.
  - vm_compute. by left.
  - vm_compute. right. by left.
  - reflexivity.
  - reflexivity.
Defined.

(** An edge with an end that is the id of no node is hidden, unless
    [undefined] is an active type. *)
Theorem dangling_edge_hidden
    (activeTypes : gset (option string)) (nodes : list Node.t)
    (es : list Edge.t) (fe : FilteredEdge.t) :
  (None ∉ activeTypes) →
  fe ∈ (typeFilterEffect activeTypes nodes es).2 →
  (Edge.source (FilteredEdge.edge fe) ∉ nodeIdSet nodes) ∨
  (Edge.target (FilteredEdge.edge fe) ∉ nodeIdSet nodes) →
  FilteredEdge.hidden fe = true.
Proof.
  intros Hnone Hfe Hdang. unfold typeFilterEffect in Hfe. cbn [snd] in Hfe.
  set (upd := (λ node, withHidden _ node) <$> nodes) in *.
  assert (nodeIdSet upd = nodeIdSet nodes) as Hids.
  { unfold nodeIdSet. subst upd. by rewrite withHidden_ids. }
  apply list_elem_of_fmap in Hfe as (e & -> & He). cbn [FilteredEdge.edge] in *.
  cbn [FilteredEdge.hidden]. apply negb_true_iff, andb_false_iff.
  assert (∀ k, k ∉ nodeIdSet nodes →
            bool_decide (typeOfId (nodeTypeMapOf upd) k ∈ activeTypes) = false) as H.
  { intros k Hk. apply bool_decide_eq_false_2. unfold typeOfId.
    destruct (nodeTypeMapOf upd !! k) as [ty|] eqn:E; [|done].
    exfalso. apply Hk. rewrite <- Hids. apply nodeTypeMapOf_dom. by eexists. }
  destruct Hdang as [Hd|Hd]; [left|right]; by apply H.
Qed.

Lemma dangling_edge_hidden_witness :
  FilteredEdge.hidden
    (FilteredEdge.mk (floatingEdge "e-Acme-Ghost" "Acme" "Ghost") true) = true.
Proof.
  apply (dangling_edge_hidden {[Some "company"]} acmeNodes
           [floatingEdge "e-Acme-Ghost" "Acme" "Ghost"]).
  - intros H%elem_of_singleton. discriminate.
  - vm_compute. by left.
  - right. vm_compute. intros H.
    by repeat (apply elem_of_list_to_set in H
               || apply elem_of_cons in H as [H|H]
               || apply elem_of_nil in H).
Defined.

Lemma uniqueTypesGo_spec seen l :
  NoDup (uniqueTypesGo seen l) ∧
  ∀ x, x ∈ uniqueTypesGo seen l ↔ x ∈ l ∧ x ∉ seen.
Proof.
  revert seen. induction l as [|y l IH]; intros seen; simpl.
  - split; [constructor|]. intros x. split; [by intros ?%elem_of_nil|].
    by intros [?%elem_of_nil _].
  - destruct (decide (y ∈ seen)) as [Hy|Hy].
    + destruct (IH seen) as [Hnd Hin]. split; [done|]. intros x.
      rewrite Hin, elem_of_cons. split; [tauto|].
      intros [[->|Hx] Hs]; [done|tauto].
    + destruct (IH ({[y]} ∪ seen)) as [Hnd Hin]. split.
      * constructor; [|done]. rewrite Hin. intros [_ Hn]. apply Hn.
        apply elem_of_union_l. by apply elem_of_singleton.
      * intros x. rewrite !elem_of_cons, Hin, not_elem_of_union, not_elem_of_singleton.
        destruct (decide (x = y)) as [->|Hne]; tauto.
Qed.

Lemma find_first_match {A} (f : A → bool) (l : list A) x :
  find f l = Some x →
  ∃ i, l !! i = Some x ∧ f x = true ∧
       ∀ j y, (j < i)%nat → l !! j = Some y → f y = false.
Proof.
  induction l as [|a l IH]; simpl; [done|].
  destruct (f a) eqn:Ha.
  - intros [= ->]. exists 0%nat. split; [done|]. split; [done|]. intros; lia.
  - intros (i & Hi & Hx & Hbefore)%IH. exists (S i). split; [done|].
    split; [done|]. intros [|j] y Hj Hy.
    + simpl in Hy. by injection Hy as ->.
    + apply (Hbefore j); [lia|done].
Qed.

Lemma find_no_match {A} (f : A → bool) (l : list A) x :
  find f l = None → x ∈ l → f x = false.
Proof.
  induction l as [|a l IH]; simpl; [by intros _ ?%elem_of_nil|].
  destruct (f a) eqn:Ha; [done|].
  intros Hn [->|Hx]%elem_of_cons; [done|by apply IH].
Qed.

Lemma allTypes_types nodes :
  entry_type <$> allTypes nodes
  = uniqueTypesGo ∅ ((λ n, NodeData.type (Node.data n)) <$> nodes).
Proof.
  unfold allTypes. rewrite <- list_fmap_compose.
  rewrite <- (list_fmap_id (uniqueTypesGo _ _)) at 2. by apply list_fmap_ext.
Qed.

Lemma allTypes_elem nodes ty :
  ty ∈ entry_type <$> allTypes nodes ↔
  ∃ n, n ∈ nodes ∧ NodeData.type (Node.data n) = ty.
Proof.
  rewrite allTypes_types.
  destruct (uniqueTypesGo_spec ∅ ((λ n, NodeData.type (Node.data n)) <$> nodes))
    as [_ Hin].
  rewrite Hin, list_elem_of_fmap. split.
  - intros [(n & -> & Hn) _]. by exists n.
  - intros (n & Hn & <-). split; [by exists n|apply not_elem_of_empty].
Qed.

(** [allTypes] lists every type a node has, once, with the colour of the
    first node of that type, or grey when that node has none. *)
Theorem allTypes_lists_each_type_once (nodes : list Node.t) :
  NoDup (entry_type <$> allTypes nodes) ∧
  (∀ ty, ty ∈ entry_type <$> allTypes nodes ↔
         ∃ n, n ∈ nodes ∧ NodeData.type (Node.data n) = ty) ∧
  (∀ entry, entry ∈ allTypes nodes →
     ∃ i n, nodes !! i = Some n ∧
            NodeData.type (Node.data n) = entry_type entry ∧
            (∀ j m, (j < i)%nat → nodes !! j = Some m →
                    NodeData.type (Node.data m) ≠ entry_type entry) ∧
            entry_color entry = colorOrGrey (NodeData.color (Node.data n))).
Proof.
  split; [|split].
  - rewrite allTypes_types. apply uniqueTypesGo_spec.
  - apply allTypes_elem.
  - intros entry Hentry.
    assert (entry_type entry ∈ entry_type <$> allTypes nodes) as Hty.
    { apply list_elem_of_fmap. by exists entry. }
    apply allTypes_elem in Hty as (n0 & Hn0 & Hty0).
    unfold allTypes in Hentry. apply list_elem_of_fmap in Hentry as (ty & -> & _).
    cbn [entry_type entry_color] in *. unfold typeColor.
    destruct (find _ nodes) as [n|] eqn:Hfind.
    + destruct (find_first_match _ _ _ Hfind) as (i & Hi & Hn & Hbefore).
      exists i, n. split; [done|]. split; [by apply bool_decide_eq_true in Hn|].
      split; [|done]. intros j m Hj Hm.
      specialize (Hbefore j m Hj Hm). by apply bool_decide_eq_false in Hbefore.
    + pose proof (find_no_match _ _ n0 Hfind Hn0) as Hno.
      by apply bool_decide_eq_false in Hno.
Qed.

(** With the first value of [activeTypes], all the types of the nodes, the
    effect hides no node and no edge between nodes. *)
Theorem initially_nothing_hidden (nodes : list Node.t) (es : list Edge.t) :
  let r := typeFilterEffect (initialActiveTypes nodes) nodes es in
  Forall (λ n, Node.hidden n = Some false) r.1 ∧
  ∀ fe, fe ∈ r.2 →
        Edge.source (FilteredEdge.edge fe) ∈ nodeIdSet nodes →
        Edge.target (FilteredEdge.edge fe) ∈ nodeIdSet nodes →
        FilteredEdge.hidden fe = false.
Proof.
  intros r. subst r. unfold typeFilterEffect. cbn [fst snd].
  assert (∀ n, n ∈ nodes →
            NodeData.type (Node.data n) ∈ initialActiveTypes nodes) as Hact.
  { intros n Hn. unfold initialActiveTypes. rewrite elem_of_list_to_set.
    apply allTypes_elem. by exists n. }
  set (upd := (λ node, withHidden _ node) <$> nodes).
  split.
  - apply Forall_forall. intros n' (n & -> & Hn)%list_elem_of_fmap.
    simpl. by rewrite bool_decide_eq_true_2 by by apply Hact.
  - assert (nodeIdSet upd = nodeIdSet nodes) as Hids.
    { unfold nodeIdSet. subst upd. by rewrite withHidden_ids. }
    assert (∀ k, k ∈ nodeIdSet nodes →
              bool_decide (typeOfId (nodeTypeMapOf upd) k
                           ∈ initialActiveTypes nodes) = true) as H.
    { intros k Hk. apply bool_decide_eq_true_2. unfold typeOfId.
      rewrite <- Hids in Hk. apply nodeTypeMapOf_dom in Hk as [ty Hty].
      rewrite Hty. simpl.
      apply nodeTypeMapOf_some in Hty as (m & Hm & _ & <-).
      subst upd. apply list_elem_of_fmap in Hm as (m0 & -> & Hm0).
      simpl. by apply Hact. }
    intros fe (e & -> & He)%list_elem_of_fmap Hs Ht.
    cbn [FilteredEdge.edge FilteredEdge.hidden] in *.
    by rewrite !H.
Qed.

(** ** Colours *)

Lemma generateColorMap_fold data :
  generateColorMap data = (foldl colorStep (∅, 0%nat) (Js.unique (Type_ <$> data))).1.
Proof. reflexivity. Qed.

Lemma set_lookup {A} (m : gmap string A) k k' a :
  Obj.set k a m !! k' =
  if decide (k = k' ∧ k ≠ "__proto__") then Some a else m !! k'.
Proof.
  unfold Obj.set. destruct (bool_decide_reflect (k = "__proto__")) as [->|Hk].
  - by rewrite decide_False by tauto.
  - destruct (decide (k = k')) as [->|Hne].
    + rewrite lookup_insert_eq. by rewrite decide_True.
    + rewrite lookup_insert_ne by done. by rewrite decide_False by tauto.
Qed.

Lemma colorFold (types : list string) :
  NoDup types →
  let r := foldl colorStep (∅, 0%nat) types in
  r.2 = length (filter (λ type, Js.toLowerCase type ≠ "company") types) ∧
  (∀ type, type ∉ types ∨ type = "__proto__" → r.1 !! type = None) ∧
  (∀ type, type ∈ types → Js.toLowerCase type = "company" →
           r.1 !! type = Some COMPANY_COLOR) ∧
  (∀ i type,
     filter (λ type, Js.toLowerCase type ≠ "company") types !! i = Some type →
     type ≠ "__proto__" →
     r.1 !! type = Some (colorAt i)).
Proof.
  induction types as [|ty types IH] using rev_ind; intros Hnd.
  - simpl. split; [done|]. split; [intros; apply lookup_empty|].
    split; [by intros ? ?%elem_of_nil|]. by intros [|?] ?.
  - apply NoDup_app in Hnd as (Hnd & Hfresh & _).
    assert (ty ∉ types) as Hty.
    { intros H. apply (Hfresh ty H). by apply list_elem_of_singleton. }
    destruct (IH Hnd) as (Hk & Hout & Hco & Hother). clear IH.
    cbv zeta. rewrite foldl_app. simpl.
    destruct (foldl colorStep (∅, 0%nat) types) as [m k]. cbn [fst snd] in *.
    rewrite filter_snoc. unfold colorStep.
    destruct (bool_decide_reflect (Js.toLowerCase ty = "company")) as [Hc|Hc];
      cbn [fst snd].
    + assert (ty ≠ "__proto__") as Hp by (intros ->; discriminate).
      rewrite decide_False by tauto.
      split; [done|]. split; [|split].
      * intros type Htype. rewrite set_lookup.
        destruct (decide _) as [[<- _]|_].
        -- destruct Htype as [Hn|Hn]; [|done].
           exfalso. apply Hn, elem_of_app. right. by left.
        -- apply Hout. destruct Htype as [Hn|Hn]; [left|by right].
           intros Hin. apply Hn, elem_of_app. by left.
      * intros type [Hin|Heq%list_elem_of_singleton]%elem_of_app Hcomp.
        -- rewrite set_lookup. destruct (decide _); [done|]. by apply Hco.
        -- subst type. rewrite set_lookup. by rewrite decide_True.
      * intros i type Hi Hproto. rewrite set_lookup.
        destruct (decide _) as [[<- _]|_]; [|by apply Hother].
        apply list_elem_of_lookup_2, list_elem_of_filter in Hi. tauto.
    + rewrite decide_True by done.
      split; [rewrite length_app; simpl; lia|]. split; [|split].
      * intros type Htype. rewrite set_lookup.
        destruct (decide _) as [[<- Hp]|_].
        -- destruct Htype as [Hn|Hn]; [|done].
           exfalso. apply Hn, elem_of_app. right. by left.
        -- apply Hout. destruct Htype as [Hn|Hn]; [left|by right].
           intros Hin. apply Hn, elem_of_app. by left.
      * intros type [Hin|Heq%list_elem_of_singleton]%elem_of_app Hcomp;
          [|by subst type].
        rewrite set_lookup. destruct (decide _) as [[<- _]|_]; [done|].
        by apply Hco.
      * intros i type Hi Hproto.
        destruct (decide (i < length (filter (λ type, Js.toLowerCase type ≠ "company") types))%nat)
          as [Hlt|Hge].
        -- rewrite lookup_app_l in Hi by done.
           rewrite set_lookup. destruct (decide _) as [[<- _]|_];
             [|by apply Hother].
           apply list_elem_of_lookup_2, list_elem_of_filter in Hi.
           tauto.
        -- rewrite lookup_app_r in Hi by lia.
           apply list_lookup_singleton_Some in Hi as [Hi ->].
           rewrite set_lookup, decide_True by done. do 2 f_equal. lia.
Qed.

Lemma generateColorMap_lookup (data : list DataRecord) (type : string) :
  (generateColorMap data !! type = None ↔
   type ∉ Type_ <$> data ∨ type = "__proto__") ∧
  (type ∈ Type_ <$> data → Js.toLowerCase type = "company" →
   generateColorMap data !! type = Some COMPANY_COLOR) ∧
  (∀ i, otherTypes data !! i = Some type → type ≠ "__proto__" →
        generateColorMap data !! type = Some (colorAt i)).
Proof.
  rewrite generateColorMap_fold.
  destruct (unique_spec (Type_ <$> data)) as [Hnd Hin].
  destruct (colorFold _ Hnd) as (_ & Hout & Hco & Hother).
  split; [|split].
  - split.
    + intros Hnone.
      destruct (decide (type = "__proto__")) as [|Hp]; [by right|]. left.
      intros Hty. apply Hin in Hty.
      destruct (decide (Js.toLowerCase type = "company")) as [Hc|Hc].
      * by rewrite Hco in Hnone.
      * assert (type ∈ filter (λ type, Js.toLowerCase type ≠ "company")
                         (Js.unique (Type_ <$> data))) as Hf
          by by apply list_elem_of_filter.
        apply list_elem_of_lookup in Hf as [i Hi].
        by rewrite (Hother i type Hi Hp) in Hnone.
    + intros Hty. apply Hout. rewrite Hin. tauto.
  - intros Hty Hc. apply Hco; [by apply Hin|done].
  - intros i Hi Hp. by apply Hother.
Qed.

(** The colour map has a colour for exactly the types of the records
    other than [__proto__], the key a plain object does not store: the
    company colour for a type that is [company] in any case of letters, and
    for the others the palette in the order of their first record, then
    the [hsl] colours; the type [__proto__] takes its place in that order
    and gets no colour. *)
Theorem generateColorMap_colours (data : list DataRecord) (type : string) :
  (generateColorMap data !! type = None ↔
   type ∉ Type_ <$> data ∨ type = "__proto__") ∧
  (type ∈ Type_ <$> data → Js.toLowerCase type = "company" →
   generateColorMap data !! type = Some COMPANY_COLOR) ∧
  (∀ i, otherTypes data !! i = Some type → type ≠ "__proto__" →
        generateColorMap data !! type = Some (colorAt i)).
Proof. apply generateColorMap_lookup. Qed.

Lemma colorAt_inj i j :
  (i < 47)%nat → (j < 47)%nat → colorAt i = colorAt j → i = j.
Proof.
  intros Hi Hj Heq.
  assert (forallb (λ i, forallb (λ j, implb (String.eqb (colorAt i) (colorAt j))
                                        (i =? j)%nat) (seq 0 47)) (seq 0 47)
          = true) as Hall by (vm_compute; reflexivity).
  rewrite forallb_forall in Hall.
  specialize (Hall i). rewrite forallb_forall in Hall.
  assert (implb (String.eqb (colorAt i) (colorAt j)) (i =? j)%nat = true) as H.
  { apply Hall; apply in_seq; lia. }
  rewrite Heq, String.eqb_refl in H. by apply Nat.eqb_eq.
Qed.

Lemma colorAt_hash_or_h i :
  ∃ rest, colorAt i = String "#"%char rest ∧ rest ≠ "1E40AF" ∨
          colorAt i = String "h"%char rest.
Proof.
  unfold colorAt. destruct (colorPalette !! i) as [c|] eqn:Hc.
  - apply list_elem_of_lookup_2 in Hc. unfold colorPalette in Hc.
    repeat (apply elem_of_cons in Hc as [->|Hc];
            [eexists; left; split; [reflexivity|discriminate]|]).
    by apply elem_of_nil in Hc.
  - eexists. right. reflexivity.
Qed.

Lemma colorAt_not_company i : colorAt i ≠ COMPANY_COLOR ∧ colorAt i ≠ "".
Proof.
  destruct (colorAt_hash_or_h i) as (rest & [[-> Hr]| ->]); split;
    try discriminate. unfold COMPANY_COLOR. congruence.
Qed.

Lemma colour_cases data type c :
  generateColorMap data !! type = Some c →
  (Js.toLowerCase type = "company" ∧ c = COMPANY_COLOR) ∨
  (Js.toLowerCase type ≠ "company" ∧
   ∃ i, otherTypes data !! i = Some type ∧ c = colorAt i).
Proof.
  intros Hc. destruct (generateColorMap_lookup data type) as (Hnone & Hco & Hother).
  assert (type ∈ Type_ <$> data ∧ type ≠ "__proto__") as [Hty Hp].
  { split.
    - destruct (decide (type ∈ Type_ <$> data)) as [|Hn]; [done|].
      rewrite (proj2 Hnone) in Hc by by left. congruence.
    - intros ->. rewrite (proj2 Hnone) in Hc by by right. congruence. }
  destruct (decide (Js.toLowerCase type = "company")) as [Hcomp|Hcomp].
  - left. split; [done|]. rewrite Hco in Hc by done. congruence.
  - right. split; [done|].
    assert (type ∈ otherTypes data) as Hf.
    { apply list_elem_of_filter. split; [done|]. by apply unique_spec. }
    apply list_elem_of_lookup in Hf as [i Hi]. exists i. split; [done|].
    rewrite (Hother i Hi Hp) in Hc. congruence.
Qed.

(** No colour is the empty string, and the company colour goes to the
    company types only.  Up to 47 types that are not the company type get
    colours that differ from one another; the 48th gets the colour of the
    12th. *)
Theorem generateColorMap_distinct (data : list DataRecord) :
  (∀ type c, generateColorMap data !! type = Some c →
             c ≠ "" ∧ (c = COMPANY_COLOR ↔ Js.toLowerCase type = "company")) ∧
  ((length (otherTypes data) ≤ 47)%nat →
   ∀ t1 t2 c, generateColorMap data !! t1 = Some c →
              generateColorMap data !! t2 = Some c →
              t1 = t2 ∨ c = COMPANY_COLOR) ∧
  colorAt 47 = colorAt 11.
Proof.
  split; [|split; [|by vm_compute]].
  - intros type c [[Hc ->]|(Hc & i & _ & ->)]%colour_cases.
    + split; [done|]. done.
    + destruct (colorAt_not_company i). split; [done|]. split; [done|done].
  - intros Hlen t1 t2 c H1 H2.
    destruct (colour_cases _ _ _ H1) as [[_ ->]|(_ & i & Hi & ->)]; [by right|].
    destruct (colour_cases _ _ _ H2) as [[_ E]|(_ & j & Hj & E)].
    { by destruct (colorAt_not_company i). }
    left. apply colorAt_inj in E.
    + subst j. rewrite Hi in Hj. congruence.
    + apply lookup_lt_Some in Hi. lia.
    + apply lookup_lt_Some in Hj. lia.
Qed.

(** ** Initial load, continued *)

Section InitialLoad.

Variables (Math_cos Math_sin : Q → Q) (Math_PI : Q).
Variable localeCompare : string → string → Z.
Variables (rawData : list DataRecord) (width height : Q).

Local Abbreviation colorMap := (generateColorMap (loaded rawData)).
Local Abbreviation names := (list_to_set (Name <$> loaded rawData) : gset string).

Lemma initialEdgesOfNode_record ids cm item p :
  initialEdgesOfNode ids (withPosition (recordNode cm item) p)
  = Some (recordEdges ids item).
Proof. done. Qed.

Lemma initialEdgesOfNode_record' ids cm item :
  initialEdgesOfNode ids (recordNode cm item) = Some (recordEdges ids item).
Proof. done. Qed.

Lemma mapM_fmap_Some {A B C} (f : B → option C) (g : A → B) (h : A → C) l :
  (∀ x, f (g x) = Some (h x)) → mapM f (g <$> l) = Some (h <$> l).
Proof.
  intros H. induction l as [|x l IH]; [done|].
  rewrite !fmap_cons. simpl. rewrite H, IH. done.
Qed.

Lemma nodeIdSet_records cm (items : list DataRecord) :
  nodeIdSet (recordNode cm <$> items) = list_to_set (Name <$> items).
Proof.
  unfold nodeIdSet. f_equal. rewrite <- list_fmap_compose.
  by apply list_fmap_ext.
Qed.

(** The initial load returns; what it returns, in terms of the records in
    their sorted order. *)
Lemma initialElements_result :
  ∃ sorted,
    sorted ≡ₚ loaded rawData ∧
    Js.sortM (arrangeCompare localeCompare "label")
             (recordNode colorMap <$> loaded rawData)
      = Some (recordNode colorMap <$> sorted) ∧
    initialElements Math_cos Math_sin Math_PI localeCompare rawData width height
    = let es := concat (recordEdges names <$> sorted) in
      Some (imap (λ i item,
                    withSize (countConnections es)
                      (withPosition (recordNode colorMap item)
                         (circlePosition Math_cos Math_sin
                            (width / 2) (height / 2) 600
                            ((2 * Math_PI) / ofNat (length sorted)) i)))
                 sorted,
            es).
Proof.
  destruct (sortM_total (arrangeCompare localeCompare "label")
              (recordNode colorMap <$> loaded rawData)) as [sortedNodes Hs].
  { intros x y _ _. done. }
  pose proof (sortM_Permutation _ _ _ Hs) as Hperm.
  apply Permutation_map_inv in Hperm as (sorted & -> & Hperm).
  exists sorted. split; [done|]. split; [done|].
  unfold initialElements, arrangeNodes. cbv zeta.
  fold (loaded rawData). rewrite Hs. cbn [mbind option_bind].
  rewrite nodeIdSet_imap by done. rewrite mapM_imap by done.
  rewrite nodeIdSet_records.
  assert ((list_to_set (Name <$> sorted) : gset string) = names) as ->.
  { apply set_eq. intros x. rewrite !elem_of_list_to_set. by rewrite Hperm. }
  rewrite (mapM_fmap_Some _ _ (recordEdges names)) by done.
  cbn [mbind option_bind]. f_equal. f_equal.
  rewrite length_fmap. rewrite imap_fmap, fmap_imap.
  apply imap_ext. intros i item _. done.
Qed.

End InitialLoad.

Lemma imap_Forall2 {A B} (f : nat → A → B) (l : list A) (R : A → B → Prop) :
  (∀ i x, l !! i = Some x → R x (f i x)) → Forall2 R l (imap f l).
Proof.
  revert f. induction l as [|x l IH]; intros f H; simpl; constructor.
  - by apply (H 0%nat).
  - apply IH. intros i y Hy. by apply (H (S i)).
Qed.

Lemma elem_of_concat {A} (x : A) (ls : list (list A)) :
  x ∈ concat ls ↔ ∃ l, x ∈ l ∧ l ∈ ls.
Proof.
  induction ls as [|l ls IH]; simpl.
  - split; [by intros ?%elem_of_nil|]. by intros (? & _ & ?%elem_of_nil).
  - rewrite elem_of_app, IH. split.
    + intros [Hx|(l' & Hx & Hl')]; [exists l; split; [done|by left]|].
      exists l'. split; [done|by right].
    + intros (l' & Hx & [->|Hl']%elem_of_cons); [by left|].
      right. by exists l'.
Qed.

Lemma recordEdges_elem ids item e :
  e ∈ recordEdges ids item ↔
  Js.toLowerCase (Type_ item) = "company" ∧
  ∃ tech, tech ∈ default [] (Designtechs item) ∧ tech ∈ ids ∧
          e = floatingEdge (edgeIdOf (Name item) tech) (Name item) tech.
Proof.
  unfold recordEdges.
  destruct (bool_decide_reflect (Js.toLowerCase (Type_ item) = "company")) as [Hc|Hc].
  - rewrite list_elem_of_omap. split.
    + intros (tech & Ht & Hsome). split; [done|]. exists tech.
      destruct (bool_decide_reflect (tech ∈ ids)); [|done].
      injection Hsome as <-. done.
    + intros (_ & tech & Ht & Hin & ->). exists tech. split; [done|].
      by rewrite bool_decide_eq_true_2.
  - split; [by intros ?%elem_of_nil|]. by intros [? _].
Qed.

(** The colour of a type that the colour map holds. *)
Lemma colorOf_entry data type :
  type ∈ Type_ <$> data → type ≠ "__proto__" →
  ∃ c, generateColorMap data !! type = Some c ∧
       colorOf (generateColorMap data) type = Css c.
Proof.
  intros Hty Hp.
  destruct (generateColorMap data !! type) as [c|] eqn:Hc.
  - exists c. split; [done|]. unfold colorOf, Obj.get.
    rewrite bool_decide_eq_false_2 by done. rewrite Hc.
    assert (c ≠ "") as Hne.
    { apply colour_cases in Hc as [[_ ->]|(_ & i & _ & ->)]; [done|].
      by destruct (colorAt_not_company i). }
    by destruct c.
  - apply generateColorMap_lookup in Hc as [Hc|Hc]; done.
Qed.

(** The initial load returns, for any data.  It makes one node of every
    record whose type is not [filformat], in any case of letters, the
    records taken in some order: the node of the record, with a position
    and a size.  When the name of the record names no member of
    [Object.prototype], the size is the number of ends the edges have at
    the name, and 1 when they have none; when the type of the record is not
    [__proto__], the colour is the colour the colour map holds for the
    type. *)
Theorem initialElements_nodes
    (Math_cos Math_sin : Q → Q) (Math_PI : Q)
    (localeCompare : string → string → Z)
    (rawData : list DataRecord) (width height : Q) :
  ∃ nodes es sorted,
    initialElements Math_cos Math_sin Math_PI localeCompare rawData width height
      = Some (nodes, es) ∧
    sorted ≡ₚ loaded rawData ∧
    Forall2 (λ item n,
               (∃ p, n = withSize (countConnections es)
                          (withPosition
                             (recordNode (generateColorMap (loaded rawData)) item)
                             p)) ∧
               (plainKey (Name item) →
                NodeData.size (Node.data n)
                = Some (Num (Nat.max 1 (degree (Name item) es)))) ∧
               (Type_ item ≠ "__proto__" →
                ∃ c, generateColorMap (loaded rawData) !! Type_ item = Some c ∧
                     NodeData.color (Node.data n) = Some (Css c)))
            sorted nodes.
Proof.
  destruct (initialElements_result Math_cos Math_sin Math_PI localeCompare
              rawData width height) as (sorted & Hperm & _ & Hres).
  cbv zeta in Hres. eexists _, _, sorted. split; [exact Hres|]. split; [done|].
  apply imap_Forall2. intros i item Hi. split; [by eexists|]. split.
  - intros Hk. rewrite withSize_degree by done. done.
  - intros Hp.
    destruct (colorOf_entry (loaded rawData) (Type_ item)) as (c & Hc & Hcol);
      [|done|].
    + apply list_elem_of_fmap. exists item. split; [done|].
      rewrite <- Hperm. by eapply list_elem_of_lookup_2.
    + exists c. split; [done|]. cbn. by rewrite Hcol.
Qed.

(** The edges of the initial load are the edges of the records, record
    after record in the order of the nodes: for a company record, one edge
    for every entry of its tool list that is the name of a node, that is,
    of a record that is loaded.  The id of the edge is made of the two
    names in this order; the entry is not compared with the name of the
    company. *)
Theorem initialElements_edges_are_the_listed_tools
    (Math_cos Math_sin : Q → Q) (Math_PI : Q)
    (localeCompare : string → string → Z)
    (rawData : list DataRecord) (width height : Q) :
  ∃ nodes es sorted,
    initialElements Math_cos Math_sin Math_PI localeCompare rawData width height
      = Some (nodes, es) ∧
    sorted ≡ₚ loaded rawData ∧
    es = concat (recordEdges (list_to_set (Name <$> loaded rawData)) <$> sorted) ∧
    ∀ e, e ∈ es ↔
         ∃ item tech,
           item ∈ loaded rawData ∧ Js.toLowerCase (Type_ item) = "company" ∧
           tech ∈ default [] (Designtechs item) ∧
           tech ∈ Name <$> loaded rawData ∧
           e = floatingEdge (edgeIdOf (Name item) tech) (Name item) tech.
Proof.
  destruct (initialElements_result Math_cos Math_sin Math_PI localeCompare
              rawData width height) as (sorted & Hperm & _ & Hres).
  cbv zeta in Hres. eexists _, _, sorted. split; [exact Hres|].
  split; [done|]. split; [done|]. intros e.
  rewrite elem_of_concat. split.
  - intros (l & He & (item & -> & Hitem)%list_elem_of_fmap).
    apply recordEdges_elem in He as (Hc & tech & Ht & Hin & ->).
    exists item, tech. rewrite <- Hperm. split; [done|]. split; [done|].
    split; [done|]. split; [|done]. rewrite Hperm.
    by apply elem_of_list_to_set in Hin.
  - intros (item & tech & Hitem & Hc & Ht & Hin & ->).
    exists (recordEdges (list_to_set (Name <$> loaded rawData)) item). split.
    + apply recordEdges_elem. split; [done|]. exists tech.
      split; [done|]. split; [|done]. by apply elem_of_list_to_set.
    + apply list_elem_of_fmap. exists item. split; [done|]. by rewrite Hperm.
Qed.

Lemma isCompany_record cm item :
  isCompany (recordNode cm item)
  = bool_decide (Js.toLowerCase (Type_ item) = "company").
Proof.
  unfold isCompany, recordNode. simpl.
  destruct (Type_ item) as [|c s] eqn:E; [|done]. done.
Qed.

Lemma Forall2_imap_fmap {A B C} (R : B → C → Prop) (f : nat → A → B)
    (g : A → C) (l : list A) :
  (∀ i x, R (f i x) (g x)) → Forall2 R (imap f l) (g <$> l).
Proof.
  revert f. induction l as [|x l IH]; intros f H; simpl; constructor; [done|].
  apply IH. intros i y. apply H.
Qed.

(** Rebuilding the company edges on the nodes of the initial load keeps
    the pairs the initial load joined: every initial edge that is not a
    loop has a rebuilt edge with the id of its pair, which joins the same
    two nodes when no name holds the separator; and, when no two records
    share a name, every rebuilt edge has the source and the target of an
    initial edge. *)
Theorem rebuild_keeps_initial_pairs
    (Math_cos Math_sin : Q → Q) (Math_PI : Q)
    (localeCompare : string → string → Z)
    (rawData : list DataRecord) (width height : Q) :
  ∃ nodes es,
    initialElements Math_cos Math_sin Math_PI localeCompare rawData width height
      = Some (nodes, es) ∧
    (∀ e, e ∈ es → Edge.source e ≠ Edge.target e →
          ∃ e', e' ∈ edges (buildCompanyEdges nodes rawData) ∧
                Edge.id e' = undirectedId (Edge.source e) (Edge.target e) ∧
                ((∀ item, item ∈ rawData → hyphenFree (Name item) = true) →
                 joins (Edge.source e) (Edge.target e) e')) ∧
    (NoDup (Name <$> rawData) →
     ∀ e', e' ∈ edges (buildCompanyEdges nodes rawData) →
           ∃ e, e ∈ es ∧ Edge.source e = Edge.source e' ∧
                Edge.target e = Edge.target e').
Proof.
  destruct (initialElements_result Math_cos Math_sin Math_PI localeCompare
              rawData width height) as (sorted & Hperm & _ & Hres).
  cbv zeta in Hres. eexists _, _. split; [exact Hres|].
  set (cm := generateColorMap (loaded rawData)).
  set (names := list_to_set (Name <$> loaded rawData) : gset string).
  set (es := concat (recordEdges names <$> sorted)).
  set (nodes := imap _ sorted).
  set (N := recordNode cm <$> sorted).
  assert (Forall2 sameGraphData nodes N) as Hsame.
  { subst nodes N. apply Forall2_imap_fmap. done. }
  destruct (builders_same_data _ _ rawData Hsame) as [-> _].
  assert (nodeIdSet N = names) as Hids.
  { subst N. rewrite nodeIdSet_records. subst names.
    apply set_eq. intros x. rewrite !elem_of_list_to_set. by rewrite Hperm. }
  assert (∀ item, item ∈ loaded rawData → item ∈ rawData) as Hsub.
  { intros item. unfold loaded. by intros [_ ?]%list_elem_of_filter. }
  split.
  - intros e (l & He & (item & -> & Hitem)%list_elem_of_fmap)%elem_of_concat Hne.
    apply recordEdges_elem in He as (Hc & tech & Ht & Hin & ->).
    cbn [floatingEdge Edge.source Edge.target] in *.
    assert (recordNode cm item ∈ N) as HnN
      by (apply list_elem_of_fmap; by exists item).
    destruct (usage_emitted N rawData (recordNode cm item) tech) as (e' & He' & Hid).
    + done.
    + rewrite isCompany_record. by apply bool_decide_eq_true_2.
    + unfold techsOf, recordNode. cbn [Node.data NodeData.designtechs Node.id].
      destruct (Designtechs item) as [[|t ts]|]; simpl in Ht |- *;
        [by apply elem_of_nil in Ht|done|by apply elem_of_nil in Ht].
    + by rewrite Hids.
    + cbn. congruence.
    + exists e'. split; [done|]. split; [done|]. intros Hfree.
      destruct (usage_edges_good _ _ _ He') as (Hcan & _ & Htgt & m & Hm & Hsrc & _).
      apply (id_determines_pair N); try done.
      * intros n (it & -> & Hit)%list_elem_of_fmap. apply Hfree, Hsub.
        by rewrite <- Hperm.
      * by apply node_in_idSet in HnN.
      * by rewrite Hids.
      * rewrite <- Hsrc. by apply node_in_idSet.
  - intros Hnd e' He'.
    destruct (usage_edges_good _ _ _ He') as (_ & Hne & Htgt & n & Hn & Hsrc & Hc & Ht).
    apply list_elem_of_fmap in Hn as (item & -> & Hitem).
    rewrite isCompany_record in Hc. apply bool_decide_eq_true in Hc.
    assert (Edge.target e' ∈ default [] (Designtechs item)) as Htech.
    { unfold techsOf, recordNode in Ht.
      cbn [Node.data NodeData.designtechs Node.id] in Ht.
      destruct (Designtechs item) as [[|t ts]|] eqn:ED; [|done|]; exfalso;
        simpl in Ht;
        destruct (designMapOf rawData !! Name item) as [l|] eqn:El;
        simpl in Ht; try (by apply elem_of_nil in Ht);
        destruct (raw_maps_lookup rawData (Name item)) as (HD & _ & _);
        rewrite El in HD; symmetry in HD;
        apply fmap_Some in HD as (item' & Hlast & _);
        apply last_Some_elem_of, list_elem_of_filter in Hlast
          as [[Hname Hhas] Hin'];
        assert (item' = item) as ->
          by (apply (NoDup_fmap_eq Name rawData); try done;
              apply Hsub; by rewrite <- Hperm);
        unfold hasTechs in Hhas; by rewrite ED in Hhas. }
    exists (floatingEdge (edgeIdOf (Name item) (Edge.target e'))
              (Name item) (Edge.target e')).
    split; [|done]. apply elem_of_concat.
    exists (recordEdges names item). split.
    + apply recordEdges_elem. split; [done|]. exists (Edge.target e').
      split; [done|]. split; [|done]. by rewrite <- Hids.
    + apply list_elem_of_fmap. by exists item.
Qed.

(** ** Vertical layout: columns and rows *)

Section SortSorted.

Context {A : Type} (cmp : A → A → Z).
Hypothesis cmp_total : ∀ a b, (cmp a b ≤ 0 ∨ cmp b a ≤ 0)%Z.
Hypothesis cmp_trans : ∀ a b c, (cmp a b ≤ 0 → cmp b c ≤ 0 → cmp a c ≤ 0)%Z.

Lemma insert_sorted x l :
  StronglySorted (λ a b, (cmp a b ≤ 0)%Z) l →
  StronglySorted (λ a b, (cmp a b ≤ 0)%Z) (Js.insert cmp x l).
Proof.
  induction 1 as [|y l Hl IH Hy]; simpl; [by repeat constructor|].
  destruct (Z.leb_spec (cmp x y) 0) as [Hle|Hgt].
  - constructor; [by constructor|]. constructor; [done|].
    eapply Forall_impl; [exact Hy|]. intros z Hz. by apply (cmp_trans x y z).
  - constructor; [done|].
    assert (cmp y x ≤ 0)%Z as Hyx by (destruct (cmp_total x y); [lia|done]).
    rewrite Forall_forall. intros z Hz.
    rewrite (insert_Permutation cmp x l) in Hz.
    apply elem_of_cons in Hz as [->|Hz]; [done|].
    rewrite Forall_forall in Hy. by apply Hy.
Qed.

Lemma sort_sorted l : StronglySorted (λ a b, (cmp a b ≤ 0)%Z) (Js.sort cmp l).
Proof. induction l as [|x l IH]; simpl; [constructor|]. by apply insert_sorted. Qed.

End SortSorted.

Lemma string_compare_refl (a : string) : String.compare a a = Eq.
Proof. 
  destruct (String.compare a a) eqn:E; [done| |];
    pose proof (String.compare_antisym a a) as H; rewrite E in H; done.
Qed.

Lemma ascii_compare_lt_trans a b c :
  Ascii.compare a b = Lt → Ascii.compare b c = Lt → Ascii.compare a c = Lt.
Proof.
  unfold Ascii.compare. rewrite !N.compare_lt_iff. lia.
Qed.

Lemma ascii_compare_eq a b : Ascii.compare a b = Eq → a = b.
Proof.
  unfold Ascii.compare. intros H%N.compare_eq.
  rewrite <- (Ascii.ascii_N_embedding a), <- (Ascii.ascii_N_embedding b).
  by rewrite H.
Qed.

Lemma string_compare_lt_trans a b c :
  String.compare a b = Lt → String.compare b c = Lt → String.compare a c = Lt.
Proof.
  revert b c. induction a as [|x a IH]; intros [|y b] [|z c]; simpl; try done.
  destruct (Ascii.compare x y) eqn:Exy; try done;
    destruct (Ascii.compare y z) eqn:Eyz; try done.
  - apply ascii_compare_eq in Exy as ->, Eyz as ->.
    assert (Ascii.compare z z = Eq) as -> by (unfold Ascii.compare; apply N.compare_refl).
    apply IH.
  - apply ascii_compare_eq in Exy as ->. by rewrite Eyz.
  - apply ascii_compare_eq in Eyz as ->. by rewrite Exy.
  - by rewrite (ascii_compare_lt_trans x y z).
Qed.

Lemma defaultCompare_le a b :
  (Js.defaultCompare a b ≤ 0)%Z ↔ String.compare a b ≠ Gt.
Proof. unfold Js.defaultCompare. destruct (String.compare a b); split; (done || lia). Qed.

Lemma defaultCompare_total a b :
  (Js.defaultCompare a b ≤ 0 ∨ Js.defaultCompare b a ≤ 0)%Z.
Proof.
  rewrite !defaultCompare_le, (String.compare_antisym b a).
  destruct (String.compare a b); simpl; [left|left|right]; done.
Qed.

Lemma defaultCompare_trans a b c :
  (Js.defaultCompare a b ≤ 0 → Js.defaultCompare b c ≤ 0 →
   Js.defaultCompare a c ≤ 0)%Z.
Proof.
  rewrite !defaultCompare_le. intros Hab Hbc.
  destruct (String.compare a b) eqn:Eab; [| |done].
  - apply String.compare_eq_iff in Eab as ->. done.
  - destruct (String.compare b c) eqn:Ebc; [| |done].
    + apply String.compare_eq_iff in Ebc as ->. by rewrite Eab.
    + by rewrite (string_compare_lt_trans a b c).
Qed.

Lemma groupsOf_snoc nodes n :
  groupsOf (nodes ++ [n])
  = <[typeKey n := default [] (groupsOf nodes !! typeKey n) ++ [n]]>
      (groupsOf nodes).
Proof. unfold groupsOf. by rewrite foldl_app. Qed.

(** The group of a type is the nodes of that type, in the order of the
    list; a type no node has has no group. *)
Lemma groupsOf_lookup nodes type :
  groupsOf nodes !! type =
  match ofType type nodes with [] => None | l => Some l end.
Proof.
  unfold ofType. induction nodes as [|n nodes IH] using rev_ind; [done|].
  rewrite groupsOf_snoc, filter_snoc.
  destruct (decide (typeKey n = type)) as [<-|Hne].
  - rewrite lookup_insert_eq, IH.
    destruct (filter _ nodes); done.
  - rewrite lookup_insert_ne by done. apply IH.
Qed.

Lemma groupsOf_default nodes type :
  default [] (groupsOf nodes !! type) = ofType type nodes.
Proof. rewrite groupsOf_lookup. by destruct (ofType type nodes). Qed.

Lemma ofType_typeKey type nodes n : n ∈ ofType type nodes → typeKey n = type.
Proof. unfold ofType. by intros [? _]%list_elem_of_filter. Qed.

Lemma columnTypes_NoDup nodes : NoDup (columnTypes nodes).
Proof.
  unfold columnTypes. rewrite sort_Permutation. apply NoDup_elements.
Qed.

Lemma columnTypes_sorted nodes :
  StronglySorted (λ a b, (Js.defaultCompare a b ≤ 0)%Z) (columnTypes nodes).
Proof.
  apply sort_sorted; [apply defaultCompare_total|apply defaultCompare_trans].
Qed.

Lemma StronglySorted_lookup {A} (R : A → A → Prop) l i j a b :
  StronglySorted R l → (i < j)%nat → l !! i = Some a → l !! j = Some b → R a b.
Proof.
  intros Hs. revert i j. induction Hs as [|x l Hl IH Hx]; intros i j Hij Ha Hb;
    [done|].
  destruct i as [|i], j as [|j]; try lia; simpl in *.
  - injection Ha as ->. rewrite Forall_forall in Hx. apply Hx.
    by apply list_elem_of_lookup_2 in Hb.
  - apply (IH i j); [lia|done|done].
Qed.

(** Earlier in the columns is smaller, and conversely. *)
Lemma columnTypes_order nodes i j a b :
  columnTypes nodes !! i = Some a → columnTypes nodes !! j = Some b →
  ((i < j)%nat ↔ String.ltb a b = true) ∧ (i = j ↔ a = b).
Proof.
  intros Ha Hb.
  assert (∀ i j a b, (i < j)%nat → columnTypes nodes !! i = Some a →
            columnTypes nodes !! j = Some b → String.compare a b = Lt) as Hlt.
  { clear. intros i j a b Hij Ha Hb.
    pose proof (StronglySorted_lookup _ _ i j a b (columnTypes_sorted nodes)
                  Hij Ha Hb) as Hle.
    apply defaultCompare_le in Hle.
    destruct (String.compare a b) eqn:E; [|done|done].
    apply String.compare_eq_iff in E as ->.
    pose proof (NoDup_lookup _ i j b (columnTypes_NoDup nodes) Ha Hb). lia. }
  assert (i = j ↔ a = b) as Heq.
  { split; [intros ->; congruence|intros ->].
    by apply (NoDup_lookup _ i j b (columnTypes_NoDup nodes)). }
  split; [|done]. unfold String.ltb. split.
  - intros Hij. by rewrite (Hlt i j a b).
  - intros Hc. destruct (String.compare a b) eqn:E; [done| |done].
    destruct (lt_eq_lt_dec i j) as [[?|Hij]|Hji]; [done| |].
    + apply Heq in Hij as ->. by rewrite string_compare_refl in E.
    + pose proof (Hlt j i b a Hji Hb Ha) as E'.
      rewrite String.compare_antisym, E in E'. done.
Qed.

Lemma columnTypes_elem nodes type :
  type ∈ columnTypes nodes ↔ ∃ n, n ∈ nodes ∧ typeKey n = type.
Proof.
  unfold columnTypes. rewrite sort_Permutation, elem_of_elements, elem_of_dom.
  rewrite groupsOf_lookup. unfold ofType. split.
  - destruct (filter _ nodes) as [|n l] eqn:E; [by intros [? ?]|]. intros _.
    assert (n ∈ filter (λ n, typeKey n = type) nodes) as Hn by (rewrite E; by left).
    apply list_elem_of_filter in Hn as [? ?]. by exists n.
  - intros (n & Hn & Ht).
    assert (n ∈ filter (λ n, typeKey n = type) nodes) as Hf
      by by apply list_elem_of_filter.
    destruct (filter _ nodes); [by apply elem_of_nil in Hf|by eexists].
Qed.

Section Columns.

Variable localeCompare : string → string → Z.
Variables (nodes : list Node.t) (height : Q).

Lemma arrangeColumn_places i type :
  arrangeColumn localeCompare (groupsOf nodes) height i type
  = imap (λ j n, withPosition n
                   (columnPosition height i (length (ofType type nodes)) j))
         (sortedColumn localeCompare nodes type).
Proof.
  unfold arrangeColumn, sortedColumn. cbv zeta. rewrite groupsOf_default.
  assert (length (Js.sort (labelCompare localeCompare) (ofType type nodes))
          = length (ofType type nodes)) as ->
    by by rewrite sort_Permutation.
  done.
Qed.

Lemma columnsOf_columns :
  columnsOf localeCompare nodes height
  = concat (imap (λ i type,
                    imap (λ j n, withPosition n
                                   (columnPosition height i
                                      (length (ofType type nodes)) j))
                         (sortedColumn localeCompare nodes type))
                 (columnTypes nodes)).
Proof.
  unfold columnsOf. cbv zeta. fold (columnTypes nodes). f_equal.
  apply imap_ext. intros i type _. apply arrangeColumn_places.
Qed.

(** Where a node of the result is: the column of its type, and a row of
    that column. *)
Lemma columnsOf_elem o :
  o ∈ columnsOf localeCompare nodes height ↔
  ∃ i j n,
    columnTypes nodes !! i = Some (typeKey n) ∧
    sortedColumn localeCompare nodes (typeKey n) !! j = Some n ∧
    o = withPosition n
          (columnPosition height i (length (ofType (typeKey n) nodes)) j).
Proof.
  rewrite columnsOf_columns, elem_of_concat. split.
  - intros (col & Ho & (i & type & -> & Hi)%elem_of_lookup_imap).
    apply elem_of_lookup_imap in Ho as (j & n & -> & Hj).
    assert (typeKey n = type) as <-.
    { apply list_elem_of_lookup_2 in Hj. unfold sortedColumn in Hj.
      rewrite sort_Permutation in Hj. by apply ofType_typeKey in Hj. }
    by exists i, j, n.
  - intros (i & j & n & Hi & Hj & ->).
    exists (imap (λ j m, withPosition m
                           (columnPosition height i
                              (length (ofType (typeKey n) nodes)) j))
                 (sortedColumn localeCompare nodes (typeKey n))).
    split.
    + apply elem_of_lookup_imap. by exists j, n.
    + apply elem_of_lookup_imap. exists i, (typeKey n). done.
Qed.

End Columns.

Lemma ofNat_lt i j : (i < j)%nat ↔ (ofNat i < ofNat j)%Q.
Proof. unfold ofNat. rewrite <- Zlt_Qlt. lia. Qed.

Lemma ofNat_eq i j : i = j ↔ (ofNat i == ofNat j)%Q.
Proof. unfold ofNat. rewrite inject_Z_injective. lia. Qed.

Lemma arrangeNodesVertically_plain (localeCompare : string → string → Z)
    (nodes : list Node.t) (width height : Q) :
  plainTypes nodes →
  arrangeNodesVertically localeCompare nodes width height
  = Some (columnsOf localeCompare nodes height).
Proof.
  intros Hplain.
  pose proof (arrangeNodesVertically_spec localeCompare nodes width height) as H.
  destruct (arrangeNodesVertically _ _ _ _) as [out|]; [|done].
  by destruct H as [_ ->].
Qed.

Lemma columns_are_types (localeCompare : string → string → Z)
    (nodes : list Node.t) (height : Q) (o1 o2 : Node.t) :
  let out := columnsOf localeCompare nodes height in
  (o1 ∈ out → ∃ p, Node.position o1 = Some p) ∧
  (o1 ∈ out → o2 ∈ out →
   ((pos_x (placeOf o1) == pos_x (placeOf o2))%Q ↔ typeKey o1 = typeKey o2) ∧
   ((pos_x (placeOf o1) < pos_x (placeOf o2))%Q ↔
    String.ltb (typeKey o1) (typeKey o2) = true)).
Proof.
  intros out. subst out. split.
  - intros (i & j & n & _ & _ & ->)%columnsOf_elem. by eexists.
  - intros (i1 & j1 & n1 & Hi1 & _ & ->)%columnsOf_elem
           (i2 & j2 & n2 & Hi2 & _ & ->)%columnsOf_elem.
    destruct (columnTypes_order nodes i1 i2 _ _ Hi1 Hi2) as [Hlt Heq].
    change (typeKey (withPosition n1 _)) with (typeKey n1).
    change (typeKey (withPosition n2 _)) with (typeKey n2).
    change (pos_x (placeOf (withPosition n1 _))) with (ofNat i1 * 250 + 100)%Q.
    change (pos_x (placeOf (withPosition n2 _))) with (ofNat i2 * 250 + 100)%Q.
    rewrite <- Hlt, <- Heq, ofNat_lt, ofNat_eq. split; split; intros H; lra.
Qed.

(** When no node has a type that names a member of [Object.prototype], the
    vertical layout returns, and its columns are the type keys: the key of
    a node is its [data.type] read as a property key, which is the type, or
    [undefined] for a node that has none.  Every node of the result has a
    position; two nodes of the result are in the same column exactly when
    they have the same key, and the columns go from left to right in the
    ascending order of the keys. *)
Theorem arrangeNodesVertically_columns_are_types
    (localeCompare : string → string → Z) (nodes : list Node.t)
    (width height : Q) :
  plainTypes nodes →
  ∃ out,
    arrangeNodesVertically localeCompare nodes width height = Some out ∧
    ∀ o1 o2,
      (o1 ∈ out → ∃ p, Node.position o1 = Some p) ∧
      (o1 ∈ out → o2 ∈ out →
       ((pos_x (placeOf o1) == pos_x (placeOf o2))%Q ↔
        typeKey o1 = typeKey o2) ∧
       ((pos_x (placeOf o1) < pos_x (placeOf o2))%Q ↔
        String.ltb (typeKey o1) (typeKey o2) = true)).
Proof.
  intros Hplain. eexists. split; [by apply arrangeNodesVertically_plain|].
  intros o1 o2. apply columns_are_types.
Qed.

Lemma arrangeNodesVertically_columns_are_types_witness :
  ∃ out,
    arrangeNodesVertically byLength columnNodes 800 600 = Some out ∧
    ∀ o1 o2,
      (o1 ∈ out → ∃ p, Node.position o1 = Some p) ∧
      (o1 ∈ out → o2 ∈ out →
       ((pos_x (placeOf o1) == pos_x (placeOf o2))%Q ↔
        typeKey o1 = typeKey o2) ∧
       ((pos_x (placeOf o1) < pos_x (placeOf o2))%Q ↔
        String.ltb (typeKey o1) (typeKey o2) = true)).
Proof.
  apply (arrangeNodesVertically_columns_are_types byLength columnNodes 800 600).
  repeat constructor.
Defined.

Lemma StronglySorted_imap {A B} (R : B → B → Prop) (g : nat → A → B) l :
  (∀ j1 j2 a b, (j1 < j2)%nat → l !! j1 = Some a → l !! j2 = Some b →
                R (g j1 a) (g j2 b)) →
  StronglySorted R (imap g l).
Proof.
  revert g. induction l as [|x l IH]; intros g Hg; simpl; constructor.
  - apply IH. intros j1 j2 a b Hj Ha Hb. apply (Hg (S j1) (S j2)); [lia|done|done].
  - apply Forall_forall. intros y (j & b & -> & Hb)%elem_of_lookup_imap.
    apply (Hg 0%nat (S j)); [lia|done|done].
Qed.

Lemma StronglySorted_concat_imap {A B} (R : B → B → Prop)
    (f : nat → A → list B) l :
  (∀ i x, l !! i = Some x → StronglySorted R (f i x)) →
  (∀ i1 i2 x1 x2 a b, (i1 < i2)%nat → l !! i1 = Some x1 → l !! i2 = Some x2 →
                      a ∈ f i1 x1 → b ∈ f i2 x2 → R a b) →
  StronglySorted R (concat (imap f l)).
Proof.
  revert f. induction l as [|x l IH]; intros f Hin Hacross; simpl; [constructor|].
  apply StronglySorted_app. split; [|split].
  - intros a b Ha (col & Hb & (i & y & -> & Hy)%elem_of_lookup_imap)%elem_of_concat.
    by apply (Hacross 0%nat (S i) x y); [lia|done|done| |].
  - by apply (Hin 0%nat).
  - apply IH.
    + intros i y Hy. by apply (Hin (S i)).
    + intros i1 i2 x1 x2 a b Hi H1 H2. apply (Hacross (S i1) (S i2)); [lia|done|done].
Qed.

Lemma columns_reading_order (localeCompare : string → string → Z)
    (nodes : list Node.t) (height : Q) :
  let out := columnsOf localeCompare nodes height in
  StronglySorted placedBefore out ∧
  ∀ o, o ∈ out →
       ∃ j, (j < length (ofType (typeKey o) nodes))%nat ∧
            (pos_y (placeOf o) ==
             height / 2 - 25 * ofNat (length (ofType (typeKey o) nodes))
             + 50 * ofNat j)%Q.
Proof.
  intros out. subst out. split.
  - rewrite columnsOf_columns. apply StronglySorted_concat_imap.
    + intros i type _. apply StronglySorted_imap. intros j1 j2 a b Hj _ _.
      unfold placedBefore, withPosition, columnPosition, VERTICAL_SPACING.
      cbn [Node.position pos_x pos_y]. right. split; [reflexivity|].
      apply ofNat_lt in Hj. lra.
    + intros i1 i2 t1 t2 a b Hi _ _
        (j1 & n1 & -> & _)%elem_of_lookup_imap
        (j2 & n2 & -> & _)%elem_of_lookup_imap.
      unfold placedBefore, withPosition, columnPosition, COLUMN_SPACING.
      cbn [Node.position pos_x pos_y]. left. apply ofNat_lt in Hi. lra.
  - intros o (i & j & n & _ & Hj & ->)%columnsOf_elem.
    exists j. change (typeKey (withPosition n _)) with (typeKey n). split.
    + apply lookup_lt_Some in Hj. unfold sortedColumn in Hj.
      by rewrite sort_Permutation in Hj.
    + unfold placeOf, withPosition, columnPosition, VERTICAL_SPACING.
      simpl. field.
Qed.

(** When no node has a type that names a member of [Object.prototype], the
    vertical layout returns, and its result is in reading order, column
    after column from left to right and each column from top to bottom: no
    two nodes are put in the same place.  A column of [k] nodes has its
    rows 50 apart, from [height / 2 - 25 k] down. *)
Theorem arrangeNodesVertically_reading_order
    (localeCompare : string → string → Z) (nodes : list Node.t)
    (width height : Q) :
  plainTypes nodes →
  ∃ out,
    arrangeNodesVertically localeCompare nodes width height = Some out ∧
    StronglySorted placedBefore out ∧
    ∀ o, o ∈ out →
         ∃ j, (j < length (ofType (typeKey o) nodes))%nat ∧
              (pos_y (placeOf o) ==
               height / 2 - 25 * ofNat (length (ofType (typeKey o) nodes))
               + 50 * ofNat j)%Q.
Proof.
  intros Hplain. eexists. split; [by apply arrangeNodesVertically_plain|].
  apply columns_reading_order.
Qed.

Lemma arrangeNodesVertically_reading_order_witness :
  ∃ out,
    arrangeNodesVertically byLength columnNodes 800 600 = Some out ∧
    StronglySorted placedBefore out ∧
    ∀ o, o ∈ out →
         ∃ j, (j < length (ofType (typeKey o) columnNodes))%nat ∧
              (pos_y (placeOf o) ==
               600 / 2 - 25 * ofNat (length (ofType (typeKey o) columnNodes))
               + 50 * ofNat j)%Q.
Proof.
  apply (arrangeNodesVertically_reading_order byLength columnNodes 800 600).
  repeat constructor.
Defined.

Lemma byLength_total a b : (byLength a b ≤ 0 ∨ byLength b a ≤ 0)%Z.
Proof. unfold byLength. lia. Qed.

Lemma byLength_trans a b c :
  (byLength a b ≤ 0 → byLength b c ≤ 0 → byLength a c ≤ 0)%Z.
Proof. unfold byLength. lia. Qed.

Lemma columns_labels_ascend (localeCompare : string → string → Z)
    (nodes : list Node.t) (height : Q) :
  (∀ a b, (localeCompare a b ≤ 0 ∨ localeCompare b a ≤ 0)%Z) →
  (∀ a b c, (localeCompare a b ≤ 0 → localeCompare b c ≤ 0 →
             localeCompare a c ≤ 0)%Z) →
  StronglySorted
    (λ o1 o2, typeKey o1 = typeKey o2 →
              (localeCompare (Js.toLowerCase (NodeData.label (Node.data o1)))
                             (Js.toLowerCase (NodeData.label (Node.data o2)))
               ≤ 0)%Z)
    (columnsOf localeCompare nodes height).
Proof.
  intros Htotal Htrans.
  rewrite columnsOf_columns. apply StronglySorted_concat_imap.
  - intros i type _. apply StronglySorted_imap. intros j1 j2 a b Hj Ha Hb _.
    change (labelCompare localeCompare a b ≤ 0)%Z.
    apply (StronglySorted_lookup
             (λ x y, (labelCompare localeCompare x y ≤ 0)%Z)
             (sortedColumn localeCompare nodes type) j1 j2 a b); [|done..].
    apply sort_sorted.
    + intros x y. apply Htotal.
    + intros x y z. apply Htrans.
  - intros i1 i2 t1 t2 a b Hi H1 H2
      (j1 & n1 & -> & Hn1)%elem_of_lookup_imap
      (j2 & n2 & -> & Hn2)%elem_of_lookup_imap Hty.
    exfalso.
    change (typeKey n1 = typeKey n2) in Hty.
    assert (∀ t j n, sortedColumn localeCompare nodes t !! j = Some n →
              typeKey n = t) as Hkey.
    { intros t j n Hn. apply list_elem_of_lookup_2 in Hn. unfold sortedColumn in Hn.
      rewrite sort_Permutation in Hn. by apply ofType_typeKey in Hn. }
    rewrite (Hkey _ _ _ Hn1), (Hkey _ _ _ Hn2) in Hty. subst t2.
    pose proof (NoDup_lookup _ i1 i2 t1 (columnTypes_NoDup nodes) H1 H2). lia.
Qed.

(** When no node has a type that names a member of [Object.prototype] and
    [localeCompare] is a total preorder, the vertical layout returns, and
    the labels, in lower case, ascend down every column: of two nodes of a
    type key, the one that comes first in the result, and so is higher up,
    compares less than or equal to the other. *)
Theorem arrangeNodesVertically_labels_ascend
    (localeCompare : string → string → Z) (nodes : list Node.t)
    (width height : Q) :
  plainTypes nodes →
  (∀ a b, (localeCompare a b ≤ 0 ∨ localeCompare b a ≤ 0)%Z) →
  (∀ a b c, (localeCompare a b ≤ 0 → localeCompare b c ≤ 0 →
             localeCompare a c ≤ 0)%Z) →
  ∃ out,
    arrangeNodesVertically localeCompare nodes width height = Some out ∧
    StronglySorted
      (λ o1 o2, typeKey o1 = typeKey o2 →
                (localeCompare (Js.toLowerCase (NodeData.label (Node.data o1)))
                               (Js.toLowerCase (NodeData.label (Node.data o2)))
                 ≤ 0)%Z)
      out.
Proof.
  intros Hplain Htotal Htrans. eexists.
  split; [by apply arrangeNodesVertically_plain|].
  by apply columns_labels_ascend.
Qed.

(** On three tools given in the order [Sketch], [Figma], [Ab] and a company,
    compared by the length of the label: the column of the tools comes out
    in the order [Ab], [Figma], [Sketch]. *)
Lemma arrangeNodesVertically_labels_ascend_witness :
  (∃ out,
     arrangeNodesVertically byLength columnNodes 800 600 = Some out ∧
     StronglySorted
       (λ o1 o2, typeKey o1 = typeKey o2 →
                 (byLength (Js.toLowerCase (NodeData.label (Node.data o1)))
                           (Js.toLowerCase (NodeData.label (Node.data o2)))
                  ≤ 0)%Z)
       out) ∧
  Node.id <$> default [] (arrangeNodesVertically byLength columnNodes 800 600)
  = ["Acme"; "Ab"; "Figma"; "Sketch"].
Proof.
  split; [|vm_compute; reflexivity].
  apply (arrangeNodesVertically_labels_ascend byLength columnNodes 800 600).
  - repeat constructor.
  - apply byLength_total.
  - apply byLength_trans.
Defined.

(** ** Circular layout: the order on the circle *)

Lemma insertM_sort {A} (cmpM : A → A → option Z) (cmp : A → A → Z) x l :
  (∀ y, y ∈ l → cmpM x y = Some (cmp x y)) →
  Js.insertM cmpM x l = Some (Js.insert cmp x l).
Proof.
  induction l as [|y l IH]; intros H; simpl; [done|].
  rewrite (H y) by by left. simpl.
  destruct (cmp x y <=? 0)%Z; [done|].
  rewrite IH; [done|]. intros z Hz. apply H. by right.
Qed.

Lemma sortM_sort {A} (cmpM : A → A → option Z) (cmp : A → A → Z) l :
  (∀ x y, x ∈ l → y ∈ l → cmpM x y = Some (cmp x y)) →
  Js.sortM cmpM l = Some (Js.sort cmp l).
Proof.
  induction l as [|x l IH]; intros H; simpl; [done|].
  rewrite IH by (intros y z Hy Hz; apply H; by right). simpl.
  apply insertM_sort. intros y Hy. apply H; [by left|].
  right. by rewrite sort_Permutation in Hy.
Qed.

(** When reading [arrangeBy] gives a string, or nothing, on every node, and
    [localeCompare] is a total preorder, [arrangeNodes] returns the nodes,
    each with a new position, in the ascending order of that string in
    lower case. *)
Theorem arrangeNodes_in_key_order
    (Math_cos Math_sin : Q → Q) (Math_PI : Q)
    (localeCompare : string → string → Z)
    (nodes : list Node.t) (width height : Q) (arrangeBy : string) (radius : Q) :
  (∀ n, n ∈ nodes → is_Some (arrangeKey arrangeBy n)) →
  (∀ a b, (localeCompare a b ≤ 0 ∨ localeCompare b a ≤ 0)%Z) →
  (∀ a b c, (localeCompare a b ≤ 0 → localeCompare b c ≤ 0 →
             localeCompare a c ≤ 0)%Z) →
  ∃ out sortedNodes,
    arrangeNodes Math_cos Math_sin Math_PI localeCompare
      nodes width height arrangeBy radius = Some out ∧
    sortedNodes ≡ₚ nodes ∧ repositioned sortedNodes out ∧
    StronglySorted
      (λ a b, (localeCompare (keyOf arrangeBy a) (keyOf arrangeBy b) ≤ 0)%Z)
      out.
Proof.
  intros Hkeys Htotal Htrans. unfold arrangeNodes.
  set (cmp := λ a b : Node.t, localeCompare (keyOf arrangeBy a) (keyOf arrangeBy b)).
  rewrite (sortM_sort _ cmp).
  2:{ intros x y Hx Hy. subst cmp. unfold arrangeCompare, keyOf. cbv beta.
      destruct (Hkeys x Hx) as [kx Ex], (Hkeys y Hy) as [ky Ey].
      by rewrite Ex, Ey. }
  cbn [mbind option_bind]. eexists _, (Js.sort cmp nodes). split; [done|].
  split; [apply sort_Permutation|]. split.
  - apply (imap_repositioned (λ i _, circlePosition _ _ _ _ _ _ i)).
  - assert (StronglySorted (λ a b, (cmp a b ≤ 0)%Z) (Js.sort cmp nodes)) as Hs.
    { apply sort_sorted; intros; [apply Htotal|by eapply Htrans]. }
    apply StronglySorted_imap. intros j1 j2 a b Hj Ha Hb.
    apply (StronglySorted_lookup _ _ j1 j2 a b Hs Hj Ha Hb).
Qed.

(** On the nodes [Sketch], [Figma], [Ab] and [Acme], sorted by label and
    compared by length: the order is [Ab], [Acme], [Figma], [Sketch]. *)
Lemma arrangeNodes_in_key_order_witness :
  (∃ out sortedNodes,
     arrangeNodes (λ _, 1%Q) (λ _, 0%Q) (355 # 113) byLength
       columnNodes 800 600 "label" 600 = Some out ∧
     sortedNodes ≡ₚ columnNodes ∧ repositioned sortedNodes out ∧
     StronglySorted
       (λ a b, (byLength (keyOf "label" a) (keyOf "label" b) ≤ 0)%Z) out) ∧
  Node.id <$> default [] (arrangeNodes (λ _, 1%Q) (λ _, 0%Q) (355 # 113)
                            byLength columnNodes 800 600 "label" 600)
  = ["Ab"; "Acme"; "Figma"; "Sketch"].
Proof.
  split; [|vm_compute; reflexivity].
  apply (arrangeNodes_in_key_order (λ _, 1%Q) (λ _, 0%Q) (355 # 113) byLength
           columnNodes).
  - intros n _. done.
  - apply byLength_total.
  - apply byLength_trans.
Defined.
